(** * AggregateFunctionUniq: the key encoders and the aggregate facade of
      uniq, uniqHLL12 and uniqExact

    A shallow embedding of src/AggregateFunctions/AggregateFunctionUniq.h.
    Unsigned 64-bit integers are [Z] with the wrap-around written out, bytes
    are [Byte.byte], a [UInt128] is the record of its two 64-bit halves, a
    column is its row accessor, and a template over [T] and [Data] is a
    definition over a value type and an estimator instance. *)

From Stdlib Require Import ZArith List Lia Bool.
From coqutil Require Import Byte Word.LittleEndianList.
From stdpp Require Import base decidable option list countable gmap sets
  fin_sets.
Import ListNotations.
Local Open Scope Z_scope.
Set Warnings "-clear-no-such-hyp".

(** ** Machine integers and bytes *)

(** Arithmetic on [UInt64] wraps modulo 2^64. *)
Definition UInt64_mul (x y : Z) : Z := (x * y) mod 2 ^ 64.

Definition is_UInt64 (x : Z) : Prop := 0 <= x < 2 ^ 64.

(** [struct UInt128 { UInt64 low; UInt64 high; }]. *)
Record UInt128 : Type := mkUInt128 { low : Z; high : Z }.

#[global] Instance UInt128_eq_dec : EqDecision UInt128.
Proof. solve_decision. Defined.

#[global] Instance UInt128_countable : Countable UInt128.
Proof.
  refine (inj_countable' (fun k => (low k, high k))
                         (fun p => mkUInt128 (fst p) (snd p)) _).
  intros [l h]. reflexivity.
Defined.

(** [StringRef]: a pointer and a size.  [data] is the memory from the pointer
    on, so it holds the [size] bytes of the string followed by whatever the
    column stores behind them (the terminating zero, the next strings, the 15
    bytes of padding). *)
Module StringRef.
Record t : Type := mk { data : list byte; size : nat }.
End StringRef.

(** The bytes a [StringRef] denotes: [data[0 .. size)]. *)
Definition toBytes (value : StringRef.t) : list byte :=
  firstn (StringRef.size value) (StringRef.data value).

(** The [StringRef] of the string [s] stored in front of the bytes [behind]. *)
Definition refOf (s behind : list byte) : StringRef.t :=
  {| StringRef.data := s ++ behind; StringRef.size := length s |}.

(** A column is read through its row accessor: [getElement(row_num)] and
    [getData()[row_num]] of [ColumnVector<T>], [getDataAt(row_num)] of a
    string column. *)
Definition Column (T : Type) : Type := nat -> T.

(** The column that holds the rows [rows]. *)
Definition columnOf {T : Type} (default : T) (rows : list T) : Column T :=
  fun row_num => nth row_num rows default.

(** ** Byte streams

    [WriteBuffer] and [ReadBuffer] are sequences of bytes; integers are
    written little endian.  A read that finds too few bytes fails. *)

Definition writeIntBinary (width : nat) (x : Z) : list byte := le_split width x.

Definition readIntBinary (width : nat) (buf : list byte)
  : option (Z * list byte) :=
  if (width <=? length buf)%nat
  then Some (le_combine (firstn width buf), skipn width buf)
  else None.

(** [count] items read one after the other. *)
Fixpoint readMany {A : Type} (readOne : list byte -> option (A * list byte))
    (count : nat) (buf : list byte) : option (list A * list byte) :=
  match count with
  | O => Some ([], buf)
  | S count =>
      match readOne buf with
      | None => None
      | Some (x, buf) =>
          match readMany readOne count buf with
          | None => None
          | Some (xs, buf) => Some (x :: xs, buf)
          end
      end
  end.

Definition writeUInt128 (key : UInt128) : list byte :=
  writeIntBinary 8 (low key) ++ writeIntBinary 8 (high key).

Definition readUInt128 (buf : list byte) : option (UInt128 * list byte) :=
  match readIntBinary 8 buf with
  | None => None
  | Some (l, buf) =>
      match readIntBinary 8 buf with
      | None => None
      | Some (h, buf) => Some ({| low := l; high := h |}, buf)
      end
  end.

(** ** SSSE3 intrinsics used by the short-string path *)

(** [_mm_loadu_si128]: the 16 bytes at the pointer.  Reading behind the end of
    the modelled memory yields zero bytes. *)
Definition _mm_loadu_si128 (mem : list byte) : list byte :=
  map (fun i => nth i mem Byte.x00) (seq 0 16).

(** [_mm_shuffle_epi8 a b]: byte [i] of the result is zero when the sign bit
    of [b[i]] is set and [a[b[i] & 15]] otherwise.  The control bytes are
    [Int8] values. *)
Definition _mm_shuffle_epi8 (a : list byte) (b : list Z) : list byte :=
  map (fun m => if m <? 0 then Byte.x00
                else nth (Z.to_nat (Z.land m 15)) a Byte.x00) b.

(** [_mm_storeu_si128] into a [UInt128], "assuming little endian": the first
    eight bytes are [low], the last eight are [high]. *)
Definition _mm_storeu_si128 (v : list byte) : UInt128 :=
  {| low := le_combine (firstn 8 v); high := le_combine (skipn 8 v) |}.

(** ** SipHash *)

Module SipHash.

(** Modelled from the spec: the "128-bit cryptographic hash of the full byte
    content" of the long-string path.  The source names it ([SipHash hash;
    hash.update(value.data, value.size); hash.get128(key.low, key.high)]) but
    class [SipHash] of Common/SipHash.h is not among the sources.  This is
    SipHash-2-4 as published, with the state words [v0 .. v3], the byte
    counter and the pending word as fields; [get128] returns [v0 ^ v1] and
    [v2 ^ v3], [get64] the xor of all four.  The key encoder itself takes the
    hash as a parameter; this model instantiates it where a concrete value is
    needed. *)
Record state : Type := mkState
  { v0 : Z; v1 : Z; v2 : Z; v3 : Z; cnt : Z; current_word : Z }.

Definition ROTL (x b : Z) : Z :=
  Z.lor (Z.shiftl x b mod 2 ^ 64) (Z.shiftr x (64 - b)).

Definition add64 (x y : Z) : Z := (x + y) mod 2 ^ 64.

Definition SIPROUND (s : state) : state :=
  let '(a, b, c, d) := (v0 s, v1 s, v2 s, v3 s) in
  let a := add64 a b in let b := ROTL b 13 in
  let b := Z.lxor b a in let a := ROTL a 32 in
  let c := add64 c d in let d := ROTL d 16 in let d := Z.lxor d c in
  let a := add64 a d in let d := ROTL d 21 in let d := Z.lxor d a in
  let c := add64 c b in let b := ROTL b 17 in
  let b := Z.lxor b c in let c := ROTL c 32 in
  {| v0 := a; v1 := b; v2 := c; v3 := d;
     cnt := cnt s; current_word := current_word s |}.

(** The constructor with seed [(k0, k1)]; the default seed is [(0, 0)]. *)
Definition init (k0 k1 : Z) : state :=
  {| v0 := Z.lxor 0x736f6d6570736575 k0;
     v1 := Z.lxor 0x646f72616e646f6d k1;
     v2 := Z.lxor 0x6c7967656e657261 k0;
     v3 := Z.lxor 0x7465646279746573 k1;
     cnt := 0; current_word := 0 |}.

Definition set_word (s : state) (w : Z) : state :=
  {| v0 := v0 s; v1 := v1 s; v2 := v2 s; v3 := v3 s;
     cnt := cnt s; current_word := w |}.

(** [v3 ^= current_word; SIPROUND; SIPROUND; v0 ^= current_word]. *)
Definition absorb (s : state) : state :=
  let w := current_word s in
  let s := {| v0 := v0 s; v1 := v1 s; v2 := v2 s; v3 := Z.lxor (v3 s) w;
              cnt := cnt s; current_word := w |} in
  let s := SIPROUND (SIPROUND s) in
  {| v0 := Z.lxor (v0 s) w; v1 := v1 s; v2 := v2 s; v3 := v3 s;
     cnt := cnt s; current_word := w |}.

(** The whole 8-byte words are absorbed; the remaining bytes are left,
    zero-padded, in [current_word]. *)
Fixpoint words (s : state) (bytes : list byte) : state :=
  match bytes with
  | b0 :: b1 :: b2 :: b3 :: b4 :: b5 :: b6 :: b7 :: rest =>
      words (absorb (set_word s (le_combine [b0; b1; b2; b3; b4; b5; b6; b7])))
            rest
  | tail => set_word s (le_combine tail)
  end.

(** [update] on a state that has taken no bytes yet, the only use made of it
    here. *)
Definition update (s : state) (bytes : list byte) : state :=
  words {| v0 := v0 s; v1 := v1 s; v2 := v2 s; v3 := v3 s;
           cnt := (cnt s + Z.of_nat (length bytes)) mod 2 ^ 64;
           current_word := current_word s |} bytes.

(** The last byte of the pending word takes the byte count modulo 256. *)
Definition finalize (s : state) : state :=
  let s := set_word s (Z.lor (Z.land (current_word s) (Z.ones 56))
                             (Z.shiftl (cnt s mod 256) 56)) in
  let s := absorb s in
  let s := {| v0 := v0 s; v1 := v1 s; v2 := Z.lxor (v2 s) 0xff; v3 := v3 s;
              cnt := cnt s; current_word := current_word s |} in
  SIPROUND (SIPROUND (SIPROUND (SIPROUND s))).

Definition get128 (s : state) : UInt128 :=
  let s := finalize s in
  {| low := Z.lxor (v0 s) (v1 s); high := Z.lxor (v2 s) (v3 s) |}.

Definition get64 (s : state) : Z :=
  let s := finalize s in
  Z.lxor (Z.lxor (Z.lxor (v0 s) (v1 s)) (v2 s)) (v3 s).

(** [SipHash hash; hash.update(s); hash.get128(key.low, key.high)]. *)
Definition sipHash128 (s : list byte) : UInt128 :=
  get128 (update (init 0 0) s).

End SipHash.

(** ** The estimators

    The three set types the data structures of this header hold ([HashSet],
    [UniquesHashSet], [HyperLogLogWithSmallSetOptimization]) are declared in
    headers that are not among the sources.  The header uses five of their
    members, [insert], [merge], [write], [read] and [size]: "one capability
    set" behind which the estimators are interchangeable. *)

Class Estimator (Set_ value_type : Type) : Type := {
  set_empty : Set_;
  set_insert : value_type -> Set_ -> Set_;
  set_merge : Set_ -> Set_ -> Set_;
  set_write : Set_ -> list byte;
  set_read : list byte -> option (Set_ * list byte);
  set_size : Set_ -> Z
}.

(** *** The exact estimator *)

Module HashSet.
Section HashSet.
Context {Key : Type} `{Countable Key}.

(** How one key is written and read: [sizeof(Key)] bytes. *)
Variable writeKey : Key -> list byte.
Variable readKey : list byte -> option (Key * list byte).

(** Modelled from the spec: [HashSet] of Common/HashTable/HashSet.h, the
    "open-addressed set of surrogate keys with exact membership".  The
    state is the set of keys held and the element count "maintained
    incrementally"; the layout of the table (capacity, inline or heap
    storage, probing) is not described and not modelled. *)
Record t : Type := mk { keys : gset Key; m_size : Z }.

Definition empty : t := {| keys := ∅; m_size := 0 |}.

Definition has (x : Key) (s : t) : bool := bool_decide (x ∈ keys s).

(** Modelled from the spec: [HashSet::insert], "no-op if key already
    present; else insert into open-addressed storage". *)
Definition insert (x : Key) (s : t) : t :=
  if has x s then s
  else {| keys := {[x]} ∪ keys s; m_size := m_size s + 1 |}.

(** Modelled from the spec: [HashSet::merge], "insert every key of other
    into self". *)
Definition merge (self rhs : t) : t := set_fold insert self (keys rhs).

(** Modelled from the spec: [HashSet::size], "exact element count, O(1)
    maintained incrementally". *)
Definition size (s : t) : Z := m_size s.

(** Modelled from the spec: [HashSet::write], "element count followed by
    all keys in table order".  The count is written as 8 bytes. *)
Definition write (s : t) : list byte :=
  writeIntBinary 8 (m_size s) ++ flat_map writeKey (elements (keys s)).

(** Modelled from the spec: [HashSet::read], "deserialization must fully
    reconstruct the key set"; truncated input is the [CorruptedState]
    failure, here [None]. *)
Definition read (buf : list byte) : option (t * list byte) :=
  match readIntBinary 8 buf with
  | None => None
  | Some (count, buf) =>
      match readMany readKey (Z.to_nat count) buf with
      | None => None
      | Some (ks, buf) => Some (fold_left (fun s x => insert x s) ks empty, buf)
      end
  end.

End HashSet.
Arguments t Key {_ _}.
End HashSet.

(** *** The sampling estimator *)

Module UniquesHashSet.
Section UniquesHashSet.
(** The template argument: [DefaultHash<UInt64>] for one argument,
    [TrivialHash] for the variadic functions. *)
Variable Hash : Z -> Z.
(** The "configured maximum" of retained hashes. *)
Variable max_size : nat.

(** Modelled from the spec: [UniquesHashSet] of
    AggregateFunctions/UniquesHashSet.h, "an open-addressed table of 64-bit
    hashes" and "a skip-degree counter".  The state is the skip degree and
    the set of retained hashes; the layout of the table is not modelled. *)
Record t : Type := mk { skip_degree : nat; table : gset Z }.

Definition empty : t := {| skip_degree := 0; table := ∅ |}.

(** "every retained hash satisfies hash & skip_mask == 0 for the current
    skip degree". *)
Definition good (degree : nat) (h : Z) : Prop :=
  Z.land h (Z.ones (Z.of_nat degree)) = 0.

#[global] Instance good_dec degree h : Decision (good degree h).
Proof. unfold good. apply Z.eq_dec. Defined.

(** "evict all entries failing the new mask". *)
Definition rehash (degree : nat) (s : t) : t :=
  {| skip_degree := degree; table := filter (good degree) (table s) |}.

(** Modelled from the spec: "raise skip degree by one bit and evict all
    entries failing the new mask", repeated while the table is above its
    bound ("never exceed").  A 64-bit hash other than zero fails the mask
    of degree 64, so 64 rounds are enough. *)
Fixpoint shrink (fuel : nat) (s : t) : t :=
  match fuel with
  | O => s
  | S fuel =>
      if decide (size (table s) <= max_size)%nat then s
      else shrink fuel (rehash (S (skip_degree s)) s)
  end.

Definition shrinkIfNeed (s : t) : t := shrink 64 s.

(** Modelled from the spec: "skip if hash fails the current skip-degree
    mask; else insert into the open-addressed table", then shrink. *)
Definition insertHash (h : Z) (s : t) : t :=
  if decide (good (skip_degree s) h)
  then shrinkIfNeed {| skip_degree := skip_degree s;
                       table := {[h]} ∪ table s |}
  else s.

Definition insert (x : Z) (s : t) : t := insertHash (Hash x) s.

(** Modelled from the spec: [UniquesHashSet::merge], "reconcile skip
    degrees by moving both sides to the coarser (larger) skip degree,
    evicting entries that no longer satisfy it, then insert all surviving
    entries of other into self". *)
Definition merge (self rhs : t) : t :=
  let self :=
    if (skip_degree self <? skip_degree rhs)%nat
    then rehash (skip_degree rhs) self else self in
  set_fold insertHash self (table rhs).

(** Modelled from the spec: [UniquesHashSet::size], "retained_count /
    sampling_probability, where sampling_probability = 2^-skip_degree";
    with skip degree 0 this is the exact retained count. *)
Definition size (s : t) : Z :=
  Z.of_nat (size (table s)) * 2 ^ Z.of_nat (skip_degree s).

(** Modelled from the spec: "write skip degree and retained hash count,
    then retained hashes in table order".  The degree is one byte, the
    count and each hash are 8 bytes. *)
Definition write (s : t) : list byte :=
  writeIntBinary 1 (Z.of_nat (skip_degree s))
  ++ writeIntBinary 8 (Z.of_nat (base.size (table s)))
  ++ flat_map (writeIntBinary 8) (elements (table s)).

(** Modelled from the spec: "deserialization must reconstruct an equivalent
    table (exact retained set, not merely same size)". *)
Definition read (buf : list byte) : option (t * list byte) :=
  match readIntBinary 1 buf with
  | None => None
  | Some (degree, buf) =>
      match readIntBinary 8 buf with
      | None => None
      | Some (count, buf) =>
          match readMany (readIntBinary 8) (Z.to_nat count) buf with
          | None => None
          | Some (hs, buf) =>
              Some ({| skip_degree := Z.to_nat degree;
                       table := list_to_set hs |}, buf)
          end
      end
  end.

End UniquesHashSet.
End UniquesHashSet.

(** *** The hybrid estimator *)

Module HyperLogLogWithSmallSetOptimization.
Section HyperLogLogWithSmallSetOptimization.
(** The template argument [Key]: the type of the values inserted, [T] in
    [AggregateFunctionUniqHLL12Data<T>] and [UInt64] in its specialisations
    for [String] and [UInt128] and for the variadic functions. *)
Context {Key : Type} `{Countable Key}.
(** The template arguments: the capacity of the small set and the number
    of bits of the bucket index ([16] and [12] in this header). *)
Variable small_set_size : nat.
Variable K : nat.
(** The template argument [Hash]: [TrivialHash] for the variadic functions,
    the default of the class otherwise.  It is applied when a value enters
    the register array. *)
Variable Hash : Key -> Z.
(** The "harmonic-mean bias-corrected cardinality estimator over the
    register array": floating point, taken as given. *)
Variable estimate : list Z -> Z.
(** How one value of the small set is written and read. *)
Variable writeKey : Key -> list byte.
Variable readKey : list byte -> option (Key * list byte).

(** Modelled from the spec: [HyperLogLogWithSmallSetOptimization] of
    Common/HyperLogLogWithSmallSetOptimization.h, "a tagged union - Small
    variant holding an exact small set of raw hashes, or Large variant
    holding a fixed array of register buckets".  The small set holds the
    values as they are inserted, of type [Key]. *)
Inductive t : Type :=
| Small (small : gset Key)
| Large (large : list Z).

Definition empty : t := Small ∅.

(** "derive bucket index from its low 12 bits". *)
Definition bucket (h : Z) : nat := Z.to_nat (Z.land h (Z.ones (Z.of_nat K))).

(** "register value from leading-zero-count of the remaining bits", plus
    one. *)
Definition rank (h : Z) : Z :=
  let rest := Z.shiftr h (Z.of_nat K) in
  let width := 64 - Z.of_nat K in
  (if rest =? 0 then width else width - 1 - Z.log2 rest) + 1.

(** "update the corresponding bucket register with max(current,
    leading_zero_count+1)". *)
Definition update (x : Key) (registers : list Z) : list Z :=
  let h := Hash x in
  alter (Z.max (rank h)) (bucket h) registers.

(** "materialize the Large register array by replaying every retained
    hash". *)
Definition toLarge (small : gset Key) : list Z :=
  set_fold update (replicate (2 ^ K) 0) small.

(** Modelled from the spec: the hybrid [insert], "if in Small state and hash
    is new and count would stay <= threshold, insert into the exact small
    set; if inserting would exceed threshold, materialize the Large register
    array [...] and discard the small set; if already Large, update the
    corresponding bucket register". *)
Definition insert (h : Key) (s : t) : t :=
  match s with
  | Small small =>
      if decide (h ∈ small) then s
      else if decide (size small + 1 <= small_set_size)%nat
           then Small ({[h]} ∪ small)
           else Large (update h (toLarge small))
  | Large registers => Large (update h registers)
  end.

Definition registers (s : t) : list Z :=
  match s with
  | Small small => toLarge small
  | Large registers => registers
  end.

(** Modelled from the spec: the hybrid [merge], "if either side is Large,
    the result is Large (registers combined bucket-wise by max); only when
    both sides are Small and the combined exact union stays within
    threshold does the result remain Small, else it must transition to
    Large as above". *)
Definition merge (self rhs : t) : t :=
  match self, rhs with
  | Small a, Small b =>
      if decide (size (a ∪ b) <= small_set_size)%nat
      then Small (a ∪ b)
      else Large (toLarge (a ∪ b))
  | _, _ => Large (zip_with Z.max (registers self) (registers rhs))
  end.

(** Modelled from the spec: "Small state returns exact set cardinality.
    Large state applies the [...] estimator over the register array". *)
Definition size (s : t) : Z :=
  match s with
  | Small small => Z.of_nat (size small)
  | Large registers => estimate registers
  end.

(** Modelled from the spec: "tag (Small/Large) followed by either the exact
    hash list or the full packed register array".  The tag is one byte, the
    hash list is its 8-byte count and the values, a register is one
    byte. *)
Definition write (s : t) : list byte :=
  match s with
  | Small small =>
      writeIntBinary 1 0
      ++ writeIntBinary 8 (Z.of_nat (base.size small))
      ++ flat_map writeKey (elements small)
  | Large registers =>
      writeIntBinary 1 1 ++ flat_map (writeIntBinary 1) registers
  end.

(** Modelled from the spec: the tag, then what the tag announces; a tag
    other than the two, or too few bytes, is the [CorruptedState] failure. *)
Definition read (buf : list byte) : option (t * list byte) :=
  match readIntBinary 1 buf with
  | None => None
  | Some (tag, buf) =>
      if tag =? 0 then
        match readIntBinary 8 buf with
        | None => None
        | Some (count, buf) =>
            match readMany readKey (Z.to_nat count) buf with
            | None => None
            | Some (hs, buf) => Some (Small (list_to_set hs), buf)
            end
        end
      else if tag =? 1 then
        match readMany (readIntBinary 1) (2 ^ K) buf with
        | None => None
        | Some (registers, buf) => Some (Large registers, buf)
        end
      else None
  end.

End HyperLogLogWithSmallSetOptimization.
Arguments t Key {_ _}.
End HyperLogLogWithSmallSetOptimization.

(** *** The set types of this header *)

(** [TrivialHash]: the value itself. *)
Definition TrivialHash (x : Z) : Z := x.

Module HLL := HyperLogLogWithSmallSetOptimization.

Definition HashSet_Estimator {Key : Type} `{Countable Key}
    (writeKey : Key -> list byte)
    (readKey : list byte -> option (Key * list byte))
  : Estimator (HashSet.t Key) Key :=
  {| set_empty := HashSet.empty;
     set_insert := HashSet.insert;
     set_merge := HashSet.merge;
     set_write := HashSet.write writeKey;
     set_read := HashSet.read readKey;
     set_size := HashSet.size |}.

Definition UniquesHashSet_Estimator (Hash : Z -> Z) (max_size : nat)
  : Estimator UniquesHashSet.t Z :=
  {| set_empty := UniquesHashSet.empty;
     set_insert := UniquesHashSet.insert Hash max_size;
     set_merge := UniquesHashSet.merge max_size;
     set_write := UniquesHashSet.write;
     set_read := UniquesHashSet.read;
     set_size := UniquesHashSet.size |}.

(** The hybrid estimator over the values of [Key]. *)
Definition HLL_Estimator_of {Key : Type} `{Countable Key}
    (writeKey : Key -> list byte)
    (readKey : list byte -> option (Key * list byte))
    (small_set_size K : nat) (Hash : Key -> Z) (estimate : list Z -> Z)
  : Estimator (HLL.t Key) Key :=
  {| set_empty := HLL.empty;
     set_insert := HLL.insert small_set_size K Hash;
     set_merge := HLL.merge small_set_size K Hash;
     set_write := HLL.write writeKey;
     set_read := HLL.read K readKey;
     set_size := HLL.size estimate |}.

(** The hybrid estimator over [UInt64] values, each written as 8 bytes. *)
Definition HLL_Estimator (small_set_size K : nat) (Hash : Z -> Z)
    (estimate : list Z -> Z)
  : Estimator (HLL.t Z) Z :=
  HLL_Estimator_of (writeIntBinary 8) (readIntBinary 8)
                   small_set_size K Hash estimate.

(** ** Numeric column values *)

(** The integer types [T] of [ColumnVector<T>] the functions are built for. *)
Inductive IntType : Type :=
| UInt8 | UInt16 | UInt32 | UInt64 | Int8 | Int16 | Int32 | Int64.

Definition sizeof_int (T : IntType) : nat :=
  match T with
  | UInt8 | Int8 => 1
  | UInt16 | Int16 => 2
  | UInt32 | Int32 => 4
  | UInt64 | Int64 => 8
  end.

Definition is_signed (T : IntType) : bool :=
  match T with
  | Int8 | Int16 | Int32 | Int64 => true
  | _ => false
  end.

(** The values of type [T]. *)
Definition in_range (T : IntType) (x : Z) : Prop :=
  let bits := 8 * Z.of_nat (sizeof_int T) in
  if is_signed T then - 2 ^ (bits - 1) <= x < 2 ^ (bits - 1)
  else 0 <= x < 2 ^ bits.

(** A floating-point number in its IEEE 754 fields.  [Float32] has 8 bits of
    exponent and 23 of fraction, [Float64] has 11 and 52.  Zero is exponent 0
    and fraction 0 with either sign; a NaN is the exponent of all ones with a
    fraction other than 0, its payload. *)
Record Float : Type := mkFloat { sign : bool; exponent : Z; fraction : Z }.

Definition is_Float (ebits fbits : Z) (f : Float) : Prop :=
  (0 <= exponent f < 2 ^ ebits) /\ (0 <= fraction f < 2 ^ fbits).

(** The binary interchange format: sign, exponent, fraction from the top. *)
Definition bit_pattern (ebits fbits : Z) (f : Float) : Z :=
  Z.b2z (sign f) * 2 ^ (ebits + fbits) + exponent f * 2 ^ fbits + fraction f.

(** The fields of a bit pattern. *)
Definition of_bit_pattern (ebits fbits : Z) (bits : Z) : Float :=
  {| sign := Z.odd (bits / 2 ^ (ebits + fbits));
     exponent := (bits / 2 ^ fbits) mod 2 ^ ebits;
     fraction := bits mod 2 ^ fbits |}.

(** A value of a numeric column, with its type. *)
Inductive Number : Type :=
| Int (T : IntType) (x : Z)
| Float32 (f : Float)
| Float64 (f : Float)
| Wide (x : UInt128).

Definition sizeof (x : Number) : nat :=
  match x with
  | Int T _ => sizeof_int T
  | Float32 _ => 4
  | Float64 _ => 8
  | Wide _ => 16
  end.

(** The bytes of the object in memory, little endian. *)
Definition object_representation (x : Number) : list byte :=
  match x with
  | Int T v => le_split (sizeof_int T) v
  | Float32 f => le_split 4 (bit_pattern 8 23 f)
  | Float64 f => le_split 8 (bit_pattern 11 52 f)
  | Wide u => le_split 8 (low u) ++ le_split 8 (high u)
  end.

(** [ext::bit_cast<UInt64>(x)]: the bytes of [x], as many as fit, copied over
    a zero-initialised [UInt64]. *)
Definition bit_cast_UInt64 (x : Number) : Z :=
  le_combine (firstn (Nat.min 8 (sizeof x)) (object_representation x)).

(** The implicit conversion of an integer to [UInt64]. *)
Definition to_UInt64 (x : Z) : Z := x mod 2 ^ 64.

#[global] Instance IntType_eq_dec : EqDecision IntType.
Proof. solve_decision. Defined.

#[global] Instance Float_eq_dec : EqDecision Float.
Proof. solve_decision. Defined.

#[global] Instance Number_eq_dec : EqDecision Number.
Proof. solve_decision. Defined.

#[global] Instance IntType_countable : Countable IntType.
Proof.
  refine (inj_countable'
    (fun T => match T with
              | UInt8 => 0%nat | UInt16 => 1%nat | UInt32 => 2%nat
              | UInt64 => 3%nat | Int8 => 4%nat | Int16 => 5%nat
              | Int32 => 6%nat | Int64 => 7%nat end)
    (fun n => match n with
              | 0%nat => UInt8 | 1%nat => UInt16 | 2%nat => UInt32
              | 3%nat => UInt64 | 4%nat => Int8 | 5%nat => Int16
              | 6%nat => Int32 | _ => Int64 end) _).
  intros []; reflexivity.
Defined.

#[global] Instance Float_countable : Countable Float.
Proof.
  refine (inj_countable' (fun f => (sign f, exponent f, fraction f))
                         (fun p => mkFloat (fst (fst p)) (snd (fst p))
                                           (snd p)) _).
  intros []. reflexivity.
Defined.

#[global] Instance Number_countable : Countable Number.
Proof.
  refine (inj_countable'
    (fun x => match x with
              | Int T v => inl (T, v)
              | Float32 f => inr (inl f)
              | Float64 f => inr (inr (inl f))
              | Wide u => inr (inr (inr u))
              end)
    (fun s => match s with
              | inl (T, v) => Int T v
              | inr (inl f) => Float32 f
              | inr (inr (inl f)) => Float64 f
              | inr (inr (inr u)) => Wide u
              end) _).
  intros []; reflexivity.
Defined.

(** *** Conversions of a [UInt64] by value

    [data.set.insert] takes a value of the key type of the set.  Where that
    type is not [UInt64] the hash passed to it is converted by value. *)

(** The numeric types [T] with a set keyed by [T] itself. *)
Inductive NumberType : Type :=
| TInt (T : IntType)
| TFloat32
| TFloat64.

(** To an integer type: the value modulo 2^N, in the range of the type. *)
Definition wrap (T : IntType) (h : Z) : Z :=
  let bits := 8 * Z.of_nat (sizeof_int T) in
  if is_signed T
  then (h + 2 ^ (bits - 1)) mod 2 ^ bits - 2 ^ (bits - 1)
  else h mod 2 ^ bits.

(** To a floating-point type: the nearest value of the type, ties to the
    one with an even fraction.  A [UInt64] is below 2^64, so the exponent
    stays in range. *)
Definition UInt64_to_Float (ebits fbits : Z) (n : Z) : Float :=
  if n =? 0 then {| sign := false; exponent := 0; fraction := 0 |}
  else
    let e := Z.log2 n in
    let bias := 2 ^ (ebits - 1) - 1 in
    if e <=? fbits
    then {| sign := false; exponent := e + bias;
            fraction := (n - 2 ^ e) * 2 ^ (fbits - e) |}
    else
      let shift := e - fbits in
      let q := Z.shiftr n shift in
      let r := Z.land n (Z.ones shift) in
      let half := 2 ^ (shift - 1) in
      let q := if (half <? r) || ((r =? half) && Z.odd q) then q + 1 else q in
      if q =? 2 ^ (fbits + 1)
      then {| sign := false; exponent := e + 1 + bias; fraction := 0 |}
      else {| sign := false; exponent := e + bias; fraction := q - 2 ^ fbits |}.

(** [static_cast<T>(h)] of a [UInt64] [h]. *)
Definition static_cast (T : NumberType) (h : Z) : Number :=
  match T with
  | TInt T => Int T (wrap T h)
  | TFloat32 => Float32 (UInt64_to_Float 8 23 h)
  | TFloat64 => Float64 (UInt64_to_Float 11 52 h)
  end.

Module detail.

(** [AggregateFunctionUniqTraits<T>::hash], the "hash function for uniq".
    [sipHash64] and [DefaultHash64] are the functions of those names.  The
    tests of the source come in this order: [UInt128], the two float types,
    [sizeof(T) <= sizeof(UInt64)], anything else; no integer type here is
    wider than 8 bytes, so the last branch is not taken. *)
Module AggregateFunctionUniqTraits.
Definition hash (sipHash64 : UInt128 -> Z) (DefaultHash64 : Number -> Z)
    (x : Number) : Z :=
  match x with
  | Wide u => sipHash64 u
  | Float32 _ | Float64 _ => bit_cast_UInt64 x
  | Int _ v =>
      if (sizeof x <=? 8)%nat then to_UInt64 v else DefaultHash64 x
  end.
End AggregateFunctionUniqTraits.

(** The table [masks[]] of [OneAdder::add], 16 rows of 16 control bytes. *)
Definition masks : list Z :=
  [ -1; -1; -1; -1; -1; -1; -1; -1; -1; -1; -1; -1; -1; -1; -1; -1;
     0; -1; -1; -1; -1; -1; -1; -1; -1; -1; -1; -1; -1; -1; -1; -1;
     0;  1; -1; -1; -1; -1; -1; -1; -1; -1; -1; -1; -1; -1; -1; -1;
     0;  1;  2; -1; -1; -1; -1; -1; -1; -1; -1; -1; -1; -1; -1; -1;
     0;  1;  2;  3; -1; -1; -1; -1; -1; -1; -1; -1; -1; -1; -1; -1;
     0;  1;  2;  3;  4; -1; -1; -1; -1; -1; -1; -1; -1; -1; -1; -1;
     0;  1;  2;  3;  4;  5; -1; -1; -1; -1; -1; -1; -1; -1; -1; -1;
     0;  1;  2;  3;  4;  5;  6; -1; -1; -1; -1; -1; -1; -1; -1; -1;
     0;  1;  2;  3;  4;  5;  6;  7; -1; -1; -1; -1; -1; -1; -1; -1;
     0;  1;  2;  3;  4;  5;  6;  7;  8; -1; -1; -1; -1; -1; -1; -1;
     0;  1;  2;  3;  4;  5;  6;  7;  8;  9; -1; -1; -1; -1; -1; -1;
     0;  1;  2;  3;  4;  5;  6;  7;  8;  9; 10; -1; -1; -1; -1; -1;
     0;  1;  2;  3;  4;  5;  6;  7;  8;  9; 10; 11; -1; -1; -1; -1;
     0;  1;  2;  3;  4;  5;  6;  7;  8;  9; 10; 11; 12; -1; -1; -1;
     0;  1;  2;  3;  4;  5;  6;  7;  8;  9; 10; 11; 12; 13; -1; -1;
     0;  1;  2;  3;  4;  5;  6;  7;  8;  9; 10; 11; 12; 13; 14; -1 ].

(** [_mm_load_si128(reinterpret_cast<const __m128i *>(masks) + n)]: the
    [n]-th group of 16 control bytes. *)
Definition masks_row (n : nat) : list Z := firstn 16 (skipn (16 * n) masks).

(** The "very light bijective hashing" of the short-string path, statement by
    statement. *)
Definition mix (key : UInt128) : UInt128 :=
  let l := low key in
  let h := high key in
  let l := Z.lxor l (Z.shiftr l 33) in            (* key.low ^= key.low >> 33 *)
  let l := UInt64_mul l 0xff51afd7ed558ccd in     (* key.low *= 0xff51...    *)
  let l := Z.lxor l h in                          (* key.low ^= key.high     *)
  let l := Z.lxor l (Z.shiftr l 33) in            (* key.low ^= key.low >> 33 *)
  let l := UInt64_mul l 0xc4ceb9fe1a85ec53 in     (* key.low *= 0xc4ce...    *)
  let l := Z.lxor l (Z.shiftr l 33) in            (* key.low ^= key.low >> 33 *)
  {| low := l; high := h |}.

(** The key of a string of at most 15 bytes: shuffle, store, mix. *)
Definition embedded_key (value : StringRef.t) : UInt128 :=
  mix (_mm_storeu_si128
         (_mm_shuffle_epi8 (_mm_loadu_si128 (StringRef.data value))
                           (masks_row (StringRef.size value)))).

(** [key.high |= 0x8000000000000000ULL]. *)
Definition set_flag (key : UInt128) : UInt128 :=
  {| low := low key; high := Z.lor (high key) 0x8000000000000000 |}.

(** The 128-bit key [OneAdder<String, AggregateFunctionUniqExactData<String>>]
    inserts for [value].  [ssse3] is the preprocessor condition
    [defined(__SSSE3__) && !defined(MEMORY_SANITIZER)]; [sipHash128 s] is what
    [SipHash hash; hash.update(s); hash.get128(key.low, key.high)] leaves in
    [key]. *)
Definition string_key (ssse3 : bool) (sipHash128 : list byte -> UInt128)
    (value : StringRef.t) : UInt128 :=
  if ssse3 then
    if (StringRef.size value <=? 15)%nat then embedded_key value
    else set_flag (sipHash128 (toBytes value))
  else sipHash128 (toBytes value).


(** [OneAdder<T, Data>::add], one definition for each branch the template
    compiles to. *)
Module OneAdder.
Section OneAdder.
Variable sipHash64 : UInt128 -> Z.
Variable DefaultHash64 : Number -> Z.
Variable CityHash64 : list byte -> Z.
Variable sipHash128 : list byte -> UInt128.
Variable ssse3 : bool.

(** [Data] is [AggregateFunctionUniqUniquesHashSetData] or
    [AggregateFunctionUniqHLL12Data<T>], [T] is not [String].  The hash is a
    [UInt64]; [insert] takes a value of the key type of the set, and
    [implicit_cast] is the conversion the call makes: none for a set keyed by
    [UInt64] ([UniquesHashSet], and the set of
    [AggregateFunctionUniqHLL12Data<UInt128>]), the conversion by value to
    [T] for [HyperLogLogWithSmallSetOptimization<T, 16, 12>]. *)
Definition add_hashed {Set_ value_type : Type} {E : Estimator Set_ value_type}
    (implicit_cast : Z -> value_type)
    (data : Set_) (column : Column Number) (row_num : nat) : Set_ :=
  let value := column row_num in
  set_insert
    (implicit_cast
       (AggregateFunctionUniqTraits.hash sipHash64 DefaultHash64 value))
    data.

(** [Data] is [AggregateFunctionUniqUniquesHashSetData] or
    [AggregateFunctionUniqHLL12Data<String>], [T] is [String]. *)
Definition add_hashed_String {Set_ : Type} {E : Estimator Set_ Z}
    (data : Set_) (column : Column StringRef.t) (row_num : nat) : Set_ :=
  let value := column row_num in
  set_insert (CityHash64 (toBytes value)) data.

(** [Data] is [AggregateFunctionUniqExactData<T>], [T] is not [String]. *)
Definition add_exact {Set_ : Type} {E : Estimator Set_ Number}
    (data : Set_) (column : Column Number) (row_num : nat) : Set_ :=
  set_insert (column row_num) data.

(** [Data] is [AggregateFunctionUniqExactData<String>]. *)
Definition add_exact_String {Set_ : Type} {E : Estimator Set_ UInt128}
    (data : Set_) (column : Column StringRef.t) (row_num : nat) : Set_ :=
  let value := column row_num in
  let key := string_key ssse3 sipHash128 value in
  set_insert key data.

End OneAdder.
End OneAdder.

End detail.

Import detail.

(** ** [AggregateFunctionUniq<T, Data>] *)

Module AggregateFunctionUniq.
Section AggregateFunctionUniq.
Context {T Set_ value_type : Type} {E : Estimator Set_ value_type}.
(** [detail::OneAdder<T, Data>::add]. *)
Variable OneAdder_add : Set_ -> Column T -> nat -> Set_.

(** The state of a new group. *)
Definition create : Set_ := set_empty.

(** [add]: the first of [columns] is the argument.  Without a column the
    state is left as it is. *)
Definition add (place : Set_) (columns : list (Column T)) (row_num : nat)
  : Set_ :=
  match columns with
  | column :: _ => OneAdder_add place column row_num
  | [] => place
  end.

Definition merge (place rhs : Set_) : Set_ := set_merge place rhs.

Definition serialize (place : Set_) (buf : list byte) : list byte :=
  buf ++ set_write place.

Definition deserialize (buf : list byte) : option (Set_ * list byte) :=
  set_read buf.

(** [insertResultInto]: the size of the set is appended to the result
    column. *)
Definition insertResultInto (place : Set_) (to : list Z) : list Z :=
  to ++ [set_size place].

(** The rows [0 .. batch_size) added in turn, as the aggregator does. *)
Definition addBatchSinglePlace (batch_size : nat) (place : Set_)
    (columns : list (Column T)) : Set_ :=
  fold_left (fun place row_num => add place columns row_num)
            (seq 0 batch_size) place.

End AggregateFunctionUniq.
End AggregateFunctionUniq.

(** ** [AggregateFunctionUniqVariadic<Data, is_exact, argument_is_tuple>] *)

#[warnings="-register-all"]
Inductive DataType : Type :=
  | DataTypeNumber (T : IntType)
  | DataTypeString
  | DataTypeTuple (elems : list DataType).

(** What a constructor call ends in. *)
Inductive Constructed (A : Type) : Type :=
  | Ok (object : A)
  | BadCast          (* the exception of [typeid_cast] to a reference *)
  | InvalidArgument  (* the error the specification asks for *)
  | Undefined.       (* [arguments[0]] of an empty vector *)
Arguments Ok {A} object.
Arguments BadCast {A}.
Arguments InvalidArgument {A}.
Arguments Undefined {A}.

Module AggregateFunctionUniqVariadic.
Section AggregateFunctionUniqVariadic.
Context {Column_ Set_ value_type : Type} {E : Estimator Set_ value_type}.
Variables is_exact argument_is_tuple : bool.
(** [UniqVariadicHash<is_exact, argument_is_tuple>::apply]. *)
Variable UniqVariadicHash_apply :
  bool -> bool -> nat -> list Column_ -> nat -> value_type.

(** The object: its one field. *)
Record t : Type := mk { num_args : nat }.

(** The constructor. *)
Definition new (arguments : list DataType) : Constructed t :=
  if argument_is_tuple then
    match arguments with
    | [] => Undefined
    | DataTypeTuple elems :: _ => Ok {| num_args := length elems |}
    | _ :: _ => BadCast
    end
  else Ok {| num_args := length arguments |}.

Definition add (this : t) (place : Set_) (columns : list Column_)
    (row_num : nat) : Set_ :=
  set_insert
    (UniqVariadicHash_apply is_exact argument_is_tuple
                            (num_args this) columns row_num)
    place.

Definition merge (place rhs : Set_) : Set_ := set_merge place rhs.

Definition serialize (place : Set_) (buf : list byte) : list byte :=
  buf ++ set_write place.

Definition deserialize (buf : list byte) : option (Set_ * list byte) :=
  set_read buf.

Definition insertResultInto (place : Set_) (to : list Z) : list Z :=
  to ++ [set_size place].

End AggregateFunctionUniqVariadic.
End AggregateFunctionUniqVariadic.

(** ** Auxiliary notions used to state the properties *)

(** "memcpy of value up to its size and memset to zero of the rest bytes":
    what the short-string path describes in words, byte copy and zero pad. *)
Definition zero_pad (s : list byte) : list byte :=
  s ++ repeat Byte.x00 (16 - length s).

(** [x ^= x >> 33]. *)
Definition xorshift33 (x : Z) : Z := Z.lxor x (Z.shiftr x 33).

(** The inverse of [mix]: the steps undone last to first, with the inverses
    of the two odd multipliers modulo 2^64. *)
Definition unmix (key : UInt128) : UInt128 :=
  let l := low key in
  let h := high key in
  let l := xorshift33 l in
  let l := UInt64_mul l 0x9cb4b2f8129337db in
  let l := xorshift33 l in
  let l := Z.lxor l h in
  let l := UInt64_mul l 0x4f74430c22a54005 in
  let l := xorshift33 l in
  {| low := l; high := h |}.

(** The states of the exact estimator that inserts reach: the count is the
    number of keys held. *)
Definition HashSet_wf {Key : Type} `{Countable Key} (s : HashSet.t Key)
  : Prop :=
  HashSet.m_size s = Z.of_nat (size (HashSet.keys s)).

(** A string column holding [rows]: the strings are stored one after the
    other, each followed by a zero byte, and the memory ends in 15 bytes of
    padding.  [getDataAt(row_num)] points at the string of the row. *)
Definition ColumnString (rows : list (list byte)) : Column StringRef.t :=
  fun row_num =>
    refOf (nth row_num rows [])
          (Byte.x00 :: flat_map (fun s => s ++ [Byte.x00])
                                (skipn (S row_num) rows)
           ++ repeat Byte.x00 15).

(** The set type of [AggregateFunctionUniqExactData<String>]. *)
Definition ExactStringSet : Estimator (HashSet.t UInt128) UInt128 :=
  HashSet_Estimator writeUInt128 readUInt128.

(** uniqExact over a string column: the state after the rows [rows]. *)
Definition uniqExact_String (ssse3 : bool) (sipHash128 : list byte -> UInt128)
    (rows : list (list byte)) : HashSet.t UInt128 :=
  AggregateFunctionUniq.addBatchSinglePlace
    (OneAdder.add_exact_String (E := ExactStringSet) sipHash128 ssse3)
    (length rows)
    (AggregateFunctionUniq.create (E := ExactStringSet))
    [ColumnString rows].

(** The result column after one call of [insertResultInto]. *)
Definition finalize {Set_ value_type : Type} (E : Estimator Set_ value_type)
    (place : Set_) : list Z :=
  AggregateFunctionUniq.insertResultInto (E := E) place [].

(** uniqExact over a numeric column: the state after the rows [rows]. *)
Definition uniqExact_Number (E : Estimator (HashSet.t Number) Number)
    (rows : list Number) : HashSet.t Number :=
  AggregateFunctionUniq.addBatchSinglePlace
    (OneAdder.add_exact (E := E))
    (length rows)
    (AggregateFunctionUniq.create (E := E))
    [columnOf (Int UInt8 0) rows].

(** The values a column of the type can hold. *)
Definition well_typed (x : Number) : Prop :=
  match x with
  | Int T v => in_range T v
  | Float32 f => is_Float 8 23 f
  | Float64 f => is_Float 11 52 f
  | Wide u => is_UInt64 (low u) /\ is_UInt64 (high u)
  end.

(** The 64-bit two's complement image of an integer: the value itself when it
    is not negative, the sign-extended bits otherwise. *)
Definition widen (v : Z) : Z := if v <? 0 then v + 2 ^ 64 else v.

(** The zeros and the NaNs. *)
Definition pos_zero : Float :=
  {| sign := false; exponent := 0; fraction := 0 |}.
Definition neg_zero : Float :=
  {| sign := true; exponent := 0; fraction := 0 |}.
Definition NaN32 (s : bool) (payload : Z) : Float :=
  {| sign := s; exponent := 255; fraction := payload |}.
Definition NaN64 (s : bool) (payload : Z) : Float :=
  {| sign := s; exponent := 2047; fraction := payload |}.

(** *** Notions for the sampling estimator *)

(** The states of the sampling estimator that inserts and merges reach. *)
Definition UniquesHashSet_wf (max_size : nat) (s : UniquesHashSet.t) : Prop :=
  (UniquesHashSet.skip_degree s <= 64)%nat /\
  (forall h, h ∈ UniquesHashSet.table s ->
             is_UInt64 h /\
             UniquesHashSet.good (UniquesHashSet.skip_degree s) h) /\
  (size (UniquesHashSet.table s) <= max_size)%nat.

(** The hashes of [U] that pass the mask of [degree] fit the bound. *)
Definition fits (max_size degree : nat) (U : gset Z) : Prop :=
  (size (filter (UniquesHashSet.good degree) U) <= max_size)%nat.

(** [n] is the first degree from [degree] on at which [U] fits. *)
Definition first_fit (max_size degree : nat) (U : gset Z) (n : nat) : Prop :=
  (degree <= n)%nat /\ fits max_size n U /\
  forall d, (degree <= d < n)%nat -> ~ fits max_size d U.

(** [s] is what the hashes [U], offered at [degree], settle to. *)
Definition settled (max_size degree : nat) (U : gset Z)
    (s : UniquesHashSet.t) : Prop :=
  first_fit max_size degree U (UniquesHashSet.skip_degree s) /\
  UniquesHashSet.table s
  = filter (UniquesHashSet.good (UniquesHashSet.skip_degree s)) U.

(** The degree [shrink] stops at. *)
Fixpoint settle (max_size fuel degree : nat) (U : gset Z) : nat :=
  match fuel with
  | O => degree
  | S fuel =>
      if decide (size (filter (UniquesHashSet.good degree) U) <= max_size)%nat
      then degree
      else settle max_size fuel (S degree) U
  end.

(** *** Notions for the hybrid estimator *)

(** Register [i] after the hashes [l] have been replayed over the value
    [r]. *)
Definition replayed {Key : Type} (K : nat) (Hash : Key -> Z) (i : nat)
    (l : list Key) (r : Z) : Z :=
  foldr (fun x acc => if decide (HLL.bucket K (Hash x) = i)
                      then Z.max (HLL.rank K (Hash x)) acc else acc) r l.

(** *** States built from inputs *)

(** The state an estimator reaches from the empty one by inserting the
    values [xs] in turn. *)
Definition stateOf {Set_ value_type : Type} (E : Estimator Set_ value_type)
    (xs : list value_type) : Set_ :=
  fold_left (fun s x => set_insert x s) xs set_empty.

(** *** States that can be written *)

(** A state of the exact estimator whose count fits its 8 bytes and whose
    keys the key format represents. *)
Definition HashSet_serializable {Key : Type} `{Countable Key}
    (writeKey : Key -> list byte)
    (readKey : list byte -> option (Key * list byte))
    (s : HashSet.t Key) : Prop :=
  HashSet_wf s /\ is_UInt64 (HashSet.m_size s) /\
  forall k, k ∈ HashSet.keys s ->
            forall rest, readKey (writeKey k ++ rest) = Some (k, rest).

(** The 128-bit keys with 64-bit halves. *)
Definition is_UInt128 (key : UInt128) : Prop :=
  is_UInt64 (low key) /\ is_UInt64 (high key).

(** A state of the hybrid estimator: a small set of 64-bit hashes within the
    capacity, or the [2^K] registers, each a byte. *)
Definition HLL_wf (small_set_size K : nat) (s : HLL.t Z) : Prop :=
  match s with
  | HLL.Small small =>
      (forall h, h ∈ small -> is_UInt64 h) /\
      (size small <= small_set_size)%nat
  | HLL.Large registers =>
      length registers = (2 ^ K)%nat /\
      Forall (fun r => 0 <= r < 256) registers
  end.

(** *** The approximate functions over a numeric column *)

(** The set of [AggregateFunctionUniqUniquesHashSetData]:
    [UniquesHashSet<DefaultHash<UInt64>>]. *)
Definition UniqSet (DefaultHash : Z -> Z) (max_size : nat)
  : Estimator UniquesHashSet.t Z :=
  UniquesHashSet_Estimator DefaultHash max_size.

(** The set of [AggregateFunctionUniqHLL12Data<String>], of
    [AggregateFunctionUniqHLL12Data<UInt128>] and, with [TrivialHash], of
    [AggregateFunctionUniqHLL12DataForVariadic]:
    [HyperLogLogWithSmallSetOptimization<UInt64, 16, 12>]. *)
Definition HLL12Set (Hash : Z -> Z) (estimate : list Z -> Z)
  : Estimator (HLL.t Z) Z :=
  HLL_Estimator 16 12 Hash estimate.

(** The set of [AggregateFunctionUniqHLL12Data<T>] for a numeric [T] other
    than [UInt128]: [HyperLogLogWithSmallSetOptimization<T, 16, 12>], keyed
    by the values of [T]. *)
Definition HLL12SetOf (writeKey : Number -> list byte)
    (readKey : list byte -> option (Number * list byte))
    (Hash : Number -> Z) (estimate : list Z -> Z)
  : Estimator (HLL.t Number) Number :=
  HLL_Estimator_of writeKey readKey 16 12 Hash estimate.

(** Over a numeric column, a function whose set is keyed by [UInt64]: uniq
    for every [T], uniqHLL12 for [UInt128].  The hash is inserted as it is.
    The state after the rows [rows]. *)
Definition uniq_Number {Set_ : Type} (E : Estimator Set_ Z)
    (sipHash64 : UInt128 -> Z) (DefaultHash64 : Number -> Z)
    (rows : list Number) : Set_ :=
  AggregateFunctionUniq.addBatchSinglePlace
    (OneAdder.add_hashed sipHash64 DefaultHash64 (E := E) (fun h => h))
    (length rows)
    (AggregateFunctionUniq.create (E := E))
    [columnOf (Int UInt8 0) rows].

(** uniqHLL12 over a column of the numeric type [T], whose set is keyed by
    [T]: the hash is converted to [T] when it is inserted.  The state after
    the rows [rows]. *)
Definition uniqHLL12_Number {Set_ : Type} (E : Estimator Set_ Number)
    (T : NumberType)
    (sipHash64 : UInt128 -> Z) (DefaultHash64 : Number -> Z)
    (rows : list Number) : Set_ :=
  AggregateFunctionUniq.addBatchSinglePlace
    (OneAdder.add_hashed sipHash64 DefaultHash64 (E := E) (static_cast T))
    (length rows)
    (AggregateFunctionUniq.create (E := E))
    [columnOf (Int UInt8 0) rows].

(** The key uniqHLL12 holds for a value of a column of type [T]. *)
Definition HLL12_key (T : NumberType)
    (sipHash64 : UInt128 -> Z) (DefaultHash64 : Number -> Z) (x : Number)
  : Number :=
  static_cast T (AggregateFunctionUniqTraits.hash sipHash64 DefaultHash64 x).

(** *** Notions for the further properties *)

(** The bytes of a key before the mix, cut to the length [n]: the string an
    embedded key holds. *)
Definition decode_embedded (n : nat) (key : UInt128) : list byte :=
  let plain := unmix key in
  firstn n (le_split 8 (low plain) ++ le_split 8 (high plain)).

(** Two values of one numeric type other than [UInt128]. *)
Definition same_type (x y : Number) : Prop :=
  match x, y with
  | Int T _, Int T' _ => T = T'
  | Float32 _, Float32 _ => True
  | Float64 _, Float64 _ => True
  | _, _ => False
  end.

#[global] Instance byte_eq_dec : EqDecision byte :=
  Stdlib.Strings.Byte.byte_eq_dec.

(** The key of the string [s], wherever it is stored. *)
Definition exact_key (ssse3 : bool) (sipHash128 : list byte -> UInt128)
    (s : list byte) : UInt128 :=
  string_key ssse3 sipHash128 (refOf s []).

(** A string that does not end in a zero byte. *)
Definition no_trailing_zero (s : list byte) : Prop :=
  List.last s Byte.x01 <> Byte.x00.

(** uniq or uniqHLL12 over a string column: the state after the rows
    [rows]. *)
Definition uniq_String {Set_ : Type} (E : Estimator Set_ Z)
    (CityHash64 : list byte -> Z) (rows : list (list byte)) : Set_ :=
  AggregateFunctionUniq.addBatchSinglePlace
    (OneAdder.add_hashed_String CityHash64 (E := E))
    (length rows)
    (AggregateFunctionUniq.create (E := E))
    [ColumnString rows].

(** The state of the hybrid estimator that holds the values [S]: the small
    set while it fits, the registers otherwise. *)
Definition HLL_of_set {Key : Type} `{Countable Key}
    (small_set_size K : nat) (Hash : Key -> Z) (S : gset Key) : HLL.t Key :=
  if decide (size S <= small_set_size)%nat
  then HLL.Small S
  else HLL.Large (HLL.toLarge K Hash S).

(** A variadic function over the rows [0 .. batch_size) of [columns]: the
    state after the rows have been added in turn to a new state. *)
Definition uniqVariadic {Column_ Set_ value_type : Type}
    (E : Estimator Set_ value_type) (is_exact argument_is_tuple : bool)
    (UniqVariadicHash_apply :
       bool -> bool -> nat -> list Column_ -> nat -> value_type)
    (this : AggregateFunctionUniqVariadic.t) (columns : list Column_)
    (batch_size : nat) : Set_ :=
  fold_left
    (fun place row_num =>
       AggregateFunctionUniqVariadic.add (E := E) is_exact argument_is_tuple
         UniqVariadicHash_apply this place columns row_num)
    (seq 0 batch_size) set_empty.

(** * Properties *)

(** ** The short-string path: shuffle = copy and zero-pad *)

Example embedded_key_empty :
  embedded_key (refOf [] []) = {| low := 0; high := 0 |}.
Proof. vm_compute. reflexivity. Qed.

Lemma shuffle_zero_pad (s behind : list byte) :
  (length s <= 15)%nat ->
  _mm_shuffle_epi8 (_mm_loadu_si128 (s ++ behind)) (masks_row (length s))
  = zero_pad s.
Proof.
  intros Hlen.
  do 16 (destruct s as [|? s]; [reflexivity|]).
  simpl in Hlen. lia.
Qed.

Lemma length_zero_pad (s : list byte) :
  (length s <= 16)%nat -> length (zero_pad s) = 16%nat.
Proof.
  intros H. unfold zero_pad. rewrite length_app, repeat_length. lia.
Qed.

(** ** The mixing step is a bijection of the 64-bit words *)

Lemma is_UInt64_testbit x n : is_UInt64 x -> 64 <= n -> Z.testbit x n = false.
Proof.
  intros [H0 H1] Hn.
  destruct (Z.eq_dec x 0) as [->|Hx]; [apply Z.bits_0|].
  apply Z.bits_above_log2; [lia|].
  assert (Z.log2 x < 64) by (apply Z.log2_lt_pow2; lia). lia.
Qed.

Lemma testbit_is_UInt64 x :
  0 <= x -> (forall n, 64 <= n -> Z.testbit x n = false) -> is_UInt64 x.
Proof.
  intros H0 Hb. split; [assumption|].
  destruct (Z.eq_dec x 0) as [->|Hx]; [lia|].
  apply Z.log2_lt_pow2; [lia|].
  destruct (Z_lt_le_dec (Z.log2 x) 64) as [|Hge]; [assumption|].
  pose proof (Z.bit_log2 x ltac:(lia)) as Hl. rewrite Hb in Hl by assumption.
  discriminate.
Qed.

Lemma xorshift33_range x : is_UInt64 x -> is_UInt64 (xorshift33 x).
Proof.
  intros Hx. unfold xorshift33. apply testbit_is_UInt64.
  - apply Z.lxor_nonneg. destruct Hx.
    split; intros; [apply Z.shiftr_nonneg|]; lia.
  - intros n Hn. rewrite Z.lxor_spec, Z.shiftr_spec by lia.
    rewrite !(is_UInt64_testbit x) by (assumption || lia). reflexivity.
Qed.

Lemma xorshift33_involutive x : is_UInt64 x -> xorshift33 (xorshift33 x) = x.
Proof.
  intros Hx. unfold xorshift33. apply Z.bits_inj'. intros n Hn.
  rewrite !Z.lxor_spec, !Z.shiftr_spec, !Z.lxor_spec, !Z.shiftr_spec by lia.
  rewrite (is_UInt64_testbit x (n + 33 + 33)) by (assumption || lia).
  destruct (Z.testbit x n), (Z.testbit x (n + 33)); reflexivity.
Qed.

Lemma UInt64_mul_range x y : is_UInt64 (UInt64_mul x y).
Proof. unfold UInt64_mul, is_UInt64. apply Z.mod_pos_bound. lia. Qed.

Lemma UInt64_mul_inverse x c c' :
  is_UInt64 x -> UInt64_mul c c' = 1 -> UInt64_mul (UInt64_mul x c) c' = x.
Proof.
  unfold UInt64_mul, is_UInt64. intros Hx Hc.
  rewrite Z.mul_mod_idemp_l by lia.
  rewrite <- Z.mul_assoc, <- Z.mul_mod_idemp_r, Hc by lia.
  rewrite Z.mul_1_r. apply Z.mod_small. assumption.
Qed.

Lemma lxor_range x y : is_UInt64 x -> is_UInt64 y -> is_UInt64 (Z.lxor x y).
Proof.
  intros Hx Hy. apply testbit_is_UInt64.
  - apply Z.lxor_nonneg. destruct Hx, Hy. lia.
  - intros n Hn. rewrite Z.lxor_spec, !is_UInt64_testbit by assumption.
    reflexivity.
Qed.

Lemma mix_unfold key :
  mix key =
  {| low := xorshift33 (UInt64_mul (xorshift33 (Z.lxor
              (UInt64_mul (xorshift33 (low key)) 0xff51afd7ed558ccd)
              (high key))) 0xc4ceb9fe1a85ec53);
     high := high key |}.
Proof. reflexivity. Qed.

Lemma unmix_mix key :
  is_UInt64 (low key) -> is_UInt64 (high key) -> unmix (mix key) = key.
Proof.
  destruct key as [l h]. rewrite mix_unfold. unfold unmix. cbn [low high].
  intros Hl Hh.
  rewrite xorshift33_involutive by apply UInt64_mul_range.
  rewrite UInt64_mul_inverse;
    [| apply xorshift33_range, lxor_range; [apply UInt64_mul_range | assumption]
     | vm_compute; reflexivity].
  rewrite xorshift33_involutive
    by (apply lxor_range; [apply UInt64_mul_range | assumption]).
  rewrite Z.lxor_assoc, Z.lxor_nilpotent, Z.lxor_0_r.
  rewrite UInt64_mul_inverse;
    [| apply xorshift33_range; assumption | vm_compute; reflexivity].
  rewrite xorshift33_involutive by assumption.
  reflexivity.
Qed.

Lemma mix_injective k1 k2 :
  is_UInt64 (low k1) -> is_UInt64 (high k1) ->
  is_UInt64 (low k2) -> is_UInt64 (high k2) ->
  mix k1 = mix k2 -> k1 = k2.
Proof.
  intros ? ? ? ? H. apply (f_equal unmix) in H.
  rewrite !unmix_mix in H; assumption.
Qed.

(** ** Keys of short strings *)

Lemma toBytes_refOf s behind : toBytes (refOf s behind) = s.
Proof.
  unfold toBytes, refOf. cbn [StringRef.data StringRef.size].
  apply take_app_length.
Qed.

Lemma embedded_key_zero_pad (s behind : list byte) :
  (length s <= 15)%nat ->
  embedded_key (refOf s behind) = mix (_mm_storeu_si128 (zero_pad s)).
Proof.
  intros H. unfold embedded_key, refOf. cbn [StringRef.data StringRef.size].
  rewrite shuffle_zero_pad by assumption. reflexivity.
Qed.

Lemma string_key_short sipHash128 (s behind : list byte) :
  (length s <= 15)%nat ->
  string_key true sipHash128 (refOf s behind)
  = mix (_mm_storeu_si128 (zero_pad s)).
Proof.
  intros H. unfold string_key.
  replace (StringRef.size (refOf s behind) <=? 15)%nat with true
    by (symmetry; apply Nat.leb_le; exact H).
  apply embedded_key_zero_pad. exact H.
Qed.

Lemma string_key_long sipHash128 (s behind : list byte) :
  (15 < length s)%nat ->
  string_key true sipHash128 (refOf s behind) = set_flag (sipHash128 s).
Proof.
  intros H. unfold string_key.
  replace (StringRef.size (refOf s behind) <=? 15)%nat with false
    by (symmetry; apply Nat.leb_gt; exact H).
  rewrite toBytes_refOf. reflexivity.
Qed.

Lemma string_key_portable sipHash128 (s behind : list byte) :
  string_key false sipHash128 (refOf s behind) = sipHash128 s.
Proof. unfold string_key. rewrite toBytes_refOf. reflexivity. Qed.

Lemma le_combine_UInt64 (v : list byte) :
  length v = 8%nat -> is_UInt64 (le_combine v).
Proof.
  intros H. pose proof (le_combine_bound v) as Hb. rewrite H in Hb. exact Hb.
Qed.

Lemma storeu_range (v : list byte) :
  length v = 16%nat ->
  is_UInt64 (low (_mm_storeu_si128 v)) /\ is_UInt64 (high (_mm_storeu_si128 v)).
Proof.
  intros H. unfold _mm_storeu_si128. cbn [low high].
  split; apply le_combine_UInt64.
  - rewrite length_take. lia.
  - rewrite length_drop. lia.
Qed.

Lemma storeu_injective (v1 v2 : list byte) :
  length v1 = 16%nat -> length v2 = 16%nat ->
  _mm_storeu_si128 v1 = _mm_storeu_si128 v2 -> v1 = v2.
Proof.
  intros H1 H2 H. unfold _mm_storeu_si128 in H. injection H as Hl Hh.
  apply le_combine_inj in Hl; [|rewrite !length_take; lia].
  apply le_combine_inj in Hh; [|rewrite !length_drop; lia].
  rewrite <- (take_drop 8 v1), <- (take_drop 8 v2). congruence.
Qed.

(** Two short strings get the same key exactly when their zero-padded
    16-byte images coincide. *)
Lemma short_key_eq_iff sipHash128 (s1 s2 b1 b2 : list byte) :
  (length s1 <= 15)%nat -> (length s2 <= 15)%nat ->
  string_key true sipHash128 (refOf s1 b1)
  = string_key true sipHash128 (refOf s2 b2)
  <-> zero_pad s1 = zero_pad s2.
Proof.
  intros H1 H2. rewrite !string_key_short by assumption.
  assert (L1 : length (zero_pad s1) = 16%nat) by (apply length_zero_pad; lia).
  assert (L2 : length (zero_pad s2) = 16%nat) by (apply length_zero_pad; lia).
  split; [|intros ->; reflexivity].
  intros H. apply storeu_injective; try assumption.
  destruct (storeu_range _ L1), (storeu_range _ L2).
  apply mix_injective; assumption.
Qed.

(** The key does not depend on what is stored behind the string. *)
Lemma short_key_behind sipHash128 ssse3 (s b1 b2 : list byte) :
  string_key ssse3 sipHash128 (refOf s b1)
  = string_key ssse3 sipHash128 (refOf s b2).
Proof.
  destruct ssse3; [|rewrite !string_key_portable; reflexivity].
  destruct (le_lt_dec (length s) 15).
  - rewrite !string_key_short by assumption. reflexivity.
  - rewrite !string_key_long by assumption. reflexivity.
Qed.

(** Strings of one length: the short-string key is injective. *)
Lemma short_key_injective_same_length sipHash128 (s1 s2 b1 b2 : list byte) :
  (length s1 <= 15)%nat -> length s1 = length s2 ->
  string_key true sipHash128 (refOf s1 b1)
  = string_key true sipHash128 (refOf s2 b2) ->
  s1 = s2.
Proof.
  intros H1 Hlen H. apply short_key_eq_iff in H; [|lia..].
  unfold zero_pad in H. apply app_inj_1 in H; [tauto | exact Hlen].
Qed.

(** ** The SipHash model against the published SipHash-2-4 vectors *)

Example SipHash_vector_empty :
  SipHash.get64 (SipHash.update
    (SipHash.init 0x0706050403020100 0x0f0e0d0c0b0a0908) [])
  = 0x726fdb47dd0e0e31.
Proof. vm_compute. reflexivity. Qed.

Example SipHash_vector_15_bytes :
  SipHash.get64 (SipHash.update
    (SipHash.init 0x0706050403020100 0x0f0e0d0c0b0a0908)
    (map (fun i => byte.of_Z (Z.of_nat i)) (seq 0 15)))
  = 0xa129ca6149be45e5.
Proof. vm_compute. reflexivity. Qed.

(** ** C1, C2, C3: the string key of the exact path *)

(** A string and the same string followed by a zero byte get the same key. *)
Lemma short_key_trailing_zero sipHash128 (s b1 b2 : list byte) :
  (length s < 15)%nat ->
  string_key true sipHash128 (refOf s b1)
  = string_key true sipHash128 (refOf (s ++ [Byte.x00]) b2).
Proof.
  intros H. apply short_key_eq_iff; [lia | rewrite length_app; simpl; lia |].
  unfold zero_pad. rewrite length_app, <- app_assoc. f_equal.
  cbn [length]. replace (16 - length s)%nat with (S (16 - (length s + 1)))
    by lia. reflexivity.
Qed.

(** C1 (failing input): the one-byte string "a" and the two-byte string "a\0"
    are distinct strings of at most 15 bytes, and the short-string path gives
    them one and the same 128-bit key, whatever is stored behind them. *)
Theorem C1_trailing_zero_collision :
  forall sipHash128 b1 b2,
    [Byte.x61] <> [Byte.x61; Byte.x00] /\
    string_key true sipHash128 (refOf [Byte.x61] b1)
    = string_key true sipHash128 (refOf [Byte.x61; Byte.x00] b2).
Proof.
  intros h b1 b2. split; [discriminate|].
  apply (short_key_trailing_zero h [Byte.x61]). simpl. lia.
Qed.

Lemma zero_pad_snoc (s : list byte) :
  (length s <= 15)%nat ->
  zero_pad s = (s ++ repeat Byte.x00 (15 - length s)) ++ [Byte.x00].
Proof.
  intros H. unfold zero_pad. rewrite <- app_assoc. f_equal.
  replace (16 - length s)%nat with (15 - length s + 1)%nat by lia.
  apply repeat_app.
Qed.

(** The last byte of the buffer of a short string is zero, so the high half
    of its key stays below 2^56. *)
Lemma short_key_high_bound sipHash128 (s behind : list byte) :
  (length s <= 15)%nat ->
  0 <= high (string_key true sipHash128 (refOf s behind)) < 2 ^ 56.
Proof.
  intros H. rewrite string_key_short by assumption.
  rewrite mix_unfold. cbn [high]. unfold _mm_storeu_si128. cbn [high].
  rewrite zero_pad_snoc by assumption.
  rewrite drop_app_le by (rewrite length_app, repeat_length; lia).
  rewrite le_combine_snoc_0.
  pose proof (le_combine_bound
                (drop 8 (s ++ repeat Byte.x00 (15 - length s)))) as Hb.
  rewrite length_drop, length_app, repeat_length in Hb.
  replace (8 * Z.of_nat (length s + (15 - length s) - 8)) with 56 in Hb by lia.
  exact Hb.
Qed.

Lemma testbit_63_small x : 0 <= x < 2 ^ 63 -> Z.testbit x 63 = false.
Proof.
  intros [H0 H1].
  destruct (Z.eq_dec x 0) as [->|Hx]; [apply Z.bits_0|].
  apply Z.bits_above_log2; [lia|].
  apply Z.log2_lt_pow2; lia.
Qed.

Lemma set_flag_testbit key : Z.testbit (high (set_flag key)) 63 = true.
Proof.
  unfold set_flag. cbn [high]. rewrite Z.lor_spec.
  replace (Z.testbit 0x8000000000000000 63) with true by reflexivity.
  apply orb_true_r.
Qed.

(** C3 (counterexample): in the build without the short-string path the
    tag bit does not tell the two populations apart.  With SipHash, the key
    of the one-byte string "d" has bit 63 of its high half set, and the key
    of the string of sixteen "a" has it clear. *)
Lemma C3_counterexample :
  let key s := string_key false SipHash.sipHash128 (refOf s []) in
  Z.testbit (high (key [Byte.x64])) 63 = true /\
  Z.testbit (high (key (repeat Byte.x61 16))) 63 = false.
Proof. vm_compute. split; reflexivity. Qed.

(** C3 (amended): in the build with the short-string path, a string of at
    most 15 bytes and a string of more than 15 bytes never get the same key:
    bit 63 of the high half is 0 in the key of the first and 1 in the key of
    the second, whatever the 128-bit hash returns.  In the build without it
    the key of either string is its 128-bit hash, unchanged. *)
Theorem C3_tag_separation :
  forall sipHash128 (s1 s2 b1 b2 : list byte),
    (length s1 <= 15)%nat -> (15 < length s2)%nat ->
    (Z.testbit (high (string_key true sipHash128 (refOf s1 b1))) 63 = false /\
     Z.testbit (high (string_key true sipHash128 (refOf s2 b2))) 63 = true /\
     string_key true sipHash128 (refOf s1 b1)
     <> string_key true sipHash128 (refOf s2 b2)) /\
    (string_key false sipHash128 (refOf s1 b1) = sipHash128 s1 /\
     string_key false sipHash128 (refOf s2 b2) = sipHash128 s2).
Proof.
  intros h s1 s2 b1 b2 H1 H2.
  assert (T1 : Z.testbit (high (string_key true h (refOf s1 b1))) 63 = false).
  { apply testbit_63_small.
    pose proof (short_key_high_bound h s1 b1 H1). lia. }
  assert (T2 : Z.testbit (high (string_key true h (refOf s2 b2))) 63 = true).
  { rewrite string_key_long by assumption. apply set_flag_testbit. }
  split.
  - repeat split; try assumption.
    intros E. rewrite E in T1. congruence.
  - split; apply string_key_portable.
Qed.

Lemma C3_tag_separation_witness :
  let s1 := [Byte.x61] in
  let s2 := repeat Byte.x62 16 in
  let key s := string_key true SipHash.sipHash128 (refOf s []) in
  Z.testbit (high (key s1)) 63 = false /\
  Z.testbit (high (key s2)) 63 = true /\
  key s1 <> key s2.
Proof.
  apply (proj1 (C3_tag_separation SipHash.sipHash128
                  [Byte.x61] (repeat Byte.x62 16) [] []
                  ltac:(simpl; lia) ltac:(simpl; lia))).
Defined.

(** C2 (counterexample): on the one-byte string "a" the path without SSSE3
    returns the SipHash value of the string and the path with SSSE3 returns
    the mixed copy of its bytes; the two keys differ. *)
Lemma C2_counterexample :
  string_key false SipHash.sipHash128 (refOf [Byte.x61] [])
  <> string_key true SipHash.sipHash128 (refOf [Byte.x61] []).
Proof. vm_compute. intros H. discriminate H. Qed.

(** C2 (amended): the path without SSSE3 returns the 128-bit hash of the
    bytes for every string and sets no flag.  The path with SSSE3 returns,
    for a string of at most 15 bytes, the mix of the byte copy zero-padded to
    16 bytes (the shuffle computes exactly that), and for a longer string the
    key of the other path with bit 63 of the high half set. *)
Theorem C2_portable_path :
  forall sipHash128 (s behind : list byte),
    string_key false sipHash128 (refOf s behind) = sipHash128 s /\
    string_key true sipHash128 (refOf s behind)
    = if (length s <=? 15)%nat
      then mix (_mm_storeu_si128 (zero_pad s))
      else set_flag (string_key false sipHash128 (refOf s behind)).
Proof.
  intros h s b. rewrite string_key_portable. split; [reflexivity|].
  destruct (length s <=? 15)%nat eqn:E.
  - apply string_key_short. apply Nat.leb_le. exact E.
  - apply string_key_long. apply Nat.leb_gt. exact E.
Qed.

(** ** The exact estimator *)

Section HashSet_facts.
Context {Key : Type} `{Countable Key}.
Implicit Types (s self rhs : HashSet.t Key) (x : Key).

Lemma HashSet_wf_empty : HashSet_wf (HashSet.empty (Key := Key)).
Proof. unfold HashSet_wf. cbn. rewrite size_empty. reflexivity. Qed.

Lemma HashSet_keys_insert x s :
  HashSet.keys (HashSet.insert x s) = {[x]} ∪ HashSet.keys s.
Proof.
  unfold HashSet.insert, HashSet.has. case_bool_decide; cbn; set_solver.
Qed.

Lemma HashSet_wf_insert x s : HashSet_wf s -> HashSet_wf (HashSet.insert x s).
Proof.
  unfold HashSet_wf, HashSet.insert, HashSet.has. intros Hwf.
  case_bool_decide; cbn; [assumption|].
  rewrite size_union by set_solver. rewrite size_singleton. lia.
Qed.

Lemma HashSet_ext s1 s2 :
  HashSet_wf s1 -> HashSet_wf s2 ->
  HashSet.keys s1 = HashSet.keys s2 -> s1 = s2.
Proof.
  destruct s1 as [k1 n1], s2 as [k2 n2]. unfold HashSet_wf. cbn.
  intros -> -> ->. reflexivity.
Qed.

Lemma HashSet_insert_present x s :
  x ∈ HashSet.keys s -> HashSet.insert x s = s.
Proof.
  intros Hin. unfold HashSet.insert, HashSet.has.
  rewrite bool_decide_eq_true_2 by assumption. reflexivity.
Qed.

(** [merge] leaves the union of the two key sets, counted right. *)
Lemma HashSet_merge_spec self rhs :
  HashSet_wf self ->
  HashSet_wf (HashSet.merge self rhs) /\
  HashSet.keys (HashSet.merge self rhs)
  = HashSet.keys self ∪ HashSet.keys rhs.
Proof.
  intros Hwf. unfold HashSet.merge.
  apply (set_fold_ind_L
           (fun r X => HashSet_wf r /\
                       HashSet.keys r = HashSet.keys self ∪ X)).
  - split; [assumption | set_solver].
  - intros x X r _ [Hr Hk]. split; [apply HashSet_wf_insert; assumption|].
    rewrite HashSet_keys_insert, Hk. set_solver.
Qed.

Lemma HashSet_wf_merge self rhs :
  HashSet_wf self -> HashSet_wf (HashSet.merge self rhs).
Proof. intros Hwf. apply HashSet_merge_spec. assumption. Qed.

Lemma HashSet_keys_merge self rhs :
  HashSet_wf self ->
  HashSet.keys (HashSet.merge self rhs)
  = HashSet.keys self ∪ HashSet.keys rhs.
Proof. intros Hwf. apply HashSet_merge_spec. assumption. Qed.

(** The keys inserted one after the other. *)
Lemma HashSet_fold_insert (l : list Key) s :
  HashSet_wf s ->
  HashSet_wf (fold_left (fun s x => HashSet.insert x s) l s) /\
  HashSet.keys (fold_left (fun s x => HashSet.insert x s) l s)
  = list_to_set l ∪ HashSet.keys s.
Proof.
  revert s. induction l as [|x l IH]; intros s Hwf; cbn [fold_left].
  - split; [assumption | set_solver].
  - destruct (IH (HashSet.insert x s)) as [Hw Hk];
      [apply HashSet_wf_insert; assumption|].
    split; [assumption|]. rewrite Hk, HashSet_keys_insert.
    rewrite list_to_set_cons. set_solver.
Qed.

Lemma HashSet_merge_comm self rhs :
  HashSet_wf self -> HashSet_wf rhs ->
  HashSet.merge self rhs = HashSet.merge rhs self.
Proof.
  intros H1 H2. apply HashSet_ext; try (apply HashSet_wf_merge; assumption).
  rewrite !HashSet_keys_merge by assumption. set_solver.
Qed.

Lemma HashSet_merge_assoc s1 s2 s3 :
  HashSet_wf s1 -> HashSet_wf s2 ->
  HashSet.merge (HashSet.merge s1 s2) s3
  = HashSet.merge s1 (HashSet.merge s2 s3).
Proof.
  intros H1 H2.
  apply HashSet_ext; repeat (apply HashSet_wf_merge; try assumption).
  rewrite !HashSet_keys_merge
    by (try apply HashSet_wf_merge; assumption).
  set_solver.
Qed.

Lemma HashSet_merge_idemp s : HashSet_wf s -> HashSet.merge s s = s.
Proof.
  intros Hwf. apply HashSet_ext; [apply HashSet_wf_merge| |]; try assumption.
  rewrite HashSet_keys_merge by assumption. set_solver.
Qed.

End HashSet_facts.

(** The rows of a column added in turn are the rows of the list folded. *)
Lemma fold_rows {T A : Type} (f : A -> T -> A) (d : T) (pre rows : list T)
    (a : A) :
  fold_left (fun a row_num => f a (columnOf d (pre ++ rows) row_num))
            (seq (length pre) (length rows)) a
  = fold_left f rows a.
Proof.
  revert pre a. induction rows as [|x rows IH]; intros pre a; [reflexivity|].
  cbn [length seq fold_left].
  replace (columnOf d (pre ++ x :: rows) (length pre)) with x
    by (unfold columnOf; rewrite app_nth2, Nat.sub_diag by lia; reflexivity).
  specialize (IH (pre ++ [x]) (f a x)).
  rewrite <- app_assoc, length_app in IH. cbn in IH.
  rewrite Nat.add_1_r in IH. exact IH.
Qed.

Lemma addBatchSinglePlace_rows {T Set_ : Type}
    (adder : Set_ -> Column T -> nat -> Set_) (d : T) (rows : list T)
    (place : Set_) :
  AggregateFunctionUniq.addBatchSinglePlace adder (length rows) place
    [columnOf d rows]
  = fold_left (fun place row_num => adder place (columnOf d rows) row_num)
              (seq 0 (length rows)) place.
Proof. reflexivity. Qed.

(** ** C4: the concrete scenario *)

(** C4: the strings "a", "a", "b", "c", "bb", "b" added to a new uniqExact
    state give the result 4, and so do the states of "a", "a", "b" and of
    "c", "bb", "b" merged: with the short-string path whatever the 128-bit
    hash is, and without it for SipHash. *)
Theorem C4_scenario :
  let a := [Byte.x61] in
  let b := [Byte.x62] in
  let c := [Byte.x63] in
  let bb := [Byte.x62; Byte.x62] in
  (forall sipHash128,
     finalize ExactStringSet
       (uniqExact_String true sipHash128 [a; a; b; c; bb; b]) = [4] /\
     finalize ExactStringSet
       (AggregateFunctionUniq.merge (E := ExactStringSet)
          (uniqExact_String true sipHash128 [a; a; b])
          (uniqExact_String true sipHash128 [c; bb; b])) = [4]) /\
  finalize ExactStringSet
    (uniqExact_String false SipHash.sipHash128 [a; a; b; c; bb; b]) = [4] /\
  finalize ExactStringSet
    (AggregateFunctionUniq.merge (E := ExactStringSet)
       (uniqExact_String false SipHash.sipHash128 [a; a; b])
       (uniqExact_String false SipHash.sipHash128 [c; bb; b])) = [4].
Proof.
  cbv zeta. split; [intros h; split; vm_compute; reflexivity|].
  split; vm_compute; reflexivity.
Qed.

(** ** C9: uniqExact over a numeric column *)

Lemma size_list_to_set_remove_dups {A : Type} `{Countable A} (l : list A) :
  size (list_to_set l : gset A) = length (remove_dups l).
Proof.
  rewrite <- (size_list_to_set (C := gset A) (remove_dups l))
    by apply NoDup_remove_dups.
  f_equal. apply set_eq. intros x.
  rewrite !elem_of_list_to_set, elem_of_remove_dups. reflexivity.
Qed.

(** C9: the exact estimator over a numeric column holds the column values
    themselves, and the result is the number of distinct values among the
    rows, for every sequence of rows and whatever the hash of the table. *)
Theorem C9_exact_numeric :
  forall (writeKey : Number -> list byte)
         (readKey : list byte -> option (Number * list byte))
         (rows : list Number),
    let E := HashSet_Estimator writeKey readKey in
    HashSet.keys (uniqExact_Number E rows) = list_to_set rows /\
    finalize E (uniqExact_Number E rows)
    = [Z.of_nat (length (remove_dups rows))].
Proof.
  intros writeKey readKey rows E.
  unfold uniqExact_Number. rewrite addBatchSinglePlace_rows.
  pose proof (fold_rows
    (fun place x => HashSet.insert x place) (Int UInt8 0) [] rows
    (HashSet.empty (Key := Number))) as Hfold.
  cbn [app length] in Hfold.
  unfold OneAdder.add_exact, AggregateFunctionUniq.create.
  cbn [set_insert set_empty E HashSet_Estimator].
  rewrite Hfold.
  destruct (HashSet_fold_insert rows (HashSet.empty (Key := Number))
              HashSet_wf_empty) as [Hwf Hkeys].
  assert (Hk : HashSet.keys
                 (fold_left (fun s x => HashSet.insert x s) rows HashSet.empty)
               = list_to_set rows).
  { rewrite Hkeys. cbn. set_solver. }
  split; [exact Hk|].
  unfold finalize, AggregateFunctionUniq.insertResultInto.
  cbn [set_size E HashSet_Estimator app]. unfold HashSet.size.
  rewrite Hwf, Hk, size_list_to_set_remove_dups. reflexivity.
Qed.

(** ** C7: the key of a numeric value on the approximate paths *)

Lemma bit_pattern_range ebits fbits f :
  0 <= ebits -> 0 <= fbits -> is_Float ebits fbits f ->
  0 <= bit_pattern ebits fbits f < 2 ^ (1 + ebits + fbits).
Proof.
  intros He Hf [[E0 E1] [F0 F1]]. unfold bit_pattern.
  rewrite !Z.pow_add_r, Z.pow_1_r by lia.
  assert (0 < 2 ^ ebits) by (apply Z.pow_pos_nonneg; lia).
  assert (0 < 2 ^ fbits) by (apply Z.pow_pos_nonneg; lia).
  destruct (sign f); cbn [Z.b2z]; nia.
Qed.

Lemma of_bit_pattern_bit_pattern ebits fbits f :
  0 <= ebits -> 0 <= fbits -> is_Float ebits fbits f ->
  of_bit_pattern ebits fbits (bit_pattern ebits fbits f) = f.
Proof.
  intros He Hf [[E0 E1] [F0 F1]]. destruct f as [s e m].
  cbn [exponent fraction] in *.
  unfold of_bit_pattern, bit_pattern. cbn [sign exponent fraction].
  assert (P1 : 0 < 2 ^ ebits) by (apply Z.pow_pos_nonneg; lia).
  assert (P2 : 0 < 2 ^ fbits) by (apply Z.pow_pos_nonneg; lia).
  rewrite Z.pow_add_r by lia.
  replace (Z.b2z s * (2 ^ ebits * 2 ^ fbits) + e * 2 ^ fbits + m)
    with ((Z.b2z s * 2 ^ ebits + e) * 2 ^ fbits + m) by ring.
  assert (D1 : ((Z.b2z s * 2 ^ ebits + e) * 2 ^ fbits + m) / 2 ^ fbits
               = Z.b2z s * 2 ^ ebits + e).
  { symmetry. apply Z.div_unique with m; [lia | ring]. }
  assert (M1 : ((Z.b2z s * 2 ^ ebits + e) * 2 ^ fbits + m) mod 2 ^ fbits = m).
  { symmetry. apply Z.mod_unique with (Z.b2z s * 2 ^ ebits + e); [lia | ring]. }
  assert (D2 : ((Z.b2z s * 2 ^ ebits + e) * 2 ^ fbits + m)
                 / (2 ^ ebits * 2 ^ fbits) = Z.b2z s).
  { rewrite (Z.mul_comm (2 ^ ebits)), <- Z.div_div, D1 by lia.
    symmetry. apply Z.div_unique with e; [lia | ring]. }
  assert (M2 : (Z.b2z s * 2 ^ ebits + e) mod 2 ^ ebits = e).
  { symmetry. apply Z.mod_unique with (Z.b2z s); [lia | ring]. }
  rewrite D2, D1, M1, M2. f_equal. destruct s; reflexivity.
Qed.

Lemma bit_pattern_injective ebits fbits f g :
  0 <= ebits -> 0 <= fbits ->
  is_Float ebits fbits f -> is_Float ebits fbits g ->
  bit_pattern ebits fbits f = bit_pattern ebits fbits g -> f = g.
Proof.
  intros He Hf Wf Wg E.
  rewrite <- (of_bit_pattern_bit_pattern ebits fbits f),
          <- (of_bit_pattern_bit_pattern ebits fbits g) by assumption.
  rewrite E. reflexivity.
Qed.

Lemma bit_cast_Float32 f :
  is_Float 8 23 f -> bit_cast_UInt64 (Float32 f) = bit_pattern 8 23 f.
Proof.
  intros W. unfold bit_cast_UInt64. cbn [sizeof object_representation Nat.min].
  rewrite firstn_all2 by (rewrite length_le_split; lia).
  rewrite le_combine_split. apply Z.mod_small.
  exact (bit_pattern_range 8 23 f ltac:(lia) ltac:(lia) W).
Qed.

Lemma bit_cast_Float64 f :
  is_Float 11 52 f -> bit_cast_UInt64 (Float64 f) = bit_pattern 11 52 f.
Proof.
  intros W. unfold bit_cast_UInt64. cbn [sizeof object_representation Nat.min].
  rewrite firstn_all2 by (rewrite length_le_split; lia).
  rewrite le_combine_split. apply Z.mod_small.
  exact (bit_pattern_range 11 52 f ltac:(lia) ltac:(lia) W).
Qed.

Lemma to_UInt64_widen T v : in_range T v -> to_UInt64 v = widen v.
Proof.
  unfold in_range, to_UInt64, widen. intros R.
  assert (- 2 ^ 63 <= v < 2 ^ 64).
  { destruct T; cbn in R; lia. }
  destruct (Z.ltb_spec v 0).
  - symmetry. apply Z.mod_unique with (-1); lia.
  - apply Z.mod_small. lia.
Qed.

(** C7: on the approximate paths the key of an integer of at most 64 bits is
    its value carried to 64 bits (the value itself when it is not negative,
    its 64-bit two's complement otherwise); the key of a [Float32] or
    [Float64] is its bit pattern, from which sign, exponent and fraction are
    read back unchanged (a NaN keeps its payload); the key of a 128-bit value
    is its [sipHash64]. *)
Theorem C7_numeric_key :
  forall (sipHash64 : UInt128 -> Z) (DefaultHash64 : Number -> Z) (x : Number),
    well_typed x ->
    let key := AggregateFunctionUniqTraits.hash sipHash64 DefaultHash64 x in
    match x with
    | Int T v => key = widen v /\ (0 <= v -> key = v)
    | Float32 f => key = bit_pattern 8 23 f /\ of_bit_pattern 8 23 key = f
    | Float64 f => key = bit_pattern 11 52 f /\ of_bit_pattern 11 52 key = f
    | Wide u => key = sipHash64 u
    end.
Proof.
  intros sipHash64 DefaultHash64 x W key. subst key.
  destruct x as [T v|f|f|u]; cbn [well_typed] in W;
    unfold AggregateFunctionUniqTraits.hash.
  - replace (sizeof (Int T v) <=? 8)%nat with true
      by (destruct T; reflexivity).
    rewrite (to_UInt64_widen T v W). split; [reflexivity|].
    intros Hv. unfold widen. destruct (Z.ltb_spec v 0); [lia | reflexivity].
  - rewrite bit_cast_Float32 by assumption. split; [reflexivity|].
    apply of_bit_pattern_bit_pattern; [lia | lia | assumption].
  - rewrite bit_cast_Float64 by assumption. split; [reflexivity|].
    apply of_bit_pattern_bit_pattern; [lia | lia | assumption].
  - reflexivity.
Qed.

Lemma C7_numeric_key_witness :
  let x := Float64 (NaN64 true 1) in
  let key := AggregateFunctionUniqTraits.hash
               (fun _ => 0) (fun _ => 0) x in
  key = bit_pattern 11 52 (NaN64 true 1) /\
  of_bit_pattern 11 52 key = NaN64 true 1.
Proof.
  apply (C7_numeric_key (fun _ => 0) (fun _ => 0) (Float64 (NaN64 true 1))).
  cbn. unfold is_Float. cbn. lia.
Defined.

(** ** C8: the constructor of the variadic function *)

(** C8 (counterexample): the constructor accepts a tuple followed by a
    scalar, in both instantiations, and it accepts no argument at all; none
    of the three calls ends in an error. *)
Lemma C8_counterexample :
  let tuple := DataTypeTuple [DataTypeNumber UInt8; DataTypeString] in
  AggregateFunctionUniqVariadic.new false [tuple; DataTypeNumber UInt8]
  = Ok {| AggregateFunctionUniqVariadic.num_args := 2 |} /\
  AggregateFunctionUniqVariadic.new true [tuple; DataTypeNumber UInt8]
  = Ok {| AggregateFunctionUniqVariadic.num_args := 2 |} /\
  AggregateFunctionUniqVariadic.new false []
  = Ok {| AggregateFunctionUniqVariadic.num_args := 0 |}.
Proof. repeat split. Qed.

(** C8 (amended): the constructor checks nothing.  Instantiated for plain
    arguments it takes any argument list, the empty one and one with tuples
    included, and records its length.  Instantiated for a tuple it records
    the number of elements of the first argument and ignores the others; a
    first argument that is no tuple is a bad cast, and with no argument at
    all the read of the first one is undefined.  No call ends in an
    invalid-argument error. *)
Theorem C8_constructor_accepts :
  (forall arguments,
     AggregateFunctionUniqVariadic.new false arguments
     = Ok {| AggregateFunctionUniqVariadic.num_args := length arguments |}) /\
  (forall elems others,
     AggregateFunctionUniqVariadic.new true (DataTypeTuple elems :: others)
     = Ok {| AggregateFunctionUniqVariadic.num_args := length elems |}) /\
  (forall first others,
     (forall elems, first <> DataTypeTuple elems) ->
     AggregateFunctionUniqVariadic.new true (first :: others) = BadCast) /\
  AggregateFunctionUniqVariadic.new true [] = Undefined /\
  (forall argument_is_tuple arguments,
     AggregateFunctionUniqVariadic.new argument_is_tuple arguments
     <> InvalidArgument).
Proof.
  split; [reflexivity|]. split; [reflexivity|]. split; [|split].
  - intros first others Hno. unfold AggregateFunctionUniqVariadic.new.
    destruct first as [T| |elems]; try reflexivity.
    exfalso. apply (Hno elems). reflexivity.
  - reflexivity.
  - intros [] arguments; unfold AggregateFunctionUniqVariadic.new;
      [|discriminate].
    destruct arguments as [|[] ?]; discriminate.
Qed.

Lemma C8_constructor_accepts_witness :
  AggregateFunctionUniqVariadic.new true
    [DataTypeString; DataTypeNumber UInt8] = BadCast.
Proof.
  apply (proj1 (proj2 (proj2 C8_constructor_accepts))
           DataTypeString [DataTypeNumber UInt8]).
  intros elems. discriminate.
Defined.

(** ** The sampling estimator *)

Local Abbreviation good := UniquesHashSet.good.
Local Abbreviation skip_degree := UniquesHashSet.skip_degree.
Local Abbreviation table := UniquesHashSet.table.

Lemma good_divide (d : nat) (h : Z) : good d h <-> (2 ^ Z.of_nat d | h).
Proof.
  unfold good. rewrite Z.land_ones by lia.
  rewrite Z.mod_divide by (apply Z.pow_nonzero; lia). reflexivity.
Qed.

Lemma good_mono (d d' : nat) (h : Z) : (d <= d')%nat -> good d' h -> good d h.
Proof.
  rewrite !good_divide. intros Hle Hd.
  apply Z.divide_trans with (2 ^ Z.of_nat d'); [|assumption].
  exists (2 ^ (Z.of_nat d' - Z.of_nat d)).
  rewrite <- Z.pow_add_r by lia. f_equal. lia.
Qed.

Lemma good_0 (h : Z) : good 0 h.
Proof. apply good_divide. cbn. apply Z.divide_1_l. Qed.

Lemma good_64 (d : nat) (h : Z) :
  (64 <= d)%nat -> is_UInt64 h -> good d h -> h = 0.
Proof.
  intros Hd [H0 H1] Hg. apply (good_mono 64) in Hg; [|assumption].
  apply good_divide in Hg. destruct Hg as [k Hk].
  change (2 ^ Z.of_nat 64) with (2 ^ 64) in Hk. nia.
Qed.

Lemma filter_good_mono (d d' : nat) (U : gset Z) :
  (d <= d')%nat -> filter (good d') (filter (good d) U) = filter (good d') U.
Proof.
  intros Hle. apply set_eq. intros h. rewrite !elem_of_filter.
  split; [tauto|]. intros [Hg Hin]. eauto using good_mono.
Qed.

Lemma filter_good_union (d : nat) (U V : gset Z) :
  filter (good d) (U ∪ V) = filter (good d) U ∪ filter (good d) V.
Proof. apply set_eq. intros h. set_solver. Qed.

Section UniquesHashSet_facts.
Variable max_size : nat.
Hypothesis max_size_pos : (1 <= max_size)%nat.
Implicit Types (s self rhs : UniquesHashSet.t) (U V : gset Z) (h : Z).

Lemma fits_subseteq d U V : U ⊆ V -> fits max_size d V -> fits max_size d U.
Proof.
  unfold fits. intros Hsub Hf.
  etransitivity; [|exact Hf]. apply subseteq_size. set_solver.
Qed.

Lemma fits_64 d U :
  (64 <= d)%nat -> (forall h, h ∈ U -> is_UInt64 h) -> fits max_size d U.
Proof.
  intros Hd HU. unfold fits.
  transitivity (size ({[0]} : gset Z)); [|rewrite size_singleton; lia].
  apply subseteq_size. intros h Hh. apply elem_of_filter in Hh as [Hg Hin].
  apply elem_of_singleton. eauto using good_64.
Qed.

Lemma first_fit_unique d U n1 n2 :
  first_fit max_size d U n1 -> first_fit max_size d U n2 -> n1 = n2.
Proof.
  intros (L1 & F1 & M1) (L2 & F2 & M2).
  destruct (lt_eq_lt_dec n1 n2) as [[Hlt|Heq]|Hgt]; [|assumption|].
  - exfalso. apply (M2 n1); [lia | assumption].
  - exfalso. apply (M1 n2); [lia | assumption].
Qed.

Lemma settled_unique d U s1 s2 :
  settled max_size d U s1 -> settled max_size d U s2 -> s1 = s2.
Proof.
  destruct s1 as [n1 T1], s2 as [n2 T2]. unfold settled. cbn.
  intros [F1 E1] [F2 E2].
  pose proof (first_fit_unique _ _ _ _ F1 F2) as ->. congruence.
Qed.

(** [settle] finds the first fit when the fuel reaches one. *)
Lemma settle_first_fit fuel d U n :
  (d <= n <= d + fuel)%nat -> fits max_size n U ->
  first_fit max_size d U (settle max_size fuel d U).
Proof.
  revert d. induction fuel as [|fuel IH]; intros d Hn Hfit; cbn [settle].
  - replace n with d in Hfit by lia. repeat split; [lia | assumption | lia].
  - case_decide as Hd.
    + repeat split; [lia | assumption | lia].
    + assert (n <> d) by (intros ->; contradiction).
      destruct (IH (S d)) as (L & F & M); [lia | assumption |].
      repeat split; [lia | assumption |].
      intros d' Hd'. destruct (decide (d' = d)) as [->|]; [assumption|].
      apply M. lia.
Qed.

Lemma shrink_settle fuel d U :
  UniquesHashSet.shrink max_size fuel
    {| skip_degree := d; table := filter (good d) U |}
  = {| skip_degree := settle max_size fuel d U;
       table := filter (good (settle max_size fuel d U)) U |}.
Proof.
  revert d. induction fuel as [|fuel IH]; intros d;
    cbn [UniquesHashSet.shrink settle skip_degree table]; [reflexivity|].
  case_decide; [reflexivity|].
  unfold UniquesHashSet.rehash. cbn [skip_degree table].
  rewrite filter_good_mono by lia. apply IH.
Qed.

(** The hashes offered at a degree of at most 64 settle within the fuel. *)
Lemma shrinkIfNeed_settled d U :
  (d <= 64)%nat -> (forall h, h ∈ U -> is_UInt64 h) ->
  settled max_size d U
    (UniquesHashSet.shrinkIfNeed max_size
       {| skip_degree := d; table := filter (good d) U |}).
Proof.
  intros Hd HU. unfold UniquesHashSet.shrinkIfNeed. rewrite shrink_settle.
  split; [|reflexivity]. cbn [skip_degree].
  apply settle_first_fit with 64%nat; [lia | apply fits_64; [lia | assumption]].
Qed.

Lemma settled_wf d U s :
  (d <= 64)%nat -> (forall h, h ∈ U -> is_UInt64 h) ->
  settled max_size d U s -> UniquesHashSet_wf max_size s.
Proof.
  intros Hd HU [(L & F & M) E]. unfold UniquesHashSet_wf.
  assert (skip_degree s <= 64)%nat.
  { destruct (le_lt_dec (skip_degree s) 64) as [|Hgt]; [assumption|].
    exfalso. apply (M 64%nat); [lia | apply fits_64; [lia | assumption]]. }
  split; [assumption|]. split; [|rewrite E; exact F].
  intros h Hh. rewrite E in Hh. apply elem_of_filter in Hh as [Hg Hin].
  split; [apply HU|]; assumption.
Qed.

Lemma wf_settled s :
  UniquesHashSet_wf max_size s -> settled max_size (skip_degree s) (table s) s.
Proof.
  intros (Hd & Hg & Hs).
  assert (E : filter (good (skip_degree s)) (table s) = table s).
  { apply set_eq. intros h. rewrite elem_of_filter. split; [tauto|].
    intros Hh. split; [apply Hg|]; assumption. }
  split; [|symmetry; exact E].
  repeat split; [lia | unfold fits; rewrite E; exact Hs | lia].
Qed.

(** Settling is a function of the hashes that pass from the degree on. *)
Lemma settled_proper d U U' s :
  (forall n, (d <= n)%nat -> filter (good n) U = filter (good n) U') ->
  settled max_size d U s -> settled max_size d U' s.
Proof.
  intros HE [(L & F & M) E]. split; [|rewrite E; apply HE; assumption].
  repeat split; [assumption | unfold fits; rewrite <- HE; assumption |].
  intros d' Hd'. unfold fits. rewrite <- HE by lia. apply M. assumption.
Qed.

(** What has settled, offered again with more hashes at a degree [e], settles
    as all the hashes offered at once. *)
Lemma settled_compose d e U V s s' :
  settled max_size d U s ->
  settled max_size (Nat.max (skip_degree s) e) (table s ∪ V) s' ->
  settled max_size (Nat.max d e) (U ∪ V) s'.
Proof.
  intros [(L & F & M) E] [(L' & F' & M') E'].
  assert (HE : forall n, (skip_degree s <= n)%nat ->
             filter (good n) (table s ∪ V) = filter (good n) (U ∪ V)).
  { intros n Hn. rewrite !filter_good_union, E, filter_good_mono by assumption.
    reflexivity. }
  split; [|rewrite E'; apply HE; lia].
  repeat split; [lia | unfold fits; rewrite <- HE by lia; exact F' |].
  intros d' Hd'.
  destruct (le_lt_dec (skip_degree s) d') as [Hge|Hlt].
  - unfold fits. rewrite <- HE by assumption. apply M'. lia.
  - intros Hfit. apply (M d'); [lia|].
    apply fits_subseteq with (U ∪ V); [set_solver | assumption].
Qed.

Lemma UniquesHashSet_wf_empty : UniquesHashSet_wf max_size UniquesHashSet.empty.
Proof.
  unfold UniquesHashSet_wf. cbn [UniquesHashSet.empty skip_degree table].
  split; [lia|]. split; [set_solver|]. rewrite size_empty. lia.
Qed.

Lemma insertHash_settled h s :
  UniquesHashSet_wf max_size s -> is_UInt64 h ->
  settled max_size (skip_degree s) ({[h]} ∪ table s)
    (UniquesHashSet.insertHash max_size h s).
Proof.
  intros Hwf Hh. pose proof Hwf as (Hd & Hg & Hs).
  unfold UniquesHashSet.insertHash. case_decide as Hgood.
  - assert (E : filter (good (skip_degree s)) ({[h]} ∪ table s)
                = {[h]} ∪ table s).
    { apply set_eq. intros x. rewrite elem_of_filter. split; [tauto|].
      intros Hx. split; [|assumption].
      apply elem_of_union in Hx as [->%elem_of_singleton|Hx];
        [assumption | apply Hg; assumption]. }
    pose proof (shrinkIfNeed_settled (skip_degree s) ({[h]} ∪ table s) Hd)
      as Hx.
    rewrite E in Hx. apply Hx.
    intros x [->%elem_of_singleton|Hin]%elem_of_union;
      [assumption | apply Hg; assumption].
  - apply settled_proper with (table s); [|apply wf_settled; assumption].
    intros n Hn. apply set_eq. intros x. rewrite !elem_of_filter.
    split; [intros [? ?]; split; [assumption | set_solver]|].
    intros [Hx [->%elem_of_singleton|Hin]%elem_of_union]; [|tauto].
    exfalso. apply Hgood. eauto using good_mono.
Qed.

Lemma foldr_insertHash_settled (l : list Z) s :
  UniquesHashSet_wf max_size s -> (forall h, h ∈ l -> is_UInt64 h) ->
  settled max_size (skip_degree s) (table s ∪ list_to_set l)
    (foldr (UniquesHashSet.insertHash max_size) s l).
Proof.
  intros Hwf. induction l as [|x l IH]; intros Hl; cbn [foldr].
  - replace (table s ∪ list_to_set []) with (table s) by set_solver.
    apply wf_settled. assumption.
  - assert (Hl' : forall h, h ∈ l -> is_UInt64 h)
      by (intros h Hh; apply Hl; set_solver).
    specialize (IH Hl').
    assert (Hwf1 : UniquesHashSet_wf max_size
                     (foldr (UniquesHashSet.insertHash max_size) s l)).
    { eapply settled_wf; [| |exact IH]; [apply Hwf|].
      intros h [Hh|Hh%elem_of_list_to_set]%elem_of_union;
        [apply Hwf | apply Hl']; assumption. }
    pose proof (insertHash_settled x _ Hwf1 (Hl x ltac:(set_solver))) as Hx.
    pose proof (settled_compose (skip_degree s) 0 (table s ∪ list_to_set l)
                  {[x]} _
                  (UniquesHashSet.insertHash max_size x
                     (foldr (UniquesHashSet.insertHash max_size) s l))
                  IH) as Hc.
    rewrite !Nat.max_0_r in Hc.
    replace (table s ∪ list_to_set (x :: l))
      with (table s ∪ list_to_set l ∪ {[x]}) by set_solver.
    apply Hc.
    replace (table (foldr (UniquesHashSet.insertHash max_size) s l) ∪ {[x]})
      with ({[x]} ∪ table (foldr (UniquesHashSet.insertHash max_size) s l))
      by set_solver.
    exact Hx.
Qed.

(** [merge] leaves what the hashes of both sides settle to from the larger
    of the two degrees. *)
Lemma UniquesHashSet_merge_settled self rhs :
  UniquesHashSet_wf max_size self -> UniquesHashSet_wf max_size rhs ->
  settled max_size (Nat.max (skip_degree self) (skip_degree rhs))
    (table self ∪ table rhs) (UniquesHashSet.merge max_size self rhs).
Proof.
  intros Hs Hr. pose proof Hs as (Hd1 & Hg1 & Hs1).
  pose proof Hr as (Hd2 & Hg2 & Hs2).
  unfold UniquesHashSet.merge, set_fold. cbn [compose].
  set (D := Nat.max (skip_degree self) (skip_degree rhs)).
  set (self' := if (skip_degree self <? skip_degree rhs)%nat
                then UniquesHashSet.rehash (skip_degree rhs) self else self).
  assert (Hdeg : skip_degree self' = D).
  { subst self' D. destruct (Nat.ltb_spec (skip_degree self) (skip_degree rhs));
      cbn; lia. }
  assert (Htab : table self' = filter (good D) (table self)).
  { subst self' D. destruct (Nat.ltb_spec (skip_degree self) (skip_degree rhs)).
    - rewrite Nat.max_r by lia. reflexivity.
    - rewrite Nat.max_l by lia. apply set_eq. intros h.
      rewrite elem_of_filter. split; [|tauto].
      intros Hh. split; [apply Hg1|]; assumption. }
  assert (Hwf' : UniquesHashSet_wf max_size self').
  { unfold UniquesHashSet_wf. rewrite Hdeg, Htab. split; [subst D; lia|].
    split.
    - intros h [Hg Hin]%elem_of_filter. split; [apply Hg1|]; assumption.
    - etransitivity; [|exact Hs1]. apply subseteq_size. set_solver. }
  pose proof (foldr_insertHash_settled (elements (table rhs)) self' Hwf') as Hf.
  rewrite Hdeg, Htab, list_to_set_elements_L in Hf.
  eapply settled_proper; [|apply Hf].
  - intros n Hn. rewrite !filter_good_union, filter_good_mono by assumption.
    reflexivity.
  - intros h Hh%elem_of_elements. apply Hg2. assumption.
Qed.

Lemma UniquesHashSet_wf_merge self rhs :
  UniquesHashSet_wf max_size self -> UniquesHashSet_wf max_size rhs ->
  UniquesHashSet_wf max_size (UniquesHashSet.merge max_size self rhs).
Proof.
  intros Hs Hr.
  eapply settled_wf; [| |apply UniquesHashSet_merge_settled; assumption].
  - destruct Hs, Hr. lia.
  - intros h [Hh|Hh]%elem_of_union; [apply Hs | apply Hr]; assumption.
Qed.

Lemma UniquesHashSet_merge_comm self rhs :
  UniquesHashSet_wf max_size self -> UniquesHashSet_wf max_size rhs ->
  UniquesHashSet.merge max_size self rhs
  = UniquesHashSet.merge max_size rhs self.
Proof.
  intros Hs Hr.
  pose proof (UniquesHashSet_merge_settled self rhs Hs Hr) as H1.
  pose proof (UniquesHashSet_merge_settled rhs self Hr Hs) as H2.
  rewrite Nat.max_comm in H2.
  replace (table rhs ∪ table self) with (table self ∪ table rhs) in H2
    by set_solver.
  eapply settled_unique; eassumption.
Qed.

(** Three states merged, first two first. *)
Lemma UniquesHashSet_merge3_settled s1 s2 s3 :
  UniquesHashSet_wf max_size s1 -> UniquesHashSet_wf max_size s2 ->
  UniquesHashSet_wf max_size s3 ->
  settled max_size
    (Nat.max (Nat.max (skip_degree s1) (skip_degree s2)) (skip_degree s3))
    (table s1 ∪ table s2 ∪ table s3)
    (UniquesHashSet.merge max_size (UniquesHashSet.merge max_size s1 s2) s3).
Proof.
  intros H1 H2 H3.
  eapply settled_compose; [apply UniquesHashSet_merge_settled; assumption|].
  apply UniquesHashSet_merge_settled; [|assumption].
  apply UniquesHashSet_wf_merge; assumption.
Qed.

Lemma UniquesHashSet_merge_assoc s1 s2 s3 :
  UniquesHashSet_wf max_size s1 -> UniquesHashSet_wf max_size s2 ->
  UniquesHashSet_wf max_size s3 ->
  UniquesHashSet.merge max_size (UniquesHashSet.merge max_size s1 s2) s3
  = UniquesHashSet.merge max_size s1 (UniquesHashSet.merge max_size s2 s3).
Proof.
  intros H1 H2 H3.
  rewrite (UniquesHashSet_merge_comm s1 (UniquesHashSet.merge max_size s2 s3))
    by (try apply UniquesHashSet_wf_merge; assumption).
  pose proof (UniquesHashSet_merge3_settled s1 s2 s3 H1 H2 H3) as Hl.
  pose proof (UniquesHashSet_merge3_settled s2 s3 s1 H2 H3 H1) as Hr.
  replace (Nat.max (Nat.max (skip_degree s2) (skip_degree s3)) (skip_degree s1))
    with (Nat.max (Nat.max (skip_degree s1) (skip_degree s2)) (skip_degree s3))
    in Hr by lia.
  replace (table s2 ∪ table s3 ∪ table s1)
    with (table s1 ∪ table s2 ∪ table s3) in Hr by set_solver.
  eapply settled_unique; eassumption.
Qed.

Lemma UniquesHashSet_merge_swap s1 s2 s3 :
  UniquesHashSet_wf max_size s1 -> UniquesHashSet_wf max_size s2 ->
  UniquesHashSet_wf max_size s3 ->
  UniquesHashSet.merge max_size (UniquesHashSet.merge max_size s1 s2) s3
  = UniquesHashSet.merge max_size (UniquesHashSet.merge max_size s1 s3) s2.
Proof.
  intros H1 H2 H3.
  pose proof (UniquesHashSet_merge3_settled s1 s2 s3 H1 H2 H3) as Hl.
  pose proof (UniquesHashSet_merge3_settled s1 s3 s2 H1 H3 H2) as Hr.
  replace (Nat.max (Nat.max (skip_degree s1) (skip_degree s3)) (skip_degree s2))
    with (Nat.max (Nat.max (skip_degree s1) (skip_degree s2)) (skip_degree s3))
    in Hr by lia.
  replace (table s1 ∪ table s3 ∪ table s2)
    with (table s1 ∪ table s2 ∪ table s3) in Hr by set_solver.
  eapply settled_unique; eassumption.
Qed.

(** Inserts keep the state well formed when the hash function returns 64-bit
    words. *)
Lemma UniquesHashSet_wf_insert (Hash : Z -> Z) x s :
  (forall y, is_UInt64 (Hash y)) ->
  UniquesHashSet_wf max_size s ->
  UniquesHashSet_wf max_size (UniquesHashSet.insert Hash max_size x s).
Proof.
  intros HH Hwf. unfold UniquesHashSet.insert.
  eapply settled_wf; [| |apply insertHash_settled; [assumption | apply HH]].
  - apply Hwf.
  - intros h [->%elem_of_singleton|Hh]%elem_of_union;
      [apply HH | apply Hwf; assumption].
Qed.

End UniquesHashSet_facts.

(** ** The hybrid estimator *)

Lemma zip_max_comm (l k : list Z) : zip_with Z.max l k = zip_with Z.max k l.
Proof.
  revert k. induction l as [|x l IH]; intros [|y k]; cbn; try reflexivity.
  rewrite IH, Z.max_comm. reflexivity.
Qed.

Lemma zip_max_assoc (l k m : list Z) :
  zip_with Z.max (zip_with Z.max l k) m = zip_with Z.max l (zip_with Z.max k m).
Proof.
  revert k m. induction l as [|x l IH]; intros [|y k] [|z m]; cbn;
    try reflexivity.
  rewrite IH, Z.max_assoc. reflexivity.
Qed.

Lemma zip_max_idemp (l : list Z) : zip_with Z.max l l = l.
Proof.
  induction l as [|x l IH]; cbn; [reflexivity|].
  rewrite IH, Z.max_id. reflexivity.
Qed.

Section HLL_facts.
Context {Key : Type} `{Countable Key}.
Variables small_set_size K : nat.
Variable Hash : Key -> Z.
Implicit Types (a b c : gset Key) (R : list Z) (i : nat).

Local Abbreviation update := (HLL.update K Hash).
Local Abbreviation toLarge := (HLL.toLarge K Hash).
Local Abbreviation merge := (HLL.merge small_set_size K Hash).

Lemma lookup_foldr_update (l : list Key) R i :
  foldr update R l !! i = replayed K Hash i l <$> R !! i.
Proof.
  induction l as [|h l IH]; cbn [foldr].
  - destruct (R !! i); reflexivity.
  - unfold HLL.update at 1. rewrite list_lookup_alter.
    destruct (decide (HLL.bucket K (Hash h) = i)) as [Heq|Hne].
    + subst i. rewrite IH.
      destruct (R !! HLL.bucket K (Hash h)); [|reflexivity].
      cbn. unfold replayed. cbn [foldr].
      rewrite decide_True by reflexivity. reflexivity.
    + rewrite IH. destruct (R !! i); [|reflexivity].
      cbn. unfold replayed. cbn [foldr].
      rewrite decide_False by assumption. reflexivity.
Qed.

Lemma length_foldr_update (l : list Key) R :
  length (foldr update R l) = length R.
Proof.
  induction l as [|h l IH]; cbn [foldr]; [reflexivity|].
  unfold HLL.update at 1. rewrite length_alter. exact IH.
Qed.

Lemma replayed_ge i (l : list Key) r : r <= replayed K Hash i l r.
Proof.
  induction l as [|h l IH]; cbn [replayed foldr]; [lia|].
  fold (replayed K Hash i l r). case_decide; lia.
Qed.

Lemma replayed_upper i (l : list Key) r h :
  h ∈ l -> HLL.bucket K (Hash h) = i ->
  HLL.rank K (Hash h) <= replayed K Hash i l r.
Proof.
  induction l as [|x l IH]; [intros ?%elem_of_nil; contradiction|].
  intros Hin Hb. cbn [replayed foldr]. fold (replayed K Hash i l r).
  apply elem_of_cons in Hin as [->|Hin].
  - rewrite decide_True by assumption. lia.
  - specialize (IH Hin Hb). case_decide; lia.
Qed.

Lemma replayed_attained i (l : list Key) r :
  replayed K Hash i l r = r \/
  exists h, h ∈ l /\ HLL.bucket K (Hash h) = i /\
            replayed K Hash i l r = HLL.rank K (Hash h).
Proof.
  induction l as [|x l IH]; cbn [replayed foldr]; [left; reflexivity|].
  fold (replayed K Hash i l r).
  destruct IH as [IH|(h & Hin & Hb & IH)].
  - case_decide as Hx; [|left; assumption].
    destruct (Z.max_spec (HLL.rank K (Hash x)) (replayed K Hash i l r))
      as [[_ E]|[_ E]];
      rewrite E; [left; assumption|].
    right. exists x. split; [left|]. tauto.
  - case_decide as Hx.
    + destruct (Z.max_spec (HLL.rank K (Hash x)) (replayed K Hash i l r))
        as [[_ E]|[_ E]];
        rewrite E; right.
      * exists h. split; [right; assumption | tauto].
      * exists x. split; [left|]. tauto.
    + right. exists h. split; [right; assumption | tauto].
Qed.

(** A register depends on the set of the hashes replayed only. *)
Lemma replayed_union i (l1 l2 l3 : list Key) r :
  (forall h, h ∈ l3 <-> h ∈ l1 \/ h ∈ l2) ->
  replayed K Hash i l3 r
  = Z.max (replayed K Hash i l1 r) (replayed K Hash i l2 r).
Proof.
  intros Hl.
  pose proof (replayed_ge i l1 r). pose proof (replayed_ge i l2 r).
  pose proof (replayed_ge i l3 r).
  assert (U1 : replayed K Hash i l1 r <= replayed K Hash i l3 r).
  { destruct (replayed_attained i l1 r) as [->|(h & Hin & Hb & ->)];
      [assumption|]. apply replayed_upper; [apply Hl|]; tauto. }
  assert (U2 : replayed K Hash i l2 r <= replayed K Hash i l3 r).
  { destruct (replayed_attained i l2 r) as [->|(h & Hin & Hb & ->)];
      [assumption|]. apply replayed_upper; [apply Hl|]; tauto. }
  assert (U3 : replayed K Hash i l3 r
               <= Z.max (replayed K Hash i l1 r) (replayed K Hash i l2 r)).
  { destruct (replayed_attained i l3 r) as [->|(h & Hin & Hb & ->)]; [lia|].
    apply Hl in Hin as [Hin|Hin].
    - pose proof (replayed_upper i l1 r h Hin Hb). lia.
    - pose proof (replayed_upper i l2 r h Hin Hb). lia. }
  lia.
Qed.

Lemma length_toLarge a : length (toLarge a) = (2 ^ K)%nat.
Proof.
  unfold HLL.toLarge, set_fold. cbn [compose].
  rewrite length_foldr_update, length_replicate. reflexivity.
Qed.

Lemma lookup_toLarge a i :
  toLarge a !! i
  = if decide (i < 2 ^ K)%nat
    then Some (replayed K Hash i (elements a) 0) else None.
Proof.
  unfold HLL.toLarge, set_fold. cbn [compose].
  rewrite lookup_foldr_update. case_decide as Hi.
  - rewrite lookup_replicate_2 by assumption. reflexivity.
  - assert (E : replicate (2 ^ K) 0 !! i = None)
      by (apply lookup_replicate_None; lia).
    rewrite E. reflexivity.
Qed.

(** The registers of a union are the registers of the two sets combined by
    max. *)
Lemma toLarge_union a b :
  toLarge (a ∪ b) = zip_with Z.max (toLarge a) (toLarge b).
Proof.
  apply list_eq. intros i. rewrite lookup_zip_with, !lookup_toLarge.
  case_decide; [|reflexivity]. cbn. f_equal.
  apply replayed_union. intros h. rewrite !elem_of_elements. set_solver.
Qed.

Lemma registers_merge (x y : HLL.t Key) :
  HLL.registers K Hash (merge x y)
  = zip_with Z.max (HLL.registers K Hash x) (HLL.registers K Hash y).
Proof.
  destruct x as [a|R1], y as [b|R2]; cbn [HLL.merge HLL.registers];
    try reflexivity.
  case_decide; cbn [HLL.registers]; apply toLarge_union.
Qed.

Lemma HLL_merge_comm (x y : HLL.t Key) : merge x y = merge y x.
Proof.
  destruct x as [a|R1], y as [b|R2]; cbn [HLL.merge HLL.registers];
    try (f_equal; apply zip_max_comm).
  replace (b ∪ a) with (a ∪ b) by set_solver. reflexivity.
Qed.

(** Three states merged, first two first: small when all three are small
    and their union fits, large otherwise. *)
Lemma HLL_merge3 (x y z : HLL.t Key) :
  merge (merge x y) z
  = match x, y, z with
    | HLL.Small a, HLL.Small b, HLL.Small c =>
        if decide (size (a ∪ b ∪ c) <= small_set_size)%nat
        then HLL.Small (a ∪ b ∪ c)
        else HLL.Large (toLarge (a ∪ b ∪ c))
    | _, _, _ =>
        HLL.Large (zip_with Z.max
                     (zip_with Z.max (HLL.registers K Hash x)
                                     (HLL.registers K Hash y))
                     (HLL.registers K Hash z))
    end.
Proof.
  destruct x as [a|R1], y as [b|R2], z as [c|R3];
    cbn [HLL.merge HLL.registers]; try reflexivity.
  - destruct (decide (size (a ∪ b) <= small_set_size)%nat) as [Hab|Hab];
      cbn [HLL.merge HLL.registers]; [reflexivity|].
    rewrite decide_False.
    + rewrite <- toLarge_union. reflexivity.
    + intros Habc. apply Hab. etransitivity; [|exact Habc].
      apply subseteq_size. set_solver.
  - case_decide; cbn [HLL.merge HLL.registers]; rewrite ?toLarge_union;
      reflexivity.
Qed.

Lemma HLL_merge_assoc (x y z : HLL.t Key) :
  merge (merge x y) z = merge x (merge y z).
Proof.
  rewrite (HLL_merge_comm x (merge y z)), !HLL_merge3.
  destruct x as [a|R1], y as [b|R2], z as [c|R3]; cbn [HLL.registers].
  - replace (b ∪ c ∪ a) with (a ∪ b ∪ c) by set_solver. reflexivity.
  - f_equal. rewrite zip_max_assoc. apply zip_max_comm.
  - f_equal. rewrite zip_max_assoc. apply zip_max_comm.
  - f_equal. rewrite zip_max_assoc. apply zip_max_comm.
  - f_equal. rewrite zip_max_assoc. apply zip_max_comm.
  - f_equal. rewrite zip_max_assoc. apply zip_max_comm.
  - f_equal. rewrite zip_max_assoc. apply zip_max_comm.
  - f_equal. rewrite zip_max_assoc. apply zip_max_comm.
Qed.

Lemma HLL_merge_swap (x y z : HLL.t Key) :
  merge (merge x y) z = merge (merge x z) y.
Proof.
  rewrite HLL_merge_assoc, (HLL_merge_comm y z), <- HLL_merge_assoc.
  reflexivity.
Qed.

(** *** The states inserts reach are well formed *)

Lemma HLL_rank_range (h : Z) :
  (K <= 64)%nat -> is_UInt64 h -> 0 <= HLL.rank K h < 256.
Proof.
  intros HK [H0 H1]. unfold HLL.rank.
  assert (Hr : 0 <= Z.shiftr h (Z.of_nat K) < 2 ^ (64 - Z.of_nat K)).
  { rewrite Z.shiftr_div_pow2 by lia. split.
    - apply Z.div_pos; [lia | apply Z.pow_pos_nonneg; lia].
    - apply Z.div_lt_upper_bound; [apply Z.pow_pos_nonneg; lia|].
      rewrite <- Z.pow_add_r by lia.
      replace (Z.of_nat K + (64 - Z.of_nat K)) with 64 by lia. assumption. }
  destruct (Z.eqb_spec (Z.shiftr h (Z.of_nat K)) 0) as [|Hne]; [lia|].
  pose proof (Z.log2_nonneg (Z.shiftr h (Z.of_nat K))).
  assert (Z.log2 (Z.shiftr h (Z.of_nat K)) < 64 - Z.of_nat K)
    by (apply Z.log2_lt_pow2; lia).
  lia.
Qed.

Lemma Forall_update x R :
  (K <= 64)%nat -> is_UInt64 (Hash x) ->
  Forall (fun r => 0 <= r < 256) R ->
  Forall (fun r => 0 <= r < 256) (update x R).
Proof.
  intros HK Hx HR. unfold HLL.update. apply Forall_alter; [assumption|].
  intros r _ Hr. pose proof (HLL_rank_range (Hash x) HK Hx). lia.
Qed.

Lemma Forall_toLarge a :
  (K <= 64)%nat -> (forall x, is_UInt64 (Hash x)) ->
  Forall (fun r => 0 <= r < 256) (toLarge a).
Proof.
  intros HK HH. unfold HLL.toLarge, set_fold. cbn [compose].
  induction (elements a) as [|x l IH]; cbn [foldr].
  - apply Forall_replicate. lia.
  - apply Forall_update; [assumption | apply HH | assumption].
Qed.

End HLL_facts.

Section HLL_wf_facts.
Variables small_set_size K : nat.
Variable Hash : Z -> Z.

Lemma HLL_wf_insert x (s : HLL.t Z) :
  (K <= 64)%nat -> (forall y, is_UInt64 (Hash y)) -> is_UInt64 x ->
  HLL_wf small_set_size K s ->
  HLL_wf small_set_size K (HLL.insert small_set_size K Hash x s).
Proof.
  intros HK HH Hx Hs. destruct s as [a|R]; cbn [HLL.insert HLL_wf] in *.
  - destruct Hs as [Ha Hsize]. case_decide as Hin; [split; assumption|].
    case_decide as Hfit; cbn [HLL_wf].
    + split.
      * intros h [->%elem_of_singleton|Hh]%elem_of_union;
          [assumption | apply Ha; assumption].
      * rewrite size_union, size_singleton by set_solver. lia.
    + split.
      * unfold HLL.update. rewrite length_alter. apply length_toLarge.
      * apply Forall_update; [assumption | apply HH |].
        apply Forall_toLarge; assumption.
  - destruct Hs as [Hlen HR]. split.
    + unfold HLL.update. rewrite length_alter. assumption.
    + apply Forall_update; [assumption | apply HH | assumption].
Qed.

End HLL_wf_facts.

(** ** C5: merging *)

Lemma stateOf_HashSet_wf {Key : Type} `{Countable Key}
    (writeKey : Key -> list byte)
    (readKey : list byte -> option (Key * list byte)) (xs : list Key) :
  HashSet_wf (stateOf (HashSet_Estimator writeKey readKey) xs).
Proof. apply HashSet_fold_insert, HashSet_wf_empty. Qed.

Lemma stateOf_UniquesHashSet_wf (Hash : Z -> Z) (max_size : nat)
    (xs : list Z) :
  (1 <= max_size)%nat -> (forall x, is_UInt64 (Hash x)) ->
  UniquesHashSet_wf max_size
    (stateOf (UniquesHashSet_Estimator Hash max_size) xs).
Proof.
  intros Hm HH. unfold stateOf.
  cbn [set_insert set_empty UniquesHashSet_Estimator].
  assert (G : forall s, UniquesHashSet_wf max_size s ->
            UniquesHashSet_wf max_size
              (fold_left (fun s x => UniquesHashSet.insert Hash max_size x s)
                         xs s)).
  { induction xs as [|x xs IH]; intros s Hs; cbn [fold_left]; [assumption|].
    apply IH, UniquesHashSet_wf_insert; assumption. }
  apply G, UniquesHashSet_wf_empty. assumption.
Qed.

Lemma elem_of_map_same {A B : Type} (f : A -> B) (xs ys : list A) :
  (forall x, x ∈ xs <-> x ∈ ys) ->
  forall y, y ∈ map f xs <-> y ∈ map f ys.
Proof.
  intros Hs y. split; intros Hy.
  - destruct (list_elem_of_fmap_1 f xs y Hy) as [x [-> Hx]].
    apply (list_elem_of_fmap_2 f ys x). apply Hs. exact Hx.
  - destruct (list_elem_of_fmap_1 f ys y Hy) as [x [-> Hx]].
    apply (list_elem_of_fmap_2 f xs x). apply Hs. exact Hx.
Qed.

Section HashSet_batches.
Context {Key : Type} `{Countable Key}.
Variable writeKey : Key -> list byte.
Variable readKey : list byte -> option (Key * list byte).

Lemma stateOf_HashSet_keys (xs : list Key) :
  HashSet.keys (stateOf (HashSet_Estimator writeKey readKey) xs)
  = list_to_set xs.
Proof.
  unfold stateOf. cbn [set_insert set_empty HashSet_Estimator].
  destruct (HashSet_fold_insert xs (HashSet.empty (Key := Key))
              HashSet_wf_empty) as [_ Hk].
  rewrite Hk. cbn [HashSet.keys HashSet.empty]. set_solver.
Qed.

Lemma stateOf_HashSet_app (xs ys : list Key) :
  stateOf (HashSet_Estimator writeKey readKey) (xs ++ ys)
  = set_merge (Estimator := HashSet_Estimator writeKey readKey)
      (stateOf (HashSet_Estimator writeKey readKey) xs)
      (stateOf (HashSet_Estimator writeKey readKey) ys).
Proof.
  cbn [set_merge HashSet_Estimator].
  apply HashSet_ext.
  - apply stateOf_HashSet_wf.
  - apply HashSet_wf_merge, stateOf_HashSet_wf.
  - rewrite HashSet_keys_merge by apply stateOf_HashSet_wf.
    rewrite !stateOf_HashSet_keys. apply list_to_set_app_L.
Qed.

Lemma stateOf_HashSet_same_set (xs ys : list Key) :
  (forall x, x ∈ xs <-> x ∈ ys) ->
  stateOf (HashSet_Estimator writeKey readKey) xs
  = stateOf (HashSet_Estimator writeKey readKey) ys.
Proof.
  intros Hs. apply HashSet_ext; try apply stateOf_HashSet_wf.
  rewrite !stateOf_HashSet_keys. apply set_eq. intros x.
  rewrite !elem_of_list_to_set. apply Hs.
Qed.

End HashSet_batches.

Section UniquesHashSet_batches.
Variable Hash : Z -> Z.
Variable max_size : nat.
Hypothesis max_size_pos : (1 <= max_size)%nat.
Hypothesis Hash_range : forall x, is_UInt64 (Hash x).

Lemma fold_insert_settled (xs : list Z) (s : UniquesHashSet.t) :
  UniquesHashSet_wf max_size s ->
  settled max_size (UniquesHashSet.skip_degree s)
    (UniquesHashSet.table s ∪ list_to_set (map Hash xs))
    (fold_left (fun s x => UniquesHashSet.insert Hash max_size x s) xs s).
Proof.
  revert s. induction xs as [|x xs IH]; intros s W; cbn [fold_left map].
  - replace (UniquesHashSet.table s ∪ list_to_set [])
      with (UniquesHashSet.table s) by set_solver.
    apply wf_settled; assumption.
  - assert (W1 : UniquesHashSet_wf max_size
                   (UniquesHashSet.insert Hash max_size x s))
      by (apply UniquesHashSet_wf_insert; assumption).
    pose proof (IH _ W1) as S1.
    assert (S0 : settled max_size (UniquesHashSet.skip_degree s)
                   ({[Hash x]} ∪ UniquesHashSet.table s)
                   (UniquesHashSet.insert Hash max_size x s))
      by (apply insertHash_settled; [assumption | assumption | apply Hash_range]).
    rewrite <- (Nat.max_0_r (UniquesHashSet.skip_degree
                  (UniquesHashSet.insert Hash max_size x s))) in S1.
    pose proof (settled_compose max_size max_size_pos _ _ _ _ _ _ S0 S1) as S2.
    rewrite Nat.max_0_r in S2.
    rewrite list_to_set_cons.
    replace (UniquesHashSet.table s
             ∪ ({[Hash x]} ∪ list_to_set (map Hash xs)))
      with ({[Hash x]} ∪ UniquesHashSet.table s ∪ list_to_set (map Hash xs))
      by set_solver.
    exact S2.
Qed.

Lemma stateOf_UniquesHashSet_settled (xs : list Z) :
  settled max_size 0 (list_to_set (map Hash xs))
    (stateOf (UniquesHashSet_Estimator Hash max_size) xs).
Proof.
  pose proof (fold_insert_settled xs UniquesHashSet.empty
                (UniquesHashSet_wf_empty max_size max_size_pos)) as S.
  cbn [UniquesHashSet.skip_degree UniquesHashSet.table UniquesHashSet.empty]
    in S.
  replace (∅ ∪ list_to_set (map Hash xs))
    with (list_to_set (map Hash xs) : gset Z) in S by set_solver.
  exact S.
Qed.

Lemma stateOf_UniquesHashSet_app (xs ys : list Z) :
  stateOf (UniquesHashSet_Estimator Hash max_size) (xs ++ ys)
  = set_merge (Estimator := UniquesHashSet_Estimator Hash max_size)
      (stateOf (UniquesHashSet_Estimator Hash max_size) xs)
      (stateOf (UniquesHashSet_Estimator Hash max_size) ys).
Proof.
  cbn [set_merge UniquesHashSet_Estimator].
  set (A := stateOf (UniquesHashSet_Estimator Hash max_size) xs).
  set (B := stateOf (UniquesHashSet_Estimator Hash max_size) ys).
  assert (WA : UniquesHashSet_wf max_size A)
    by (apply stateOf_UniquesHashSet_wf; assumption).
  assert (WB : UniquesHashSet_wf max_size B)
    by (apply stateOf_UniquesHashSet_wf; assumption).
  pose proof (stateOf_UniquesHashSet_settled xs) as SA. fold A in SA.
  pose proof (stateOf_UniquesHashSet_settled ys) as SB. fold B in SB.
  pose proof (UniquesHashSet_merge_settled max_size max_size_pos A B WA WB)
    as M.
  pose proof (settled_compose max_size max_size_pos _ _ _ _ _ _ SA M) as P1.
  cbn [Nat.max] in P1.
  rewrite <- (Nat.max_0_r (UniquesHashSet.skip_degree B)) in P1.
  replace (list_to_set (map Hash xs) ∪ UniquesHashSet.table B)
    with (UniquesHashSet.table B ∪ list_to_set (map Hash xs)) in P1
    by set_solver.
  pose proof (settled_compose max_size max_size_pos _ _ _ _ _ _ SB P1) as P2.
  cbn [Nat.max] in P2.
  apply (settled_unique max_size max_size_pos 0%nat (list_to_set (map Hash (xs ++ ys)))).
  - apply stateOf_UniquesHashSet_settled.
  - rewrite map_app, list_to_set_app_L.
    replace (list_to_set (map Hash xs) ∪ list_to_set (map Hash ys))
      with (list_to_set (map Hash ys) ∪ list_to_set (map Hash xs) : gset Z)
      by set_solver.
    exact P2.
Qed.

Lemma stateOf_UniquesHashSet_same_set (xs ys : list Z) :
  (forall x, x ∈ xs <-> x ∈ ys) ->
  stateOf (UniquesHashSet_Estimator Hash max_size) xs
  = stateOf (UniquesHashSet_Estimator Hash max_size) ys.
Proof.
  intros Hs.
  apply (settled_unique max_size max_size_pos 0%nat (list_to_set (map Hash xs))).
  - apply stateOf_UniquesHashSet_settled.
  - replace (list_to_set (map Hash xs))
      with (list_to_set (map Hash ys) : gset Z).
    + apply stateOf_UniquesHashSet_settled.
    + apply set_eq. intros h. rewrite !elem_of_list_to_set.
      symmetry. apply elem_of_map_same. exact Hs.
Qed.

End UniquesHashSet_batches.

Section HLL_batches.
Context {Key : Type} `{Countable Key}.
Variable writeKey : Key -> list byte.
Variable readKey : list byte -> option (Key * list byte).
Variables small_set_size K : nat.
Variable Hash : Key -> Z.
Variable estimate : list Z -> Z.

Lemma update_toLarge (x : Key) (S : gset Key) :
  HLL.update K Hash x (HLL.toLarge K Hash S)
  = HLL.toLarge K Hash ({[x]} ∪ S).
Proof.
  apply list_eq. intros i. rewrite lookup_toLarge.
  unfold HLL.toLarge, set_fold. cbn [compose].
  change (HLL.update K Hash x
            (foldr (HLL.update K Hash) (replicate (2 ^ K) 0) (elements S)))
    with (foldr (HLL.update K Hash) (replicate (2 ^ K) 0) (x :: elements S)).
  rewrite lookup_foldr_update.
  case_decide as Hi.
  - rewrite lookup_replicate_2 by assumption. cbn [fmap option_fmap option_map].
    f_equal.
    rewrite (replayed_union K Hash i (x :: elements S) (x :: elements S)
               (elements ({[x]} ∪ S))).
    + rewrite Z.max_id. reflexivity.
    + intros h. rewrite elem_of_elements, elem_of_cons, elem_of_elements.
      set_solver.
  - assert (E : replicate (2 ^ K) 0 !! i = None)
      by (apply lookup_replicate_None; lia).
    rewrite E. reflexivity.
Qed.

Lemma insert_HLL_of_set (x : Key) (S : gset Key) :
  HLL.insert small_set_size K Hash x (HLL_of_set small_set_size K Hash S)
  = HLL_of_set small_set_size K Hash ({[x]} ∪ S).
Proof.
  unfold HLL_of_set.
  destruct (decide (size S <= small_set_size)%nat) as [Hfit|Hfit];
    cbn [HLL.insert].
  - destruct (decide (x ∈ S)) as [Hin|Hnin].
    + replace ({[x]} ∪ S) with S by set_solver.
      rewrite decide_True by assumption. reflexivity.
    + assert (Hsz : size ({[x]} ∪ S) = (size S + 1)%nat)
        by (rewrite size_union, size_singleton by set_solver; lia).
      rewrite Hsz.
      destruct (decide (size S + 1 <= small_set_size)%nat); [reflexivity|].
      f_equal. apply update_toLarge.
  - rewrite decide_False.
    + f_equal. apply update_toLarge.
    + intros Hc. apply Hfit. etransitivity; [|exact Hc].
      apply subseteq_size. set_solver.
Qed.

Lemma stateOf_HLL_of_set (xs : list Key) :
  stateOf (HLL_Estimator_of writeKey readKey small_set_size K Hash estimate) xs
  = HLL_of_set small_set_size K Hash (list_to_set xs).
Proof.
  unfold stateOf. cbn [set_insert set_empty HLL_Estimator_of].
  assert (G : forall S : gset Key,
    fold_left (fun s x => HLL.insert small_set_size K Hash x s) xs
              (HLL_of_set small_set_size K Hash S)
    = HLL_of_set small_set_size K Hash (S ∪ list_to_set xs)).
  { induction xs as [|x xs IH]; intros S; cbn [fold_left].
    - f_equal. set_solver.
    - rewrite insert_HLL_of_set, IH. f_equal. set_solver. }
  assert (E0 : HLL.empty = HLL_of_set small_set_size K Hash ∅).
  { unfold HLL_of_set. rewrite decide_True; [reflexivity|].
    rewrite size_empty. lia. }
  rewrite E0, G. f_equal. set_solver.
Qed.

Lemma merge_HLL_of_set (a b : gset Key) :
  HLL.merge small_set_size K Hash (HLL_of_set small_set_size K Hash a)
                                  (HLL_of_set small_set_size K Hash b)
  = HLL_of_set small_set_size K Hash (a ∪ b).
Proof.
  unfold HLL_of_set.
  destruct (decide (size a <= small_set_size)%nat) as [Ha|Ha],
           (decide (size b <= small_set_size)%nat) as [Hb|Hb];
    cbn [HLL.merge HLL.registers]; try reflexivity;
    (rewrite decide_False;
     [f_equal; symmetry; apply toLarge_union|
      intros Hc;
      first [apply Ha | apply Hb]; (etransitivity; [|exact Hc]);
      apply subseteq_size; set_solver]).
Qed.

Lemma stateOf_HLL_app (xs ys : list Key) :
  stateOf (HLL_Estimator_of writeKey readKey small_set_size K Hash estimate) (xs ++ ys)
  = set_merge (Estimator := HLL_Estimator_of writeKey readKey small_set_size K Hash estimate)
      (stateOf (HLL_Estimator_of writeKey readKey small_set_size K Hash estimate) xs)
      (stateOf (HLL_Estimator_of writeKey readKey small_set_size K Hash estimate) ys).
Proof.
  rewrite !stateOf_HLL_of_set. cbn [set_merge HLL_Estimator_of].
  rewrite merge_HLL_of_set, list_to_set_app_L. reflexivity.
Qed.

Lemma stateOf_HLL_same_set (xs ys : list Key) :
  (forall x, x ∈ xs <-> x ∈ ys) ->
  stateOf (HLL_Estimator_of writeKey readKey small_set_size K Hash estimate) xs
  = stateOf (HLL_Estimator_of writeKey readKey small_set_size K Hash estimate) ys.
Proof.
  intros Hs. rewrite !stateOf_HLL_of_set. f_equal.
  apply set_eq. intros x. rewrite !elem_of_list_to_set. apply Hs.
Qed.

End HLL_batches.

(** C5: [AggregateFunctionUniq::merge] on states built from inputs.  For
    the exact estimator it leaves the union of the key sets, which is the
    state of the inputs taken together; it is idempotent, commutative and
    associative, and the three groupings of three states have one size, the
    number of distinct inputs.  For the sampling and for the hybrid
    estimator it gives the state of the inputs taken together, the same
    state in either order and in the three groupings. *)
Theorem C5_merge :
  (forall (Key : Type) (EqDec : EqDecision Key) (Cnt : Countable Key)
          (writeKey : Key -> list byte)
          (readKey : list byte -> option (Key * list byte))
          (xs ys zs : list Key),
     let E := HashSet_Estimator writeKey readKey in
     let M := AggregateFunctionUniq.merge (E := E) in
     let A := stateOf E xs in
     let B := stateOf E ys in
     let C := stateOf E zs in
     HashSet.keys (M A B) = HashSet.keys A ∪ HashSet.keys B /\
     M A B = stateOf E (xs ++ ys) /\
     M A A = A /\
     M A B = M B A /\
     M (M A B) C = M A (M B C) /\
     finalize E (M (M A B) C) = finalize E (M A (M B C)) /\
     finalize E (M (M A B) C) = finalize E (M (M A C) B) /\
     finalize E (M (M A B) C)
     = [Z.of_nat (length (remove_dups (xs ++ ys ++ zs)))]) /\
  (forall (Hash : Z -> Z) (max_size : nat) (xs ys zs : list Z),
     (1 <= max_size)%nat -> (forall x, is_UInt64 (Hash x)) ->
     let E := UniquesHashSet_Estimator Hash max_size in
     let M := AggregateFunctionUniq.merge (E := E) in
     let A := stateOf E xs in
     let B := stateOf E ys in
     let C := stateOf E zs in
     M A B = stateOf E (xs ++ ys) /\
     M A B = M B A /\
     M (M A B) C = M A (M B C) /\
     M (M A B) C = M (M A C) B) /\
  (forall (Key : Type) (EqDec : EqDecision Key) (Cnt : Countable Key)
          (writeKey : Key -> list byte)
          (readKey : list byte -> option (Key * list byte))
          (small_set_size K : nat) (Hash : Key -> Z)
          (estimate : list Z -> Z) (xs ys zs : list Key),
     let E := HLL_Estimator_of writeKey readKey small_set_size K Hash
                               estimate in
     let M := AggregateFunctionUniq.merge (E := E) in
     let A := stateOf E xs in
     let B := stateOf E ys in
     let C := stateOf E zs in
     M A B = stateOf E (xs ++ ys) /\
     M A B = M B A /\
     M (M A B) C = M A (M B C) /\
     M (M A B) C = M (M A C) B).
Proof.
  split; [|split].
  - intros Key EqDec Cnt writeKey readKey xs ys zs E M A B C.
    assert (WA : HashSet_wf A) by apply stateOf_HashSet_wf.
    assert (WB : HashSet_wf B) by apply stateOf_HashSet_wf.
    assert (WC : HashSet_wf C) by apply stateOf_HashSet_wf.
    subst M. unfold AggregateFunctionUniq.merge.
    cbn [set_merge E HashSet_Estimator].
    assert (Hassoc := HashSet_merge_assoc A B C WA WB).
    split; [apply HashSet_keys_merge; assumption|].
    split; [symmetry; apply (stateOf_HashSet_app writeKey readKey)|].
    split; [apply HashSet_merge_idemp; assumption|].
    split; [apply HashSet_merge_comm; assumption|].
    split; [assumption|]. split; [rewrite Hassoc; reflexivity|].
    split.
    + rewrite Hassoc, (HashSet_merge_comm B C) by assumption.
      rewrite <- HashSet_merge_assoc by assumption. reflexivity.
    + pose proof (stateOf_HashSet_app writeKey readKey xs ys) as E1.
      pose proof (stateOf_HashSet_app writeKey readKey (xs ++ ys) zs) as E2.
      cbn [set_merge HashSet_Estimator] in E1, E2.
      fold E in E1, E2. fold A B in E1. rewrite E1 in E2. fold C in E2.
      rewrite <- E2, <- app_assoc.
      unfold finalize, AggregateFunctionUniq.insertResultInto.
      cbn [app set_size E HashSet_Estimator]. unfold HashSet.size.
      pose proof (stateOf_HashSet_wf writeKey readKey (xs ++ ys ++ zs)) as W.
      unfold HashSet_wf in W. fold E in W. rewrite W.
      unfold E. rewrite (stateOf_HashSet_keys writeKey readKey).
      rewrite size_list_to_set_remove_dups. reflexivity.
  - intros Hash max_size xs ys zs Hm HH E M A B C.
    assert (WA : UniquesHashSet_wf max_size A)
      by (apply stateOf_UniquesHashSet_wf; assumption).
    assert (WB : UniquesHashSet_wf max_size B)
      by (apply stateOf_UniquesHashSet_wf; assumption).
    assert (WC : UniquesHashSet_wf max_size C)
      by (apply stateOf_UniquesHashSet_wf; assumption).
    subst M. unfold AggregateFunctionUniq.merge.
    split; [symmetry; apply stateOf_UniquesHashSet_app; assumption|].
    cbn [set_merge E UniquesHashSet_Estimator].
    split; [apply UniquesHashSet_merge_comm; assumption|].
    split; [apply UniquesHashSet_merge_assoc | apply UniquesHashSet_merge_swap];
      assumption.
  - intros Key EqDec Cnt writeKey readKey small_set_size K Hash estimate
           xs ys zs E M A B C.
    subst M. unfold AggregateFunctionUniq.merge.
    split; [symmetry; apply stateOf_HLL_app|].
    cbn [set_merge E HLL_Estimator_of].
    split; [apply HLL_merge_comm|].
    split; [apply HLL_merge_assoc | apply HLL_merge_swap].
Qed.

Lemma C5_merge_witness :
  let E := UniquesHashSet_Estimator (fun x => x mod 2 ^ 64) 2 in
  let M := AggregateFunctionUniq.merge (E := E) in
  let A := stateOf E [1; 4] in
  let B := stateOf E [8; 12] in
  let C := stateOf E [3; 16] in
  M A B = stateOf E ([1; 4] ++ [8; 12]) /\
  M A B = M B A /\
  M (M A B) C = M A (M B C) /\
  M (M A B) C = M (M A C) B.
Proof.
  apply (proj1 (proj2 C5_merge) (fun x => x mod 2 ^ 64) 2%nat
           [1; 4] [8; 12] [3; 16]).
  - lia.
  - intros x. unfold is_UInt64. apply Z.mod_pos_bound. lia.
Defined.

(** ** C6: writing and reading back *)

Lemma readIntBinary_writeIntBinary (width : nat) (x : Z) (rest : list byte) :
  0 <= x < 2 ^ (8 * Z.of_nat width) ->
  readIntBinary width (writeIntBinary width x ++ rest) = Some (x, rest).
Proof.
  intros Hx. unfold readIntBinary, writeIntBinary.
  pose proof (length_le_split width x) as Hlen.
  replace (width <=? length (le_split width x ++ rest))%nat with true
    by (symmetry; apply Nat.leb_le; rewrite length_app; lia).
  rewrite take_app_length', drop_app_length' by (symmetry; assumption).
  rewrite le_combine_split, Z.mod_small
    by (rewrite Z.mul_comm; assumption).
  reflexivity.
Qed.

Lemma readIntBinary_writeIntBinary_8 (x : Z) (rest : list byte) :
  is_UInt64 x -> readIntBinary 8 (writeIntBinary 8 x ++ rest) = Some (x, rest).
Proof. intros Hx. apply readIntBinary_writeIntBinary. exact Hx. Qed.

Lemma readIntBinary_writeIntBinary_1 (x : Z) (rest : list byte) :
  0 <= x < 256 -> readIntBinary 1 (writeIntBinary 1 x ++ rest) = Some (x, rest).
Proof. intros Hx. apply readIntBinary_writeIntBinary. exact Hx. Qed.

Lemma readMany_flat_map {A : Type} (writeOne : A -> list byte)
    (readOne : list byte -> option (A * list byte)) (l : list A)
    (rest : list byte) :
  (forall x, x ∈ l -> forall r, readOne (writeOne x ++ r) = Some (x, r)) ->
  readMany readOne (length l) (flat_map writeOne l ++ rest) = Some (l, rest).
Proof.
  induction l as [|x l IH]; intros Hl; cbn [length flat_map readMany];
    [reflexivity|].
  rewrite <- app_assoc, Hl by (left; reflexivity).
  rewrite IH by (intros y Hy; apply Hl; right; assumption).
  reflexivity.
Qed.

Lemma readUInt128_writeUInt128 (key : UInt128) (rest : list byte) :
  is_UInt128 key -> readUInt128 (writeUInt128 key ++ rest) = Some (key, rest).
Proof.
  destruct key as [l h]. intros [Hl Hh]. cbn [low high] in *.
  unfold readUInt128, writeUInt128. cbn [low high].
  rewrite <- app_assoc.
  rewrite !readIntBinary_writeIntBinary_8 by assumption. reflexivity.
Qed.

Lemma readMany_elements (U : gset Z) (rest : list byte) :
  (forall h, h ∈ U -> is_UInt64 h) ->
  readMany (readIntBinary 8) (size U)
    (flat_map (writeIntBinary 8) (elements U) ++ rest)
  = Some (elements U, rest).
Proof.
  intros HU. unfold size, fin_sets.set_size. cbn [compose].
  apply readMany_flat_map. intros h Hh%elem_of_elements r.
  apply readIntBinary_writeIntBinary_8. apply HU. assumption.
Qed.

Lemma HashSet_read_write {Key : Type} `{Countable Key}
    (writeKey : Key -> list byte)
    (readKey : list byte -> option (Key * list byte))
    (s : HashSet.t Key) (rest : list byte) :
  HashSet_serializable writeKey readKey s ->
  HashSet.read readKey (HashSet.write writeKey s ++ rest) = Some (s, rest).
Proof.
  intros (Hwf & Hsize & Hkeys). unfold HashSet.read, HashSet.write.
  rewrite <- app_assoc, readIntBinary_writeIntBinary_8 by assumption.
  rewrite Hwf, Nat2Z.id. unfold size at 1, fin_sets.set_size. cbn [compose].
  rewrite readMany_flat_map
    by (intros k Hk%elem_of_elements; apply Hkeys; assumption).
  f_equal. f_equal.
  destruct (HashSet_fold_insert (elements (HashSet.keys s)) HashSet.empty
              HashSet_wf_empty) as [Hw Hk].
  apply HashSet_ext; [assumption | assumption |].
  rewrite Hk, list_to_set_elements_L. cbn. set_solver.
Qed.

Lemma UniquesHashSet_read_write (max_size : nat) (s : UniquesHashSet.t)
    (rest : list byte) :
  UniquesHashSet_wf max_size s -> Z.of_nat max_size < 2 ^ 64 ->
  UniquesHashSet.read (UniquesHashSet.write s ++ rest) = Some (s, rest).
Proof.
  intros (Hd & Hg & Hs) Hmax. destruct s as [d U].
  cbn [UniquesHashSet.skip_degree UniquesHashSet.table] in *.
  unfold UniquesHashSet.read, UniquesHashSet.write.
  cbn [UniquesHashSet.skip_degree UniquesHashSet.table].
  rewrite <- !app_assoc.
  rewrite readIntBinary_writeIntBinary_1 by lia.
  rewrite readIntBinary_writeIntBinary_8 by (unfold is_UInt64; lia).
  rewrite !Nat2Z.id.
  rewrite readMany_elements by (intros h Hh; apply Hg; assumption).
  rewrite list_to_set_elements_L. reflexivity.
Qed.

Lemma HLL_read_write (small_set_size K : nat) (s : HLL.t Z)
    (rest : list byte) :
  HLL_wf small_set_size K s -> Z.of_nat small_set_size < 2 ^ 64 ->
  HLL.read K (readIntBinary 8) (HLL.write (writeIntBinary 8) s ++ rest)
  = Some (s, rest).
Proof.
  intros Hwf Hsmall. destruct s as [a|R]; cbn [HLL_wf] in Hwf;
    unfold HLL.read, HLL.write; rewrite <- !app_assoc;
    rewrite readIntBinary_writeIntBinary_1 by lia.
  - destruct Hwf as [Ha Hs]. cbn [Z.eqb].
    rewrite readIntBinary_writeIntBinary_8 by (unfold is_UInt64; lia).
    rewrite Nat2Z.id, readMany_elements by assumption.
    rewrite list_to_set_elements_L. reflexivity.
  - destruct Hwf as [Hlen HR]. cbn [Z.eqb Pos.eqb]. rewrite <- Hlen.
    rewrite readMany_flat_map; [reflexivity|].
    intros r Hr rest'. apply readIntBinary_writeIntBinary_1.
    rewrite Forall_forall in HR. apply HR. assumption.
Qed.

(** C6: for each of the three estimators, reading back what [serialize]
    wrote for a well-formed state gives that very state, with nothing left
    to read; so the state read has the size of the one written and merges
    with any third state, on either side, as the one written does. *)
Theorem C6_round_trip :
  (forall (Key : Type) (EqDec : EqDecision Key) (Cnt : Countable Key)
          (writeKey : Key -> list byte)
          (readKey : list byte -> option (Key * list byte))
          (s : HashSet.t Key),
     HashSet_serializable writeKey readKey s ->
     let E := HashSet_Estimator writeKey readKey in
     exists s',
       AggregateFunctionUniq.deserialize (E := E)
         (AggregateFunctionUniq.serialize (E := E) s []) = Some (s', []) /\
       s' = s /\ set_size s' = set_size s /\
       forall t, set_merge s' t = set_merge s t /\
                 set_merge t s' = set_merge t s) /\
  (forall (Hash : Z -> Z) (max_size : nat) (s : UniquesHashSet.t),
     UniquesHashSet_wf max_size s -> Z.of_nat max_size < 2 ^ 64 ->
     let E := UniquesHashSet_Estimator Hash max_size in
     exists s',
       AggregateFunctionUniq.deserialize (E := E)
         (AggregateFunctionUniq.serialize (E := E) s []) = Some (s', []) /\
       s' = s /\ set_size s' = set_size s /\
       forall t, set_merge s' t = set_merge s t /\
                 set_merge t s' = set_merge t s) /\
  (forall (small_set_size K : nat) (Hash : Z -> Z) (estimate : list Z -> Z)
          (s : HLL.t Z),
     HLL_wf small_set_size K s -> Z.of_nat small_set_size < 2 ^ 64 ->
     let E := HLL_Estimator small_set_size K Hash estimate in
     exists s',
       AggregateFunctionUniq.deserialize (E := E)
         (AggregateFunctionUniq.serialize (E := E) s []) = Some (s', []) /\
       s' = s /\ set_size s' = set_size s /\
       forall t, set_merge s' t = set_merge s t /\
                 set_merge t s' = set_merge t s).
Proof.
  split; [|split].
  - intros Key EqDec Cnt writeKey readKey s Hs E. exists s.
    split; [|repeat split].
    unfold AggregateFunctionUniq.deserialize, AggregateFunctionUniq.serialize.
    cbn [set_read set_write E HashSet_Estimator app].
    rewrite <- (app_nil_r (HashSet.write writeKey s)).
    apply HashSet_read_write. assumption.
  - intros Hash max_size s Hs Hmax E. exists s.
    split; [|repeat split].
    unfold AggregateFunctionUniq.deserialize, AggregateFunctionUniq.serialize.
    cbn [set_read set_write E UniquesHashSet_Estimator app].
    rewrite <- (app_nil_r (UniquesHashSet.write s)).
    apply UniquesHashSet_read_write with max_size; assumption.
  - intros small_set_size K Hash estimate s Hs Hsmall E. exists s.
    split; [|repeat split].
    unfold AggregateFunctionUniq.deserialize, AggregateFunctionUniq.serialize.
    cbn [set_read set_write E HLL_Estimator HLL_Estimator_of app].
    rewrite <- (app_nil_r (HLL.write (writeIntBinary 8) s)).
    apply HLL_read_write with small_set_size; assumption.
Qed.

Lemma C6_round_trip_witness :
  let E := UniquesHashSet_Estimator (fun x => x mod 2 ^ 64) 2 in
  let s := stateOf E [1; 4; 8; 12] in
  exists s',
    AggregateFunctionUniq.deserialize (E := E)
      (AggregateFunctionUniq.serialize (E := E) s []) = Some (s', []) /\
    s' = s /\ set_size s' = set_size s /\
    forall t, set_merge s' t = set_merge s t /\
              set_merge t s' = set_merge t s.
Proof.
  apply (proj1 (proj2 C6_round_trip) (fun x => x mod 2 ^ 64) 2%nat
           (stateOf (UniquesHashSet_Estimator (fun x => x mod 2 ^ 64) 2)
                    [1; 4; 8; 12])).
  - apply stateOf_UniquesHashSet_wf; [lia|].
    intros x. unfold is_UInt64. apply Z.mod_pos_bound. lia.
  - cbn. lia.
Defined.

(** ** C10: floating-point values on the approximate paths *)

(** Two well-formed floats of one width with different fields have different
    keys. *)
Lemma float_keys_distinct sipHash64 DefaultHash64 (f g : Float) :
  f <> g ->
  (is_Float 11 52 f -> is_Float 11 52 g ->
   AggregateFunctionUniqTraits.hash sipHash64 DefaultHash64 (Float64 f)
   <> AggregateFunctionUniqTraits.hash sipHash64 DefaultHash64 (Float64 g)) /\
  (is_Float 8 23 f -> is_Float 8 23 g ->
   AggregateFunctionUniqTraits.hash sipHash64 DefaultHash64 (Float32 f)
   <> AggregateFunctionUniqTraits.hash sipHash64 DefaultHash64 (Float32 g)).
Proof.
  intros Hne. unfold AggregateFunctionUniqTraits.hash. split; intros Wf Wg E.
  - rewrite !bit_cast_Float64 in E by assumption.
    apply Hne. apply (bit_pattern_injective 11 52); (lia || assumption).
  - rewrite !bit_cast_Float32 in E by assumption.
    apply Hne. apply (bit_pattern_injective 8 23); (lia || assumption).
Qed.


Lemma shrink_within_bound (max_size fuel : nat) (s : UniquesHashSet.t) :
  (size (table s) <= max_size)%nat -> UniquesHashSet.shrink max_size fuel s = s.
Proof.
  intros Hsize. destruct fuel as [|fuel]; cbn [UniquesHashSet.shrink];
    [reflexivity|].
  rewrite decide_True by assumption. reflexivity.
Qed.

(** At skip degree 0 every hash passes; below the bound it is retained. *)
Lemma UniquesHashSet_insert_degree_0 (Hash : Z -> Z) (max_size : nat) (x : Z)
    (U : gset Z) :
  (size ({[Hash x]} ∪ U) <= max_size)%nat ->
  UniquesHashSet.insert Hash max_size x
    {| UniquesHashSet.skip_degree := 0; UniquesHashSet.table := U |}
  = {| UniquesHashSet.skip_degree := 0;
       UniquesHashSet.table := {[Hash x]} ∪ U |}.
Proof.
  intros Hsize. unfold UniquesHashSet.insert, UniquesHashSet.insertHash.
  cbn [UniquesHashSet.skip_degree UniquesHashSet.table].
  rewrite decide_True by apply good_0.
  unfold UniquesHashSet.shrinkIfNeed. apply shrink_within_bound. assumption.
Qed.

(** Two rows with different keys: uniq reports 2 when the hash of the set
    tells the keys apart and the set may retain two hashes. *)
Lemma uniq_two_rows DefaultHash max_size sipHash64 DefaultHash64
    (x y : Number) :
  (2 <= max_size)%nat ->
  DefaultHash (AggregateFunctionUniqTraits.hash sipHash64 DefaultHash64 x)
  <> DefaultHash (AggregateFunctionUniqTraits.hash sipHash64 DefaultHash64 y) ->
  finalize (UniqSet DefaultHash max_size)
    (uniq_Number (UniqSet DefaultHash max_size) sipHash64 DefaultHash64 [x; y])
  = [2].
Proof.
  intros Hmax Hne. unfold finalize, uniq_Number, UniqSet.
  cbn -[AggregateFunctionUniqTraits.hash UniquesHashSet.insert
        UniquesHashSet.size].
  set (h1 := AggregateFunctionUniqTraits.hash sipHash64 DefaultHash64 x) in *.
  set (h2 := AggregateFunctionUniqTraits.hash sipHash64 DefaultHash64 y) in *.
  unfold UniquesHashSet.empty.
  rewrite UniquesHashSet_insert_degree_0
    by (rewrite size_union, size_singleton, size_empty by set_solver; lia).
  rewrite UniquesHashSet_insert_degree_0
    by (rewrite !size_union, !size_singleton, size_empty by set_solver; lia).
  unfold UniquesHashSet.size.
  cbn [UniquesHashSet.skip_degree UniquesHashSet.table].
  rewrite !size_union, !size_singleton, size_empty by set_solver.
  reflexivity.
Qed.

(** The rows of a numeric column enter the set as their keys, in turn. *)
Lemma uniq_Number_stateOf {Set_ : Type} (E : Estimator Set_ Z)
    sipHash64 DefaultHash64 (rows : list Number) :
  uniq_Number E sipHash64 DefaultHash64 rows
  = stateOf E
      (map (AggregateFunctionUniqTraits.hash sipHash64 DefaultHash64) rows).
Proof.
  unfold uniq_Number. rewrite addBatchSinglePlace_rows.
  pose proof (fold_rows
    (fun place x =>
       set_insert (AggregateFunctionUniqTraits.hash sipHash64 DefaultHash64 x)
                  place)
    (Int UInt8 0) [] rows (set_empty (Estimator := E))) as Hfold.
  cbn [app length] in Hfold. unfold OneAdder.add_hashed.
  unfold AggregateFunctionUniq.create. rewrite Hfold. clear Hfold.
  unfold stateOf. generalize (set_empty (Estimator := E)).
  induction rows as [|x rows IH]; intros s0; cbn [map fold_left];
    [reflexivity | apply IH].
Qed.

(** While the distinct values fit the small set, the hybrid estimator holds
    exactly the values inserted. *)
Lemma HLL_small_exact small_set_size K Hash estimate (xs : list Z) :
  (size (list_to_set xs : gset Z) <= small_set_size)%nat ->
  stateOf (HLL_Estimator small_set_size K Hash estimate) xs
  = HLL.Small (list_to_set xs).
Proof.
  intros Hsize. unfold stateOf, HLL.empty.
  cbn [set_insert set_empty HLL_Estimator HLL_Estimator_of]. unfold HLL.empty.
  assert (G : forall (S : gset Z),
            (size (S ∪ list_to_set xs) <= small_set_size)%nat ->
            fold_left (fun s x => HLL.insert small_set_size K Hash x s) xs
                      (HLL.Small S)
            = HLL.Small (S ∪ list_to_set xs)).
  { clear Hsize. induction xs as [|x xs IH]; intros S HS; cbn [fold_left].
    - f_equal. set_solver.
    - rewrite list_to_set_cons in HS. cbn [HLL.insert].
      destruct (decide (x ∈ S)) as [Hin|Hnin].
      + rewrite IH by (replace (S ∪ list_to_set xs)
                         with (S ∪ ({[x]} ∪ list_to_set xs)) by set_solver;
                       exact HS).
        f_equal. set_solver.
      + rewrite decide_True.
        * rewrite IH by (replace ({[x]} ∪ S ∪ list_to_set xs)
                           with (S ∪ ({[x]} ∪ list_to_set xs)) by set_solver;
                         exact HS).
          f_equal. set_solver.
        * replace (size S + 1)%nat with (size ({[x]} ∪ S))
            by (rewrite size_union, size_singleton by set_solver; lia).
          etransitivity; [|exact HS]. apply subseteq_size. set_solver. }
  rewrite G by (replace (∅ ∪ list_to_set xs) with (list_to_set xs : gset Z)
                  by set_solver; exact Hsize).
  f_equal. set_solver.
Qed.

(** While the distinct hashes fit the bound, the sampling estimator stays at
    skip degree 0 and holds exactly the hashes of the values inserted. *)
Lemma UniquesHashSet_degree_0_exact Hash max_size (xs : list Z) :
  (size (list_to_set (map Hash xs) : gset Z) <= max_size)%nat ->
  stateOf (UniquesHashSet_Estimator Hash max_size) xs
  = {| UniquesHashSet.skip_degree := 0;
       UniquesHashSet.table := list_to_set (map Hash xs) |}.
Proof.
  intros Hsize. unfold stateOf.
  cbn [set_insert set_empty UniquesHashSet_Estimator].
  unfold UniquesHashSet.empty.
  assert (G : forall (S : gset Z),
            (size (S ∪ list_to_set (map Hash xs)) <= max_size)%nat ->
            fold_left (fun s x => UniquesHashSet.insert Hash max_size x s) xs
              {| UniquesHashSet.skip_degree := 0; UniquesHashSet.table := S |}
            = {| UniquesHashSet.skip_degree := 0;
                 UniquesHashSet.table := S ∪ list_to_set (map Hash xs) |}).
  { clear Hsize. induction xs as [|x xs IH]; intros S HS;
      cbn [fold_left map].
    - f_equal. set_solver.
    - cbn [map] in HS. rewrite list_to_set_cons in HS.
      rewrite UniquesHashSet_insert_degree_0
        by (etransitivity; [|exact HS]; apply subseteq_size; set_solver).
      rewrite IH by (replace ({[Hash x]} ∪ S ∪ list_to_set (map Hash xs))
                       with (S ∪ ({[Hash x]} ∪ list_to_set (map Hash xs)))
                       by set_solver; exact HS).
      f_equal. set_solver. }
  rewrite G by (replace (∅ ∪ list_to_set (map Hash xs))
                  with (list_to_set (map Hash xs) : gset Z) by set_solver;
                exact Hsize).
  f_equal. set_solver.
Qed.

(** *** uniqHLL12 over a column of a numeric type *)

Lemma uniqHLL12_Number_stateOf {Set_ : Type} (E : Estimator Set_ Number)
    (T : NumberType) sipHash64 DefaultHash64 (rows : list Number) :
  uniqHLL12_Number E T sipHash64 DefaultHash64 rows
  = stateOf E (map (HLL12_key T sipHash64 DefaultHash64) rows).
Proof.
  unfold uniqHLL12_Number. rewrite addBatchSinglePlace_rows.
  unfold OneAdder.add_hashed, AggregateFunctionUniq.create, stateOf.
  rewrite (fold_rows
    (fun place x => set_insert (HLL12_key T sipHash64 DefaultHash64 x) place)
    (Int UInt8 0) [] rows (set_empty (Estimator := E))).
  generalize (set_empty (Estimator := E)).
  induction rows as [|x rows IH]; intros s0; cbn [map fold_left];
    [reflexivity | apply IH].
Qed.

Lemma HLL_small_exact_of {Key : Type} `{Countable Key}
    (writeKey : Key -> list byte)
    (readKey : list byte -> option (Key * list byte))
    small_set_size K Hash estimate (xs : list Key) :
  (size (list_to_set xs : gset Key) <= small_set_size)%nat ->
  stateOf (HLL_Estimator_of writeKey readKey small_set_size K Hash estimate)
          xs
  = HLL.Small (list_to_set xs).
Proof.
  intros Hsize. rewrite stateOf_HLL_of_set. unfold HLL_of_set.
  rewrite decide_True by exact Hsize. reflexivity.
Qed.

Lemma uniqHLL12_small writeKey readKey Hash estimate (T : NumberType)
    sipHash64 DefaultHash64 (rows : list Number) :
  let keys := map (HLL12_key T sipHash64 DefaultHash64) rows in
  (length (remove_dups keys) <= 16)%nat ->
  finalize (HLL12SetOf writeKey readKey Hash estimate)
    (uniqHLL12_Number (HLL12SetOf writeKey readKey Hash estimate) T
                      sipHash64 DefaultHash64 rows)
  = [Z.of_nat (length (remove_dups keys))].
Proof.
  intros keys Hsize.
  rewrite <- size_list_to_set_remove_dups in *.
  rewrite uniqHLL12_Number_stateOf. fold keys. unfold HLL12SetOf.
  rewrite HLL_small_exact_of by exact Hsize. reflexivity.
Qed.

Lemma uniqHLL12_two_rows writeKey readKey Hash estimate (T : NumberType)
    sipHash64 DefaultHash64 (x y : Number) :
  finalize (HLL12SetOf writeKey readKey Hash estimate)
    (uniqHLL12_Number (HLL12SetOf writeKey readKey Hash estimate) T
                      sipHash64 DefaultHash64 [x; y])
  = [if decide (HLL12_key T sipHash64 DefaultHash64 x
                = HLL12_key T sipHash64 DefaultHash64 y) then 1 else 2].
Proof.
  assert (L : forall a b : Number,
            length (remove_dups [a; b])
            = if decide (a = b) then 1%nat else 2%nat).
  { intros a b. cbn [remove_dups].
    destruct (decide_rel elem_of a [b]) as [Hin|Hnin];
      destruct (decide (a = b)) as [Heq|Hne]; try reflexivity.
    - apply list_elem_of_singleton in Hin. contradiction.
    - exfalso. apply Hnin. apply list_elem_of_singleton. exact Heq. }
  rewrite uniqHLL12_small.
  - cbn [map]. rewrite L. case_decide; reflexivity.
  - cbn [map]. rewrite L. case_decide; lia.
Qed.

(** *** The conversion of a bit pattern to its floating-point type *)

(** The conversion drops the low bits of a large value: adding less than
    half a unit of the last place to a value that the type represents
    changes nothing. *)
Lemma UInt64_to_Float_low_bits (ebits fbits e base p : Z) :
  0 <= fbits < e ->
  2 ^ e <= base < 2 ^ (e + 1) ->
  base mod 2 ^ (e - fbits) = 0 ->
  0 <= p < 2 ^ (e - fbits - 1) ->
  UInt64_to_Float ebits fbits (base + p) = UInt64_to_Float ebits fbits base.
Proof.
  intros Hf Hb Hmod Hp.
  assert (P0 : 0 < 2 ^ e) by (apply Z.pow_pos_nonneg; lia).
  assert (Ph : 0 < 2 ^ (e - fbits - 1)) by (apply Z.pow_pos_nonneg; lia).
  assert (Ps : 2 ^ (e - fbits) = 2 * 2 ^ (e - fbits - 1)).
  { replace (e - fbits) with (1 + (e - fbits - 1)) at 1 by lia.
    rewrite Z.pow_add_r by lia. reflexivity. }
  assert (Pe : 2 ^ (e + 1) = 2 ^ e * 2)
    by (rewrite Z.pow_add_r by lia; reflexivity).
  assert (Hle : 2 ^ (e - fbits) <= 2 ^ e)
    by (apply Z.pow_le_mono_r; lia).
  apply Z.mod_divide in Hmod; [|lia]. destruct Hmod as [k Hk].
  assert (Hlt : base + p < 2 ^ (e + 1)).
  { assert (k * 2 ^ (e - fbits) < 2 ^ fbits * 2 * 2 ^ (e - fbits)).
    { rewrite <- Hk. replace (2 ^ fbits * 2 * 2 ^ (e - fbits))
        with (2 ^ (e + 1)); [lia|].
      replace (e + 1) with (fbits + 1 + (e - fbits)) by lia.
      rewrite !Z.pow_add_r by lia. reflexivity. }
    assert (k < 2 ^ fbits * 2) by nia.
    assert (2 ^ (e + 1) = 2 ^ fbits * 2 * 2 ^ (e - fbits)).
    { replace (e + 1) with (fbits + 1 + (e - fbits)) by lia.
      rewrite !Z.pow_add_r by lia. reflexivity. }
    nia. }
  assert (L1 : Z.log2 (base + p) = e) by (apply Z.log2_unique; lia).
  assert (L2 : Z.log2 base = e) by (apply Z.log2_unique; lia).
  unfold UInt64_to_Float.
  replace (base + p =? 0) with false by (symmetry; apply Z.eqb_neq; lia).
  replace (base =? 0) with false by (symmetry; apply Z.eqb_neq; lia).
  rewrite L1, L2.
  replace (e <=? fbits) with false by (symmetry; apply Z.leb_gt; lia).
  cbv zeta.
  assert (Q1 : Z.shiftr (base + p) (e - fbits) = k).
  { rewrite Z.shiftr_div_pow2 by lia. rewrite Hk.
    rewrite Z.add_comm, Z.div_add by lia.
    rewrite Z.div_small by lia. reflexivity. }
  assert (Q2 : Z.shiftr base (e - fbits) = k).
  { rewrite Z.shiftr_div_pow2 by lia. rewrite Hk.
    apply Z.div_mul. lia. }
  assert (R1 : Z.land (base + p) (Z.ones (e - fbits)) = p).
  { rewrite Z.land_ones by lia. rewrite Hk.
    rewrite Z.add_comm, Z.mod_add by lia. apply Z.mod_small. lia. }
  assert (R2 : Z.land base (Z.ones (e - fbits)) = 0).
  { rewrite Z.land_ones by lia. rewrite Hk. apply Z.mod_mul. lia. }
  rewrite Q1, Q2, R1, R2.
  replace (2 ^ (e - fbits - 1) <? p) with false
    by (symmetry; apply Z.ltb_ge; lia).
  replace (p =? 2 ^ (e - fbits - 1)) with false
    by (symmetry; apply Z.eqb_neq; lia).
  replace (2 ^ (e - fbits - 1) <? 0) with false
    by (symmetry; apply Z.ltb_ge; lia).
  replace (0 =? 2 ^ (e - fbits - 1)) with false
    by (symmetry; apply Z.eqb_neq; lia).
  reflexivity.
Qed.

Lemma HLL12_key_Float64 sipHash64 DefaultHash64 (f : Float) :
  is_Float 11 52 f ->
  HLL12_key TFloat64 sipHash64 DefaultHash64 (Float64 f)
  = Float64 (UInt64_to_Float 11 52 (bit_pattern 11 52 f)).
Proof.
  intros W. unfold HLL12_key, AggregateFunctionUniqTraits.hash.
  rewrite bit_cast_Float64 by assumption. reflexivity.
Qed.

Lemma HLL12_key_Float32 sipHash64 DefaultHash64 (f : Float) :
  is_Float 8 23 f ->
  HLL12_key TFloat32 sipHash64 DefaultHash64 (Float32 f)
  = Float32 (UInt64_to_Float 8 23 (bit_pattern 8 23 f)).
Proof.
  intros W. unfold HLL12_key, AggregateFunctionUniqTraits.hash.
  rewrite bit_cast_Float32 by assumption. reflexivity.
Qed.

Lemma NaN64_converted (s : bool) (p : Z) :
  0 <= p < 2 ^ 9 ->
  UInt64_to_Float 11 52 (bit_pattern 11 52 (NaN64 s p))
  = UInt64_to_Float 11 52 (bit_pattern 11 52 (NaN64 s 0)).
Proof.
  intros Hp. unfold bit_pattern, NaN64. cbn [sign exponent fraction].
  rewrite (Z.add_0_r (Z.b2z s * 2 ^ (11 + 52) + 2047 * 2 ^ 52)).
  destruct s; cbn [Z.b2z].
  - apply (UInt64_to_Float_low_bits 11 52 63); [lia | lia | reflexivity | lia].
  - apply (UInt64_to_Float_low_bits 11 52 62); [lia | lia | reflexivity | lia].
Qed.

Lemma NaN32_converted (s : bool) (p : Z) :
  0 <= p < 2 ^ 6 ->
  UInt64_to_Float 8 23 (bit_pattern 8 23 (NaN32 s p))
  = UInt64_to_Float 8 23 (bit_pattern 8 23 (NaN32 s 0)).
Proof.
  intros Hp. unfold bit_pattern, NaN32. cbn [sign exponent fraction].
  rewrite (Z.add_0_r (Z.b2z s * 2 ^ (8 + 23) + 255 * 2 ^ 23)).
  destruct s; cbn [Z.b2z].
  - apply (UInt64_to_Float_low_bits 8 23 31); [lia | lia | reflexivity | lia].
  - apply (UInt64_to_Float_low_bits 8 23 30); [lia | lia | reflexivity | lia].
Qed.

(** C10 (failing input): uniqHLL12 over a [Float64] column with two rows,
    the quiet NaNs of bit patterns 0x7FF8000000000001 and 0x7FF8000000000002.
    The hash keeps the two apart, and uniqHLL12 reports one value: the two
    bit patterns are converted to the same [Float64] when they enter the
    set, whatever the hash function and the estimator of the set. *)
Theorem C10_nan_payloads_collapse :
  forall (sipHash64 : UInt128 -> Z) (DefaultHash64 : Number -> Z)
         (writeKey : Number -> list byte)
         (readKey : list byte -> option (Number * list byte))
         (Hash : Number -> Z) (estimate : list Z -> Z),
    let x := Float64 (NaN64 false (2 ^ 51 + 1)) in
    let y := Float64 (NaN64 false (2 ^ 51 + 2)) in
    let E := HLL12SetOf writeKey readKey Hash estimate in
    bit_pattern 11 52 (NaN64 false (2 ^ 51 + 1)) = 0x7FF8000000000001 /\
    bit_pattern 11 52 (NaN64 false (2 ^ 51 + 2)) = 0x7FF8000000000002 /\
    AggregateFunctionUniqTraits.hash sipHash64 DefaultHash64 x
    <> AggregateFunctionUniqTraits.hash sipHash64 DefaultHash64 y /\
    finalize E (uniqHLL12_Number E TFloat64 sipHash64 DefaultHash64 [x; y])
    = [1].
Proof.
  intros sipHash64 DefaultHash64 writeKey readKey Hash estimate x y E.
  split; [reflexivity|]. split; [reflexivity|]. split.
  - apply float_keys_distinct; [discriminate | |];
      unfold is_Float, NaN64; cbn [exponent fraction]; lia.
  - subst E x y. rewrite uniqHLL12_two_rows. rewrite decide_True; [reflexivity|].
    rewrite !HLL12_key_Float64
      by (unfold is_Float, NaN64; cbn [exponent fraction]; lia).
    vm_compute. reflexivity.
Qed.


(** * Further properties of the key encoders and of the adders *)

(** ** The mix *)

Lemma unmix_range key :
  is_UInt64 (low key) -> is_UInt64 (high key) ->
  is_UInt64 (low (unmix key)) /\ high (unmix key) = high key.
Proof.
  intros Hl Hh. unfold unmix. cbn [low high]. split; [|reflexivity].
  apply xorshift33_range, UInt64_mul_range.
Qed.

Lemma mix_range key :
  is_UInt64 (low key) -> is_UInt64 (high key) ->
  is_UInt64 (low (mix key)) /\ high (mix key) = high key.
Proof.
  intros Hl Hh. rewrite mix_unfold. cbn [low high]. split; [|reflexivity].
  apply xorshift33_range, UInt64_mul_range.
Qed.

Lemma mix_unmix key :
  is_UInt64 (low key) -> is_UInt64 (high key) -> mix (unmix key) = key.
Proof.
  destruct key as [l h]. rewrite mix_unfold. unfold unmix. cbn [low high].
  intros Hl Hh.
  rewrite xorshift33_involutive by apply UInt64_mul_range.
  rewrite UInt64_mul_inverse;
    [| apply lxor_range; [apply xorshift33_range, UInt64_mul_range | assumption]
     | vm_compute; reflexivity].
  rewrite Z.lxor_assoc, Z.lxor_nilpotent, Z.lxor_0_r.
  rewrite xorshift33_involutive by apply UInt64_mul_range.
  rewrite UInt64_mul_inverse;
    [| apply xorshift33_range; assumption | vm_compute; reflexivity].
  rewrite xorshift33_involutive by assumption.
  reflexivity.
Qed.

(** X1: the "very light bijective hashing" is a bijection of the 128-bit keys
    with 64-bit halves: it keeps the halves 64 bits wide, leaves the high
    half untouched, and [unmix] undoes it on either side. *)
Theorem X1_mix_bijection :
  forall key : UInt128,
    is_UInt128 key ->
    is_UInt128 (mix key) /\ high (mix key) = high key /\
    unmix (mix key) = key /\ mix (unmix key) = key.
Proof.
  intros key [Hl Hh].
  destruct (mix_range key Hl Hh) as [Rl Rh].
  split; [split; [exact Rl | rewrite Rh; exact Hh]|].
  split; [exact Rh|].
  split; [apply unmix_mix | apply mix_unmix]; assumption.
Qed.

Lemma X1_mix_bijection_witness :
  let key := {| low := 0x6261; high := 0x8000000000000001 |} in
  is_UInt128 (mix key) /\ high (mix key) = high key /\
  unmix (mix key) = key /\ mix (unmix key) = key.
Proof.
  apply (X1_mix_bijection {| low := 0x6261; high := 0x8000000000000001 |}).
  unfold is_UInt128, is_UInt64. cbn. lia.
Defined.

(** ** The table of shuffle masks *)

(** X2: row [n] of [masks], for [n] from 0 to 15, selects the bytes 0 to
    [n - 1] in their order and zeroes the remaining [16 - n]; behind row 15
    the table ends, so that the guard [value.size <= 15] is what keeps the
    load of the row inside the table. *)
Theorem X2_masks_rows :
  forall n : nat,
    ((n <= 15)%nat ->
     masks_row n = map Z.of_nat (seq 0 n) ++ repeat (-1) (16 - n)) /\
    ((16 <= n)%nat -> masks_row n = []).
Proof.
  intros n. split; intros Hn.
  - do 16 (destruct n as [|n]; [reflexivity|]). lia.
  - unfold masks_row. rewrite skipn_all2; [reflexivity|].
    change (length masks) with 256%nat. lia.
Qed.

Lemma X2_masks_rows_witness :
  masks_row 3 = map Z.of_nat (seq 0 3) ++ repeat (-1) (16 - 3) /\
  masks_row 16 = [].
Proof.
  split.
  - apply (proj1 (X2_masks_rows 3)). lia.
  - apply (proj2 (X2_masks_rows 16)). lia.
Defined.

(** ** The key of a string *)

Lemma valid_refOf (value : StringRef.t) :
  (StringRef.size value <= length (StringRef.data value))%nat ->
  value = refOf (toBytes value)
                (skipn (StringRef.size value) (StringRef.data value)).
Proof.
  destruct value as [d n]. unfold refOf, toBytes. cbn [StringRef.data StringRef.size].
  intros Hn. rewrite firstn_skipn, length_firstn, Nat.min_l by assumption.
  reflexivity.
Qed.

(** X3: the key of a string is a function of its [size] bytes alone.  Two
    [StringRef]s into different memory that denote the same bytes get the
    same key in either build, although the short-string path loads 16 bytes
    and so reads up to 15 bytes that lie behind the string. *)
Theorem X3_key_ignores_memory_behind :
  forall (ssse3 : bool) (sipHash128 : list byte -> UInt128)
         (v1 v2 : StringRef.t),
    (StringRef.size v1 <= length (StringRef.data v1))%nat ->
    (StringRef.size v2 <= length (StringRef.data v2))%nat ->
    toBytes v1 = toBytes v2 ->
    string_key ssse3 sipHash128 v1 = string_key ssse3 sipHash128 v2.
Proof.
  intros ssse3 h v1 v2 H1 H2 E.
  rewrite (valid_refOf v1 H1), (valid_refOf v2 H2), E.
  apply short_key_behind.
Qed.

Lemma X3_key_ignores_memory_behind_witness :
  let v1 := {| StringRef.data := [Byte.x61; Byte.x62; Byte.x78; Byte.x79];
               StringRef.size := 2 |} in
  let v2 := {| StringRef.data := [Byte.x61; Byte.x62] ++ repeat Byte.x00 15;
               StringRef.size := 2 |} in
  string_key true SipHash.sipHash128 v1 = string_key true SipHash.sipHash128 v2.
Proof.
  apply (X3_key_ignores_memory_behind true SipHash.sipHash128
           {| StringRef.data := [Byte.x61; Byte.x62; Byte.x78; Byte.x79];
              StringRef.size := 2 |}
           {| StringRef.data := [Byte.x61; Byte.x62] ++ repeat Byte.x00 15;
              StringRef.size := 2 |}).
  - cbn. lia.
  - cbn. lia.
  - reflexivity.
Defined.

Lemma storeu_bytes (v : list byte) :
  length v = 16%nat ->
  le_split 8 (low (_mm_storeu_si128 v)) ++ le_split 8 (high (_mm_storeu_si128 v))
  = v.
Proof.
  intros Hv. unfold _mm_storeu_si128. cbn [low high].
  pose proof (split_le_combine (firstn 8 v)) as E1.
  pose proof (split_le_combine (skipn 8 v)) as E2.
  rewrite length_firstn, Hv in E1. rewrite length_skipn, Hv in E2.
  change (Nat.min 8 16) with 8%nat in E1. change (16 - 8)%nat with 8%nat in E2.
  rewrite E1, E2. apply firstn_skipn.
Qed.

(** X4: the key of a string of at most 15 bytes holds the string.  Undoing
    the mix and reading the 16 bytes of the key gives the string followed by
    zero bytes, so the string is read back from its key and its length; the
    length itself is not in the key. *)
Theorem X4_embedded_key_decodes :
  forall (sipHash128 : list byte -> UInt128) (s behind : list byte) (n : nat),
    (length s <= 15)%nat ->
    let key := string_key true sipHash128 (refOf s behind) in
    decode_embedded n key = firstn n (zero_pad s) /\
    decode_embedded (length s) key = s.
Proof.
  intros h s behind n Hs key. subst key.
  assert (G : forall m,
    decode_embedded m (string_key true h (refOf s behind))
    = firstn m (zero_pad s)).
  { intros m. unfold decode_embedded.
    rewrite string_key_short by assumption.
    assert (L : length (zero_pad s) = 16%nat) by (apply length_zero_pad; lia).
    destruct (storeu_range (zero_pad s) L) as [Rl Rh].
    rewrite unmix_mix by assumption.
    rewrite storeu_bytes by assumption. reflexivity. }
  split; [apply G|].
  rewrite G. unfold zero_pad. rewrite firstn_app, Nat.sub_diag, firstn_all.
  cbn [firstn]. apply app_nil_r.
Qed.

Lemma X4_embedded_key_decodes_witness :
  let key := string_key true SipHash.sipHash128
               (refOf [Byte.x61; Byte.x62] [Byte.x78]) in
  decode_embedded 3 key = firstn 3 (zero_pad [Byte.x61; Byte.x62]) /\
  decode_embedded (length [Byte.x61; Byte.x62]) key = [Byte.x61; Byte.x62].
Proof.
  apply (X4_embedded_key_decodes SipHash.sipHash128
           [Byte.x61; Byte.x62] [Byte.x78] 3).
  cbn. lia.
Defined.

Lemma firstn_repeat_le {A : Type} (x : A) (n m : nat) :
  (n <= m)%nat -> firstn n (repeat x m) = repeat x n.
Proof.
  revert m. induction n as [|n IH]; intros m Hm; [reflexivity|].
  destruct m as [|m]; [lia|]. cbn [repeat firstn]. f_equal. apply IH. lia.
Qed.

Lemma zero_pad_eq_iff (s1 s2 : list byte) :
  (length s1 <= length s2)%nat -> (length s2 <= 16)%nat ->
  zero_pad s1 = zero_pad s2
  <-> s2 = s1 ++ repeat Byte.x00 (length s2 - length s1).
Proof.
  intros H1 H2. unfold zero_pad. split; intros E.
  - apply (f_equal (firstn (length s2))) in E.
    rewrite !firstn_app, Nat.sub_diag, firstn_all in E.
    rewrite (firstn_all2 (n := length s2) s1) in E by assumption.
    cbn [firstn] in E. rewrite app_nil_r in E.
    rewrite firstn_repeat_le in E by lia. symmetry. exact E.
  - remember (length s2 - length s1)%nat as k eqn:Hk.
    assert (L : length s2 = (length s1 + k)%nat) by lia.
    assert (B : (length s1 + k <= 16)%nat) by lia.
    rewrite L. clear Hk L H1 H2. subst s2.
    rewrite <- app_assoc, <- repeat_app. do 2 f_equal. lia.
Qed.

(** X5: which strings of at most 15 bytes the short-string path confuses.
    Two of them get the same key exactly when the longer one is the shorter
    one followed by zero bytes; strings that differ in any other way get
    different keys. *)
Theorem X5_short_collisions :
  forall (sipHash128 : list byte -> UInt128) (s1 s2 b1 b2 : list byte),
    (length s1 <= length s2)%nat -> (length s2 <= 15)%nat ->
    (string_key true sipHash128 (refOf s1 b1)
     = string_key true sipHash128 (refOf s2 b2)
     <-> s2 = s1 ++ repeat Byte.x00 (length s2 - length s1)).
Proof.
  intros h s1 s2 b1 b2 H1 H2.
  rewrite short_key_eq_iff by lia.
  apply zero_pad_eq_iff; lia.
Qed.

Lemma X5_short_collisions_witness :
  string_key true SipHash.sipHash128 (refOf [Byte.x61] [])
  = string_key true SipHash.sipHash128 (refOf [Byte.x61; Byte.x00; Byte.x00] [])
  <-> [Byte.x61; Byte.x00; Byte.x00] = [Byte.x61] ++ repeat Byte.x00 (3 - 1).
Proof.
  apply (X5_short_collisions SipHash.sipHash128
           [Byte.x61] [Byte.x61; Byte.x00; Byte.x00] [] []); cbn; lia.
Defined.

Lemma lor_range x y : is_UInt64 x -> is_UInt64 y -> is_UInt64 (Z.lor x y).
Proof.
  intros Hx Hy. apply testbit_is_UInt64.
  - apply Z.lor_nonneg. unfold is_UInt64 in *. lia.
  - intros n Hn. rewrite Z.lor_spec.
    rewrite (is_UInt64_testbit x n Hx Hn), (is_UInt64_testbit y n Hy Hn).
    reflexivity.
Qed.

Lemma length_masks_row (n : nat) : (n <= 15)%nat -> length (masks_row n) = 16%nat.
Proof.
  intros Hn. do 16 (destruct n as [|n]; [reflexivity|]). lia.
Qed.

(** X6: the key is a [UInt128].  Given a 128-bit hash whose halves are 64
    bits wide, both halves of the key of any [StringRef] are 64 bits wide, in
    either build and on either path. *)
Theorem X6_key_range :
  forall (ssse3 : bool) (sipHash128 : list byte -> UInt128)
         (value : StringRef.t),
    (forall s, is_UInt128 (sipHash128 s)) ->
    is_UInt128 (string_key ssse3 sipHash128 value).
Proof.
  intros ssse3 h value Hh. unfold string_key.
  destruct ssse3; [|apply Hh].
  destruct (Nat.leb_spec (StringRef.size value) 15) as [Hs|Hs].
  - unfold embedded_key.
    set (v := _mm_shuffle_epi8 _ _).
    assert (L : length v = 16%nat).
    { subst v. unfold _mm_shuffle_epi8. rewrite length_map.
      apply length_masks_row. assumption. }
    destruct (storeu_range v L) as [Rl Rh].
    destruct (mix_range _ Rl Rh) as [Ml Mh].
    split; [exact Ml | rewrite Mh; exact Rh].
  - destruct (Hh (toBytes value)) as [Rl Rh].
    split; cbn [set_flag low high]; [exact Rl|].
    apply lor_range; [exact Rh | unfold is_UInt64; lia].
Qed.

Lemma X6_key_range_witness :
  is_UInt128
    (string_key true
       (fun s => {| low := Z.of_nat (length s) mod 2 ^ 64; high := 0 |})
       (refOf (repeat Byte.x61 20) [])).
Proof.
  apply (X6_key_range true
           (fun s => {| low := Z.of_nat (length s) mod 2 ^ 64; high := 0 |})).
  intros s. split; cbn [low high].
  - apply Z.mod_pos_bound. lia.
  - unfold is_UInt64. lia.
Defined.

(** X7: what the flag costs on the long-string path.  Two strings of more
    than 15 bytes get the same key in the build with the short-string path
    exactly when their hashes have the same low half and high halves that
    agree in every bit other than bit 63: the key keeps 127 bits of the
    hash. *)
Theorem X7_long_collisions :
  forall (sipHash128 : list byte -> UInt128) (s1 s2 b1 b2 : list byte),
    (15 < length s1)%nat -> (15 < length s2)%nat ->
    (string_key true sipHash128 (refOf s1 b1)
     = string_key true sipHash128 (refOf s2 b2)
     <-> low (sipHash128 s1) = low (sipHash128 s2) /\
         forall n, n <> 63 ->
           Z.testbit (high (sipHash128 s1)) n
           = Z.testbit (high (sipHash128 s2)) n).
Proof.
  intros h s1 s2 b1 b2 H1 H2.
  rewrite !string_key_long by assumption. unfold set_flag.
  change 0x8000000000000000 with (2 ^ 63).
  split.
  - intros E. injection E as El Eh. split; [exact El|].
    intros n Hn.
    destruct (Z.ltb_spec n 0) as [Hneg|Hpos];
      [rewrite !Z.testbit_neg_r by assumption; reflexivity|].
    apply (f_equal (fun x => Z.testbit x n)) in Eh.
    rewrite !Z.lor_spec, Z.pow2_bits_eqb in Eh by lia.
    replace (63 =? n) with false in Eh by (symmetry; apply Z.eqb_neq; lia).
    rewrite !orb_false_r in Eh. exact Eh.
  - intros [El Eh]. f_equal; [exact El|].
    apply Z.bits_inj'. intros n Hn.
    rewrite !Z.lor_spec, Z.pow2_bits_eqb by lia.
    destruct (Z.eqb_spec 63 n) as [E63|Hne].
    + rewrite !orb_true_r. reflexivity.
    + rewrite !orb_false_r. apply Eh. lia.
Qed.

Lemma X7_long_collisions_witness :
  let h := fun s : list byte =>
             {| low := 1;
                high := if (length s <=? 16)%nat then 5 else 5 + 2 ^ 63 |} in
  string_key true h (refOf (repeat Byte.x61 16) [])
  = string_key true h (refOf (repeat Byte.x61 17) [])
  <-> low (h (repeat Byte.x61 16)) = low (h (repeat Byte.x61 17)) /\
      forall n, n <> 63 ->
        Z.testbit (high (h (repeat Byte.x61 16))) n
        = Z.testbit (high (h (repeat Byte.x61 17))) n.
Proof.
  apply (X7_long_collisions
           (fun s : list byte =>
              {| low := 1;
                 high := if (length s <=? 16)%nat then 5 else 5 + 2 ^ 63 |})
           (repeat Byte.x61 16) (repeat Byte.x61 17) [] []); cbn; lia.
Defined.

(** ** The key of a number *)

(** X8: within one numeric type of at most 64 bits the hash for uniq loses
    nothing: two different values of one integer type, two different
    [Float32] or two different [Float64] never get the same key. *)
Theorem X8_numeric_key_injective :
  forall (sipHash64 : UInt128 -> Z) (DefaultHash64 : Number -> Z)
         (x y : Number),
    well_typed x -> well_typed y -> same_type x y -> x <> y ->
    AggregateFunctionUniqTraits.hash sipHash64 DefaultHash64 x
    <> AggregateFunctionUniqTraits.hash sipHash64 DefaultHash64 y.
Proof.
  intros sipHash64 DefaultHash64 x y Wx Wy S Hne E. apply Hne. clear Hne.
  destruct x as [T v|f|f|u], y as [T' v'|f'|f'|u'];
    cbn [same_type] in S; try contradiction;
    cbn [well_typed] in Wx, Wy;
    unfold AggregateFunctionUniqTraits.hash in E.
  - subst T'.
    replace (sizeof (Int T v) <=? 8)%nat with true in E
      by (destruct T; reflexivity).
    replace (sizeof (Int T v') <=? 8)%nat with true in E
      by (destruct T; reflexivity).
    rewrite (to_UInt64_widen T v Wx), (to_UInt64_widen T v' Wy) in E.
    f_equal. unfold widen in E. unfold in_range in Wx, Wy.
    destruct (Z.ltb_spec v 0), (Z.ltb_spec v' 0);
      destruct T; cbn in Wx, Wy; lia.
  - rewrite !bit_cast_Float32 in E by assumption.
    f_equal. apply (bit_pattern_injective 8 23); (lia || assumption).
  - rewrite !bit_cast_Float64 in E by assumption.
    f_equal. apply (bit_pattern_injective 11 52); (lia || assumption).
Qed.

Lemma X8_numeric_key_injective_witness :
  AggregateFunctionUniqTraits.hash (fun _ => 0) (fun _ => 0) (Int Int8 (-1))
  <> AggregateFunctionUniqTraits.hash (fun _ => 0) (fun _ => 0) (Int Int8 127).
Proof.
  apply (X8_numeric_key_injective (fun _ => 0) (fun _ => 0)
           (Int Int8 (-1)) (Int Int8 127)).
  - cbn. lia.
  - cbn. lia.
  - reflexivity.
  - discriminate.
Defined.

(** ** Batches of rows *)

Lemma fold_left_ext {A B : Type} (f g : A -> B -> A) (l : list B) (a : A) :
  (forall a x, f a x = g a x) -> fold_left f l a = fold_left g l a.
Proof.
  intros E. revert a. induction l as [|x l IH]; intros a; [reflexivity|].
  cbn [fold_left]. rewrite E. apply IH.
Qed.

Lemma fold_left_insert_map {Set_ value_type T : Type}
    (E : Estimator Set_ value_type) (k : T -> value_type) (rows : list T)
    (s : Set_) :
  fold_left (fun s x => set_insert (k x) s) rows s
  = fold_left (fun s x => set_insert x s) (map k rows) s.
Proof.
  revert s. induction rows as [|x rows IH]; intros s; [reflexivity|].
  cbn [map fold_left]. apply IH.
Qed.

Lemma toBytes_ColumnString (rows : list (list byte)) (row_num : nat) :
  toBytes (ColumnString rows row_num) = columnOf [] rows row_num.
Proof. unfold ColumnString. apply toBytes_refOf. Qed.

Lemma string_key_ColumnString ssse3 sipHash128 (rows : list (list byte))
    (row_num : nat) :
  string_key ssse3 sipHash128 (ColumnString rows row_num)
  = exact_key ssse3 sipHash128 (columnOf [] rows row_num).
Proof. unfold ColumnString, exact_key, columnOf. apply short_key_behind. Qed.

Lemma uniqExact_String_stateOf ssse3 sipHash128 (rows : list (list byte)) :
  uniqExact_String ssse3 sipHash128 rows
  = stateOf ExactStringSet (map (exact_key ssse3 sipHash128) rows).
Proof.
  unfold uniqExact_String, AggregateFunctionUniq.addBatchSinglePlace,
    AggregateFunctionUniq.add, AggregateFunctionUniq.create,
    OneAdder.add_exact_String, stateOf.
  rewrite (fold_left_ext _
    (fun place row_num =>
       set_insert (Estimator := ExactStringSet)
         (exact_key ssse3 sipHash128 (columnOf [] rows row_num)) place))
    by (intros; rewrite string_key_ColumnString; reflexivity).
  rewrite (fold_rows
    (fun place s =>
       set_insert (Estimator := ExactStringSet)
         (exact_key ssse3 sipHash128 s) place)
    [] [] rows).
  apply (fold_left_insert_map ExactStringSet).
Qed.

Lemma uniq_String_stateOf {Set_ : Type} (E : Estimator Set_ Z)
    (CityHash64 : list byte -> Z) (rows : list (list byte)) :
  uniq_String E CityHash64 rows = stateOf E (map CityHash64 rows).
Proof.
  unfold uniq_String, AggregateFunctionUniq.addBatchSinglePlace,
    AggregateFunctionUniq.add, AggregateFunctionUniq.create,
    OneAdder.add_hashed_String, stateOf.
  rewrite (fold_left_ext _
    (fun place row_num =>
       set_insert (CityHash64 (columnOf [] rows row_num)) place))
    by (intros; rewrite toBytes_ColumnString; reflexivity).
  rewrite (fold_rows (fun place s => set_insert (CityHash64 s) place)
                     [] [] rows).
  apply fold_left_insert_map.
Qed.

(** X9: uniq and uniqHLL12 over a string column.  Whatever the estimator,
    the state after a batch of rows is the state the estimator reaches when
    the CityHash64 values of the strings are inserted in the order of the
    rows; what the column stores around a string does not enter. *)
Theorem X9_string_batch_hashed :
  forall (Set_ : Type) (E : Estimator Set_ Z) (CityHash64 : list byte -> Z)
         (rows : list (list byte)),
    uniq_String E CityHash64 rows = stateOf E (map CityHash64 rows).
Proof. intros Set_ E CityHash64 rows. apply uniq_String_stateOf. Qed.

Lemma remove_dups_map_le {A B : Type} `{EqDecision A} `{EqDecision B}
    (f : A -> B) (l : list A) :
  (length (remove_dups (map f l)) <= length (remove_dups l))%nat.
Proof.
  induction l as [|x l IH]; [reflexivity|].
  cbn [map remove_dups].
  destruct (decide_rel elem_of x l) as [Hx|Hx];
    destruct (decide_rel elem_of (f x) (map f l)) as [Hf|Hf];
    cbn [length]; try lia.
  exfalso. apply Hf. exact (list_elem_of_fmap_2 f l x Hx).
Qed.

Lemma remove_dups_map_inj {A B : Type} `{EqDecision A} `{EqDecision B}
    (f : A -> B) (l : list A) :
  (forall x y, x ∈ l -> y ∈ l -> f x = f y -> x = y) ->
  length (remove_dups (map f l)) = length (remove_dups l).
Proof.
  induction l as [|x l IH]; intros Hinj; [reflexivity|].
  cbn [map remove_dups].
  assert (IH' : length (remove_dups (map f l)) = length (remove_dups l)).
  { apply IH. intros a b Ha Hb. apply Hinj; apply elem_of_cons; right;
      assumption. }
  destruct (decide_rel elem_of x l) as [Hx|Hx];
    destruct (decide_rel elem_of (f x) (map f l)) as [Hf|Hf];
    cbn [length]; try lia.
  - exfalso. apply Hf. exact (list_elem_of_fmap_2 f l x Hx).
  - exfalso. destruct (list_elem_of_fmap_1 f l (f x) Hf) as [y [Hy1 Hy2]].
    apply Hx. rewrite (Hinj x y); [exact Hy2 | | | exact Hy1].
    + apply elem_of_cons. left. reflexivity.
    + apply elem_of_cons. right. exact Hy2.
Qed.

Lemma exact_string_count ssse3 sipHash128 (rows : list (list byte)) :
  let keys := map (exact_key ssse3 sipHash128) rows in
  HashSet.keys (uniqExact_String ssse3 sipHash128 rows) = list_to_set keys /\
  finalize ExactStringSet (uniqExact_String ssse3 sipHash128 rows)
  = [Z.of_nat (length (remove_dups keys))].
Proof.
  intros keys. subst keys.
  rewrite uniqExact_String_stateOf.
  destruct (HashSet_fold_insert (map (exact_key ssse3 sipHash128) rows)
              (HashSet.empty (Key := UInt128)) HashSet_wf_empty) as [Hwf Hkeys].
  assert (K : HashSet.keys
                (stateOf ExactStringSet
                   (map (exact_key ssse3 sipHash128) rows))
              = list_to_set (map (exact_key ssse3 sipHash128) rows)).
  { unfold stateOf. cbn [set_insert set_empty ExactStringSet HashSet_Estimator].
    rewrite Hkeys. cbn [HashSet.keys HashSet.empty]. set_solver. }
  split; [exact K|].
  unfold finalize, AggregateFunctionUniq.insertResultInto.
  cbn [app set_size ExactStringSet HashSet_Estimator]. unfold HashSet.size.
  pose proof (stateOf_HashSet_wf writeUInt128 readUInt128
                (map (exact_key ssse3 sipHash128) rows)) as W.
  unfold HashSet_wf in W. fold ExactStringSet in W. rewrite W, K.
  rewrite size_list_to_set_remove_dups. reflexivity.
Qed.

(** X10: uniqExact over a string column, in either build and for any
    128-bit hash.  The state holds the keys of the rows, the result is the
    number of distinct keys, and it never exceeds the number of distinct
    strings among the rows: a collision of keys can only lower the result. *)
Theorem X10_exact_string_count :
  forall (ssse3 : bool) (sipHash128 : list byte -> UInt128)
         (rows : list (list byte)),
    let keys := map (exact_key ssse3 sipHash128) rows in
    HashSet.keys (uniqExact_String ssse3 sipHash128 rows) = list_to_set keys /\
    finalize ExactStringSet (uniqExact_String ssse3 sipHash128 rows)
    = [Z.of_nat (length (remove_dups keys))] /\
    (length (remove_dups keys) <= length (remove_dups rows))%nat.
Proof.
  intros ssse3 h rows keys. subst keys.
  destruct (exact_string_count ssse3 h rows) as [K R].
  split; [exact K|]. split; [exact R | apply remove_dups_map_le].
Qed.

Lemma zero_pad_no_trailing_zero (s1 s2 : list byte) :
  (length s1 <= 15)%nat -> (length s2 <= 15)%nat ->
  no_trailing_zero s1 -> no_trailing_zero s2 ->
  zero_pad s1 = zero_pad s2 -> s1 = s2.
Proof.
  assert (G : forall a b : list byte,
    (length a <= length b)%nat -> (length b <= 15)%nat ->
    no_trailing_zero b -> zero_pad a = zero_pad b -> a = b).
  { intros a b Hab Hb Nb E.
    apply zero_pad_eq_iff in E; [|lia|lia].
    destruct (length b - length a)%nat as [|k] eqn:Hk.
    - cbn [repeat] in E. rewrite app_nil_r in E. symmetry. exact E.
    - exfalso. apply Nb. rewrite E.
      replace (S k) with (k + 1)%nat by lia.
      rewrite repeat_app, app_assoc. cbn [repeat]. apply List.last_last. }
  intros H1 H2 N1 N2 E.
  destruct (Nat.le_ge_cases (length s1) (length s2)) as [L|L].
  - apply G; assumption.
  - symmetry. apply G; try assumption. symmetry. exact E.
Qed.

(** X11: when uniqExact over strings is exact in the build with the
    short-string path.  If every row has at most 15 bytes and none ends in a
    zero byte, the result is the number of distinct strings among the rows,
    whatever the 128-bit hash. *)
Theorem X11_exact_short_strings :
  forall (sipHash128 : list byte -> UInt128) (rows : list (list byte)),
    Forall (fun s => (length s <= 15)%nat /\ no_trailing_zero s) rows ->
    finalize ExactStringSet (uniqExact_String true sipHash128 rows)
    = [Z.of_nat (length (remove_dups rows))].
Proof.
  intros h rows Hrows.
  destruct (exact_string_count true h rows) as [_ R].
  rewrite R. do 2 f_equal.
  apply remove_dups_map_inj. intros x y Hx Hy E.
  rewrite Forall_forall in Hrows.
  destruct (Hrows x Hx) as [Lx Nx]. destruct (Hrows y Hy) as [Ly Ny].
  unfold exact_key in E. apply short_key_eq_iff in E; [|assumption|assumption].
  apply zero_pad_no_trailing_zero; assumption.
Qed.

Lemma X11_exact_short_strings_witness :
  finalize ExactStringSet
    (uniqExact_String true SipHash.sipHash128
       [[Byte.x61]; [Byte.x62; Byte.x00; Byte.x63]; [Byte.x61]])
  = [Z.of_nat (length (remove_dups
       [[Byte.x61]; [Byte.x62; Byte.x00; Byte.x63]; [Byte.x61]]))].
Proof.
  apply (X11_exact_short_strings SipHash.sipHash128
           [[Byte.x61]; [Byte.x62; Byte.x00; Byte.x63]; [Byte.x61]]).
  repeat constructor; cbn; (lia || discriminate).
Defined.

(** ** A batch in parts, and the order of the rows *)

Lemma uniqExact_Number_stateOf (E : Estimator (HashSet.t Number) Number)
    (rows : list Number) :
  uniqExact_Number E rows = stateOf E rows.
Proof.
  unfold uniqExact_Number. rewrite addBatchSinglePlace_rows.
  unfold OneAdder.add_exact, AggregateFunctionUniq.create, stateOf.
  apply (fold_rows (fun place x => set_insert x place) (Int UInt8 0) [] rows).
Qed.


(** X12: uniqExact over a batch in parts.  For a numeric column and for a
    string column, in either build, the state after the rows of two batches
    is the merge of the states of the two batches: aggregating in parts and
    merging loses nothing. *)
Theorem X12_exact_batch_in_parts :
  (forall (writeKey : Number -> list byte)
          (readKey : list byte -> option (Number * list byte))
          (rows1 rows2 : list Number),
     let E := HashSet_Estimator writeKey readKey in
     uniqExact_Number E (rows1 ++ rows2)
     = AggregateFunctionUniq.merge (E := E)
         (uniqExact_Number E rows1) (uniqExact_Number E rows2)) /\
  (forall (ssse3 : bool) (sipHash128 : list byte -> UInt128)
          (rows1 rows2 : list (list byte)),
     uniqExact_String ssse3 sipHash128 (rows1 ++ rows2)
     = AggregateFunctionUniq.merge (E := ExactStringSet)
         (uniqExact_String ssse3 sipHash128 rows1)
         (uniqExact_String ssse3 sipHash128 rows2)).
Proof.
  split.
  - intros writeKey readKey rows1 rows2 E.
    rewrite !uniqExact_Number_stateOf. unfold AggregateFunctionUniq.merge.
    apply stateOf_HashSet_app.
  - intros ssse3 h rows1 rows2.
    rewrite !uniqExact_String_stateOf, map_app.
    unfold AggregateFunctionUniq.merge.
    apply (stateOf_HashSet_app writeUInt128 readUInt128).
Qed.

(** X13: uniq over a batch in parts.  With a bound of at least one hash and
    a 64-bit hash function in its set, the state after the rows of two
    batches is the merge of the states of the two batches, for a numeric
    column and for a string column, whether or not the set has started to
    sample. *)
Theorem X13_uniq_batch_in_parts :
  forall (DefaultHash : Z -> Z) (max_size : nat),
    (1 <= max_size)%nat -> (forall x, is_UInt64 (DefaultHash x)) ->
    let E := UniqSet DefaultHash max_size in
    (forall (sipHash64 : UInt128 -> Z) (DefaultHash64 : Number -> Z)
            (rows1 rows2 : list Number),
       uniq_Number E sipHash64 DefaultHash64 (rows1 ++ rows2)
       = AggregateFunctionUniq.merge (E := E)
           (uniq_Number E sipHash64 DefaultHash64 rows1)
           (uniq_Number E sipHash64 DefaultHash64 rows2)) /\
    (forall (CityHash64 : list byte -> Z) (rows1 rows2 : list (list byte)),
       uniq_String E CityHash64 (rows1 ++ rows2)
       = AggregateFunctionUniq.merge (E := E)
           (uniq_String E CityHash64 rows1)
           (uniq_String E CityHash64 rows2)).
Proof.
  intros DefaultHash max_size Hm HH E. split.
  - intros sipHash64 DefaultHash64 rows1 rows2.
    rewrite !uniq_Number_stateOf, map_app.
    unfold AggregateFunctionUniq.merge.
    apply stateOf_UniquesHashSet_app; assumption.
  - intros CityHash64 rows1 rows2.
    rewrite !uniq_String_stateOf, map_app.
    unfold AggregateFunctionUniq.merge.
    apply stateOf_UniquesHashSet_app; assumption.
Qed.

Lemma X13_uniq_batch_in_parts_witness :
  let E := UniqSet (fun x => x mod 2 ^ 64) 2 in
  let rows1 := [Int UInt8 1; Int UInt8 2; Int UInt8 3] in
  let rows2 := [Int UInt8 4; Int UInt8 1] in
  uniq_Number E (fun _ => 0) (fun _ => 0) (rows1 ++ rows2)
  = AggregateFunctionUniq.merge (E := E)
      (uniq_Number E (fun _ => 0) (fun _ => 0) rows1)
      (uniq_Number E (fun _ => 0) (fun _ => 0) rows2).
Proof.
  apply (X13_uniq_batch_in_parts (fun x => x mod 2 ^ 64) 2).
  - lia.
  - intros x. apply Z.mod_pos_bound. lia.
Defined.

(** X14: uniqHLL12 over a batch in parts.  The state after the rows of two
    batches is the merge of the states of the two batches, whether the
    states are small sets or registers: for a numeric column whose set is
    keyed by [UInt64] and for a string column, and for a column of a numeric
    type whose set is keyed by that type. *)
Theorem X14_uniqHLL12_batch_in_parts :
  forall (Hash : Z -> Z) (estimate : list Z -> Z),
    let E := HLL12Set Hash estimate in
    (forall (sipHash64 : UInt128 -> Z) (DefaultHash64 : Number -> Z)
            (rows1 rows2 : list Number),
       uniq_Number E sipHash64 DefaultHash64 (rows1 ++ rows2)
       = AggregateFunctionUniq.merge (E := E)
           (uniq_Number E sipHash64 DefaultHash64 rows1)
           (uniq_Number E sipHash64 DefaultHash64 rows2)) /\
    (forall (CityHash64 : list byte -> Z) (rows1 rows2 : list (list byte)),
       uniq_String E CityHash64 (rows1 ++ rows2)
       = AggregateFunctionUniq.merge (E := E)
           (uniq_String E CityHash64 rows1)
           (uniq_String E CityHash64 rows2)) /\
    (forall (T : NumberType) (writeKey : Number -> list byte)
            (readKey : list byte -> option (Number * list byte))
            (HashT : Number -> Z)
            (sipHash64 : UInt128 -> Z) (DefaultHash64 : Number -> Z)
            (rows1 rows2 : list Number),
       let ET := HLL12SetOf writeKey readKey HashT estimate in
       uniqHLL12_Number ET T sipHash64 DefaultHash64 (rows1 ++ rows2)
       = AggregateFunctionUniq.merge (E := ET)
           (uniqHLL12_Number ET T sipHash64 DefaultHash64 rows1)
           (uniqHLL12_Number ET T sipHash64 DefaultHash64 rows2)).
Proof.
  intros Hash estimate E. split; [|split].
  - intros sipHash64 DefaultHash64 rows1 rows2.
    rewrite !uniq_Number_stateOf, map_app.
    unfold AggregateFunctionUniq.merge. apply stateOf_HLL_app.
  - intros CityHash64 rows1 rows2.
    rewrite !uniq_String_stateOf, map_app.
    unfold AggregateFunctionUniq.merge. apply stateOf_HLL_app.
  - intros T writeKey readKey HashT sipHash64 DefaultHash64 rows1 rows2 ET.
    rewrite !uniqHLL12_Number_stateOf, map_app.
    unfold AggregateFunctionUniq.merge. apply stateOf_HLL_app.
Qed.

(** X15: the rows of a numeric column count as a set.  Two batches with the
    same values, in any order and with any repetitions, leave uniqExact,
    uniq and uniqHLL12 in the same state, for uniqHLL12 with a set keyed by
    [UInt64] and with a set keyed by the type of the column. *)
Theorem X15_numbers_as_a_set :
  forall rows rows' : list Number,
    (forall x, x ∈ rows <-> x ∈ rows') ->
    (forall (writeKey : Number -> list byte)
            (readKey : list byte -> option (Number * list byte)),
       uniqExact_Number (HashSet_Estimator writeKey readKey) rows
       = uniqExact_Number (HashSet_Estimator writeKey readKey) rows') /\
    (forall (DefaultHash : Z -> Z) (max_size : nat)
            (sipHash64 : UInt128 -> Z) (DefaultHash64 : Number -> Z),
       (1 <= max_size)%nat -> (forall x, is_UInt64 (DefaultHash x)) ->
       uniq_Number (UniqSet DefaultHash max_size) sipHash64 DefaultHash64 rows
       = uniq_Number (UniqSet DefaultHash max_size) sipHash64 DefaultHash64
           rows') /\
    (forall (Hash : Z -> Z) (estimate : list Z -> Z)
            (sipHash64 : UInt128 -> Z) (DefaultHash64 : Number -> Z),
       uniq_Number (HLL12Set Hash estimate) sipHash64 DefaultHash64 rows
       = uniq_Number (HLL12Set Hash estimate) sipHash64 DefaultHash64 rows') /\
    (forall (T : NumberType) (writeKey : Number -> list byte)
            (readKey : list byte -> option (Number * list byte))
            (Hash : Number -> Z) (estimate : list Z -> Z)
            (sipHash64 : UInt128 -> Z) (DefaultHash64 : Number -> Z),
       uniqHLL12_Number (HLL12SetOf writeKey readKey Hash estimate) T
                        sipHash64 DefaultHash64 rows
       = uniqHLL12_Number (HLL12SetOf writeKey readKey Hash estimate) T
                          sipHash64 DefaultHash64 rows').
Proof.
  intros rows rows' Hs. split; [|split; [|split]].
  - intros writeKey readKey. rewrite !uniqExact_Number_stateOf.
    apply stateOf_HashSet_same_set. exact Hs.
  - intros DefaultHash max_size sipHash64 DefaultHash64 Hm HH.
    rewrite !uniq_Number_stateOf.
    apply stateOf_UniquesHashSet_same_set; try assumption.
    apply elem_of_map_same. exact Hs.
  - intros Hash estimate sipHash64 DefaultHash64.
    rewrite !uniq_Number_stateOf.
    apply stateOf_HLL_same_set. apply elem_of_map_same. exact Hs.
  - intros T writeKey readKey Hash estimate sipHash64 DefaultHash64.
    rewrite !uniqHLL12_Number_stateOf.
    apply stateOf_HLL_same_set. apply elem_of_map_same. exact Hs.
Qed.

Lemma X15_numbers_as_a_set_witness :
  let E := HLL12SetOf (fun _ => []) (fun _ => None) (fun _ => 0)
                      (fun _ => 0) in
  uniqHLL12_Number E (TInt UInt8) (fun _ => 0) (fun _ => 0)
    [Int UInt8 1; Int UInt8 2; Int UInt8 1]
  = uniqHLL12_Number E (TInt UInt8) (fun _ => 0) (fun _ => 0)
      [Int UInt8 2; Int UInt8 1].
Proof.
  apply (X15_numbers_as_a_set [Int UInt8 1; Int UInt8 2; Int UInt8 1]
                              [Int UInt8 2; Int UInt8 1]).
  intros x. rewrite !elem_of_cons. pose proof (not_elem_of_nil x). tauto.
Defined.

(** X16: the rows of a string column count as a set.  Two batches with the
    same strings, in any order and with any repetitions, leave uniqExact (in
    either build), uniq and uniqHLL12 in the same state, although the
    strings lie at other places of the two columns. *)
Theorem X16_strings_as_a_set :
  forall rows rows' : list (list byte),
    (forall s, s ∈ rows <-> s ∈ rows') ->
    (forall (ssse3 : bool) (sipHash128 : list byte -> UInt128),
       uniqExact_String ssse3 sipHash128 rows
       = uniqExact_String ssse3 sipHash128 rows') /\
    (forall (DefaultHash : Z -> Z) (max_size : nat)
            (CityHash64 : list byte -> Z),
       (1 <= max_size)%nat -> (forall x, is_UInt64 (DefaultHash x)) ->
       uniq_String (UniqSet DefaultHash max_size) CityHash64 rows
       = uniq_String (UniqSet DefaultHash max_size) CityHash64 rows') /\
    (forall (Hash : Z -> Z) (estimate : list Z -> Z)
            (CityHash64 : list byte -> Z),
       uniq_String (HLL12Set Hash estimate) CityHash64 rows
       = uniq_String (HLL12Set Hash estimate) CityHash64 rows').
Proof.
  intros rows rows' Hs. split; [|split].
  - intros ssse3 h. rewrite !uniqExact_String_stateOf.
    apply (stateOf_HashSet_same_set writeUInt128 readUInt128).
    apply elem_of_map_same. exact Hs.
  - intros DefaultHash max_size CityHash64 Hm HH.
    rewrite !uniq_String_stateOf.
    apply stateOf_UniquesHashSet_same_set; try assumption.
    apply elem_of_map_same. exact Hs.
  - intros Hash estimate CityHash64.
    rewrite !uniq_String_stateOf.
    apply stateOf_HLL_same_set. apply elem_of_map_same. exact Hs.
Qed.

Lemma X16_strings_as_a_set_witness :
  uniqExact_String true SipHash.sipHash128
    [[Byte.x61]; [Byte.x62]; [Byte.x61]]
  = uniqExact_String true SipHash.sipHash128 [[Byte.x62]; [Byte.x61]].
Proof.
  apply (X16_strings_as_a_set [[Byte.x61]; [Byte.x62]; [Byte.x61]]
                              [[Byte.x62]; [Byte.x61]]).
  intros x. rewrite !elem_of_cons. pose proof (not_elem_of_nil x). tauto.
Defined.

(** ** The variadic functions *)

Lemma length_remove_dups_le {A : Type} `{EqDecision A} (l : list A) :
  (length (remove_dups l) <= length l)%nat.
Proof.
  induction l as [|x l IH]; [reflexivity|]. cbn [remove_dups].
  destruct (decide_rel elem_of x l); cbn [length]; lia.
Qed.

(** X17: a variadic function with the exact set.  The object the constructor
    returns holds the number of arguments (the number of elements of the
    first argument when that is the tuple); each row adds the hash of that
    many columns; and the result after a batch is the number of distinct
    hashes of its rows, never more than the number of rows. *)
Theorem X17_variadic_exact_count :
  forall (Column_ Key : Type) (EqDec : EqDecision Key) (Cnt : Countable Key)
         (writeKey : Key -> list byte)
         (readKey : list byte -> option (Key * list byte))
         (is_exact argument_is_tuple : bool)
         (UniqVariadicHash_apply :
            bool -> bool -> nat -> list Column_ -> nat -> Key)
         (arguments : list DataType) (this : AggregateFunctionUniqVariadic.t)
         (columns : list Column_) (batch_size : nat),
    AggregateFunctionUniqVariadic.new argument_is_tuple arguments = Ok this ->
    let E := HashSet_Estimator writeKey readKey in
    let num_args :=
      if argument_is_tuple
      then match arguments with
           | DataTypeTuple elems :: _ => length elems
           | _ => 0%nat
           end
      else length arguments in
    let hashes :=
      map (UniqVariadicHash_apply is_exact argument_is_tuple num_args columns)
          (seq 0 batch_size) in
    AggregateFunctionUniqVariadic.num_args this = num_args /\
    AggregateFunctionUniqVariadic.insertResultInto (E := E)
      (uniqVariadic E is_exact argument_is_tuple UniqVariadicHash_apply
                    this columns batch_size) []
    = [Z.of_nat (length (remove_dups hashes))] /\
    (length (remove_dups hashes) <= batch_size)%nat.
Proof.
  intros Column_ Key EqDec Cnt writeKey readKey is_exact argument_is_tuple
         apply_ arguments this columns batch_size Hnew E num_args hashes.
  assert (Hn : AggregateFunctionUniqVariadic.num_args this = num_args).
  { subst num_args. unfold AggregateFunctionUniqVariadic.new in Hnew.
    destruct argument_is_tuple.
    - destruct arguments as [|[] ?]; try discriminate.
      injection Hnew as <-. reflexivity.
    - injection Hnew as <-. reflexivity. }
  split; [exact Hn|]. split.
  - unfold uniqVariadic, AggregateFunctionUniqVariadic.add.
    rewrite Hn.
    rewrite (fold_left_insert_map E
               (apply_ is_exact argument_is_tuple num_args columns)).
    fold hashes.
    change (fold_left (fun s x => set_insert x s) hashes set_empty)
      with (stateOf E hashes).
    unfold AggregateFunctionUniqVariadic.insertResultInto.
    cbn [app set_size E HashSet_Estimator]. unfold HashSet.size.
    pose proof (stateOf_HashSet_wf writeKey readKey hashes) as W.
    unfold HashSet_wf in W. subst E. rewrite W.
    rewrite (stateOf_HashSet_keys writeKey readKey).
    rewrite size_list_to_set_remove_dups. reflexivity.
  - etransitivity; [apply length_remove_dups_le|].
    subst hashes. rewrite length_map, length_seq. reflexivity.
Qed.

Lemma X17_variadic_exact_count_witness :
  let tuple := DataTypeTuple [DataTypeNumber UInt8; DataTypeString] in
  let apply_ := fun (_ _ : bool) (n : nat) (columns : list (Column Z))
                    (row_num : nat) =>
                  fold_left (fun acc c => acc + c row_num) (firstn n columns) 0
  in
  let columns := [columnOf 0 [1; 2; 1]; columnOf 0 [5; 4; 5]] in
  let hashes := map (apply_ true true 2%nat columns) (seq 0 3) in
  AggregateFunctionUniqVariadic.num_args
    {| AggregateFunctionUniqVariadic.num_args := 2 |} = 2%nat /\
  AggregateFunctionUniqVariadic.insertResultInto
    (E := HashSet_Estimator (writeIntBinary 8) (readIntBinary 8))
    (uniqVariadic (HashSet_Estimator (writeIntBinary 8) (readIntBinary 8))
       true true apply_ {| AggregateFunctionUniqVariadic.num_args := 2 |}
       columns 3) []
  = [Z.of_nat (length (remove_dups hashes))] /\
  (length (remove_dups hashes) <= 3)%nat.
Proof.
  apply (X17_variadic_exact_count (Column Z) Z _ _
           (writeIntBinary 8) (readIntBinary 8) true true
           (fun (_ _ : bool) (n : nat) (columns : list (Column Z))
                (row_num : nat) =>
              fold_left (fun acc c => acc + c row_num) (firstn n columns) 0)
           [DataTypeTuple [DataTypeNumber UInt8; DataTypeString]]
           {| AggregateFunctionUniqVariadic.num_args := 2 |}
           [columnOf 0 [1; 2; 1]; columnOf 0 [5; 4; 5]] 3).
  reflexivity.
Defined.

(** ** The approximate functions over few strings *)

(** X18: uniqHLL12 and uniq over a string column with few distinct rows.
    While the distinct CityHash64 values of the rows are at most 16,
    uniqHLL12 reports their number; while the distinct hashes of those
    values fit the bound of its set, uniq reports their number; and the
    number of distinct CityHash64 values never exceeds the number of
    distinct strings. *)
Theorem X18_approximate_strings_small :
  forall (CityHash64 : list byte -> Z) (rows : list (list byte)),
    let keys := map CityHash64 rows in
    (forall (Hash : Z -> Z) (estimate : list Z -> Z),
       (length (remove_dups keys) <= 16)%nat ->
       finalize (HLL12Set Hash estimate)
         (uniq_String (HLL12Set Hash estimate) CityHash64 rows)
       = [Z.of_nat (length (remove_dups keys))]) /\
    (forall (DefaultHash : Z -> Z) (max_size : nat),
       let hashes := map DefaultHash keys in
       (length (remove_dups hashes) <= max_size)%nat ->
       finalize (UniqSet DefaultHash max_size)
         (uniq_String (UniqSet DefaultHash max_size) CityHash64 rows)
       = [Z.of_nat (length (remove_dups hashes))]) /\
    (length (remove_dups keys) <= length (remove_dups rows))%nat.
Proof.
  intros CityHash64 rows keys. split; [|split].
  - intros Hash estimate Hsize.
    rewrite <- size_list_to_set_remove_dups in *.
    rewrite uniq_String_stateOf. fold keys. unfold HLL12Set.
    rewrite HLL_small_exact by exact Hsize. reflexivity.
  - intros DefaultHash max_size hashes Hsize.
    rewrite <- size_list_to_set_remove_dups in *.
    rewrite uniq_String_stateOf. unfold UniqSet.
    rewrite UniquesHashSet_degree_0_exact by exact Hsize.
    unfold finalize, AggregateFunctionUniq.insertResultInto.
    cbn [set_size UniquesHashSet_Estimator app]. unfold UniquesHashSet.size.
    cbn [UniquesHashSet.skip_degree UniquesHashSet.table].
    fold keys. fold hashes. rewrite Z.pow_0_r, Z.mul_1_r. reflexivity.
  - apply remove_dups_map_le.
Qed.

Lemma X18_approximate_strings_small_witness :
  let CityHash64 := fun s : list byte => Z.of_nat (length s) in
  let rows := [[Byte.x61]; [Byte.x62; Byte.x63]; [Byte.x61]] in
  finalize (HLL12Set (fun x => x) (fun _ => 0))
    (uniq_String (HLL12Set (fun x => x) (fun _ => 0)) CityHash64 rows)
  = [Z.of_nat (length (remove_dups (map CityHash64 rows)))].
Proof.
  apply (proj1 (X18_approximate_strings_small
                  (fun s : list byte => Z.of_nat (length s))
                  [[Byte.x61]; [Byte.x62; Byte.x63]; [Byte.x61]])
           (fun x => x) (fun _ => 0)).
  vm_compute. lia.
Defined.

(** ** Floats on the approximate paths *)

(** X19: floats on the approximate paths, as the code treats them.  The
    hash for uniq of a float is its bit pattern, so the
    keys of +0.0 and -0.0 differ, and so do the keys of two NaNs with
    different payloads, for [Float32] and for [Float64].  uniq inserts the
    key as it is: it reports the number of distinct hashes of keys while
    they fit its bound, so two rows count as two when the hash function of
    its set tells their keys apart.  uniqHLL12 converts the key by value to
    the type of the column when it inserts it: it reports the number of
    distinct converted keys while they are at most 16, two rows count as two
    exactly when their converted keys differ, +0.0 and -0.0 count as two,
    and NaNs of one sign with small payloads count as one. *)
Theorem X19_float_keys :
  forall (sipHash64 : UInt128 -> Z) (DefaultHash64 : Number -> Z),
    let key := AggregateFunctionUniqTraits.hash sipHash64 DefaultHash64 in
    let key12 := fun T => HLL12_key T sipHash64 DefaultHash64 in
    (key (Float64 pos_zero) <> key (Float64 neg_zero) /\
     key (Float32 pos_zero) <> key (Float32 neg_zero)) /\
    (forall s1 s2 p1 p2,
       0 < p1 < 2 ^ 52 -> 0 < p2 < 2 ^ 52 -> p1 <> p2 ->
       key (Float64 (NaN64 s1 p1)) <> key (Float64 (NaN64 s2 p2))) /\
    (forall s1 s2 p1 p2,
       0 < p1 < 2 ^ 23 -> 0 < p2 < 2 ^ 23 -> p1 <> p2 ->
       key (Float32 (NaN32 s1 p1)) <> key (Float32 (NaN32 s2 p2))) /\
    (forall (rows : list Number) DefaultHash max_size,
       let hashes := map DefaultHash (map key rows) in
       (length (remove_dups hashes) <= max_size)%nat ->
       finalize (UniqSet DefaultHash max_size)
         (uniq_Number (UniqSet DefaultHash max_size)
                      sipHash64 DefaultHash64 rows)
       = [Z.of_nat (length (remove_dups hashes))]) /\
    (forall x y DefaultHash max_size,
       (2 <= max_size)%nat ->
       DefaultHash (key x) <> DefaultHash (key y) ->
       finalize (UniqSet DefaultHash max_size)
         (uniq_Number (UniqSet DefaultHash max_size)
                      sipHash64 DefaultHash64 [x; y])
       = [2]) /\
    (forall (T : NumberType) writeKey readKey Hash estimate
            (rows : list Number),
       let keys := map (key12 T) rows in
       (length (remove_dups keys) <= 16)%nat ->
       finalize (HLL12SetOf writeKey readKey Hash estimate)
         (uniqHLL12_Number (HLL12SetOf writeKey readKey Hash estimate) T
                           sipHash64 DefaultHash64 rows)
       = [Z.of_nat (length (remove_dups keys))]) /\
    (forall (T : NumberType) writeKey readKey Hash estimate (x y : Number),
       finalize (HLL12SetOf writeKey readKey Hash estimate)
         (uniqHLL12_Number (HLL12SetOf writeKey readKey Hash estimate) T
                           sipHash64 DefaultHash64 [x; y])
       = [if decide (key12 T x = key12 T y) then 1 else 2]) /\
    (key12 TFloat64 (Float64 pos_zero) <> key12 TFloat64 (Float64 neg_zero) /\
     key12 TFloat32 (Float32 pos_zero) <> key12 TFloat32 (Float32 neg_zero)) /\
    (forall s p1 p2,
       0 < p1 < 2 ^ 9 -> 0 < p2 < 2 ^ 9 ->
       key12 TFloat64 (Float64 (NaN64 s p1))
       = key12 TFloat64 (Float64 (NaN64 s p2))) /\
    (forall s p1 p2,
       0 < p1 < 2 ^ 6 -> 0 < p2 < 2 ^ 6 ->
       key12 TFloat32 (Float32 (NaN32 s p1))
       = key12 TFloat32 (Float32 (NaN32 s p2))).
Proof.
  intros sipHash64 DefaultHash64 key key12. subst key key12.
  split; [|split; [|split; [|split; [|split; [|split; [|split;
    [|split; [|split]]]]]]]].
  - split.
    + apply float_keys_distinct; [discriminate | |];
        unfold is_Float; cbn; lia.
    + apply float_keys_distinct; [discriminate | |];
        unfold is_Float; cbn; lia.
  - intros s1 s2 p1 p2 H1 H2 Hne.
    apply float_keys_distinct;
      [intros E; injection E; intros; contradiction | |];
      unfold is_Float, NaN64; cbn [exponent fraction]; lia.
  - intros s1 s2 p1 p2 H1 H2 Hne.
    apply float_keys_distinct;
      [intros E; injection E; intros; contradiction | |];
      unfold is_Float, NaN32; cbn [exponent fraction]; lia.
  - intros rows DefaultHash max_size hashes Hsize.
    rewrite <- size_list_to_set_remove_dups in *.
    rewrite uniq_Number_stateOf. unfold UniqSet.
    rewrite UniquesHashSet_degree_0_exact by exact Hsize.
    unfold finalize, AggregateFunctionUniq.insertResultInto.
    cbn [set_size UniquesHashSet_Estimator app]. unfold UniquesHashSet.size.
    cbn [UniquesHashSet.skip_degree UniquesHashSet.table].
    fold hashes. rewrite Z.pow_0_r, Z.mul_1_r. reflexivity.
  - intros x y DefaultHash max_size Hmax Hne.
    apply uniq_two_rows; assumption.
  - intros T writeKey readKey Hash estimate rows keys Hsize.
    apply uniqHLL12_small. exact Hsize.
  - intros T writeKey readKey Hash estimate x y. apply uniqHLL12_two_rows.
  - split.
    + rewrite !HLL12_key_Float64 by (unfold is_Float; cbn; lia).
      vm_compute. discriminate.
    + rewrite !HLL12_key_Float32 by (unfold is_Float; cbn; lia).
      vm_compute. discriminate.
  - intros s p1 p2 H1 H2.
    rewrite !HLL12_key_Float64
      by (unfold is_Float, NaN64; cbn [exponent fraction]; lia).
    rewrite (NaN64_converted s p1), (NaN64_converted s p2) by lia.
    reflexivity.
  - intros s p1 p2 H1 H2.
    rewrite !HLL12_key_Float32
      by (unfold is_Float, NaN32; cbn [exponent fraction]; lia).
    rewrite (NaN32_converted s p1), (NaN32_converted s p2) by lia.
    reflexivity.
Qed.

Lemma X19_float_keys_witness :
  AggregateFunctionUniqTraits.hash (fun _ => 0) (fun _ => 0)
    (Float64 (NaN64 false 1))
  <> AggregateFunctionUniqTraits.hash (fun _ => 0) (fun _ => 0)
       (Float64 (NaN64 true 2)).
Proof.
  apply (proj1 (proj2 (X19_float_keys (fun _ => 0) (fun _ => 0)))
           false true 1 2); lia.
Defined.
